(** * sinkingyachts: a cached blocklist client, its synchronisation paths
      and its persistence snapshot

    The development embeds [client.go], [helper.go] and [types.go].  The
    [Client] struct becomes a record, the channels it points to live in an
    explicit store, and every method is a computation in a small monad that
    threads the store, records the observable events (mutex operations,
    transport calls, map reads, cancellations) and carries Go panics together
    with the [defer]red calls that still run after them.  Results of the
    collaborators the package calls (the HTTP transport, the wall clock,
    [encoding/json], [context.WithCancel]) are arguments of the computation
    that consumes them.  [time.Time] is the instant in nanoseconds,
    [time.Duration] a saturating [int64], and the [float64] of
    [Duration.Seconds] is the binary64 of the Standard Library's [SpecFloat].
    [ListenForUpdates] and [AutoSync], with their goroutines and their
    channels, run along explicit schedules.

    The first part holds the definitions, the second the properties: the
    arithmetic of the update window, then the queries, the live feed, the
    notifications, the synchronisation paths, the snapshot and the
    orchestrator.  The definitions end with more of the package ([Close],
    the listing queries, [WriteCacheInto] and [SaveOnChange] over a writer,
    the [RawClient] of [helper.go] with the options of [options.go] and the
    paths of [endpoints.go], the messages of the errors), and the properties
    end with those of that code. *)

From stdpp Require Import base option list gmap strings sorting pretty.
From Stdlib Require Import ZArith Lia Ascii SpecFloat.

Local Set Warnings "-clear-no-such-hyp".

Local Open Scope string_scope.
Local Open Scope list_scope.
Local Open Scope Z_scope.

(** ** Strings: [strings.Split] and [strings.Join] with a one-byte separator *)

Module GoStrings.

(** [strings.Split(s, sep)] for a separator of one byte: the pieces between
    the occurrences of [sep]; a string without [sep] (the empty string
    too) is returned as the only piece. *)
Fixpoint Split (s : string) (sep : ascii) : list string :=
  match s with
  | EmptyString => [EmptyString]
  | String ch rest =>
      if Ascii.eqb ch sep then EmptyString :: Split rest sep
      else match Split rest sep with
           | [] => [String ch EmptyString]
           | p :: ps => String ch p :: ps
           end
  end.

(** [strings.Join(elems, sep)]. *)
Fixpoint Join (elems : list string) (sep : string) : string :=
  match elems with
  | [] => EmptyString
  | [e] => e
  | e :: rest => e +:+ sep +:+ Join rest sep
  end.

(** Whether a byte occurs in a string. *)
Fixpoint contains (ch : ascii) (s : string) : bool :=
  match s with
  | EmptyString => false
  | String c rest => Ascii.eqb c ch || contains ch rest
  end.

End GoStrings.

Import GoStrings.

(** ** Data: types.go and the [Client] struct *)

(** Go's [error] interface, by its message; [None] is [nil]. *)
Definition error := string.

(** [time.Time], as the instant it denotes: nanoseconds since the zero
    [Time] (January 1, year 1, 00:00 UTC). *)
Definition Time := Z.

Record DomainUpdate := mkDomainUpdate {
  Add : bool;
  Domains : list string
}.

(** The on-disk format [save]. *)
Record save := mkSave {
  LastUpdated : Time;
  SaveDomains : list string
}.

(** A [chan struct{}]: elements carry no data, so the buffer is its length. *)
Record Chan := mkChan {
  chan_cap : nat;
  chan_len : nat;
  chan_closed : bool
}.

(** A [context.CancelFunc], by the number of the context it cancels. *)
Definition CancelFunc := nat.

(** The fields of [Client].  [r] is the transport, whose answers are
    arguments of the methods below; [m] is the mutex, whose operations are
    recorded as events.  [domains = None] is the nil map of a zero-value
    [Client]; [updateChan] points into the channel store. *)
Record Client := mkClient {
  domains : option (gset string);
  lastUpdated : Time;
  streaming : bool;
  cancelFunc : option CancelFunc;
  updateChan : option nat
}.

(** The client and the channels allocated so far ([make] appends). *)
Record World := mkWorld {
  client : Client;
  chans : list Chan
}.

(** [New]: an empty, non-nil map and zero values elsewhere. *)
Definition New : World :=
  mkWorld (mkClient (Some ∅) 0 false None None) [].

(** The set a map denotes for reads: a nil map reads as empty. *)
Definition members (c : Client) : gset string := default ∅ (domains c).

(** ** Events and the method monad *)

Inductive transport_call :=
  | CallAll
  | CallRecent (seconds : Z)
  | CallFeed.

Inductive event :=
  | EvLock
  | EvUnlock
  | EvTransport (call : transport_call)
  | EvLookup (domain : string)
  | EvCancel (f : CancelFunc).

Inductive outcome (A : Type) :=
  | Returned (a : A)
  | Panicked (msg : string).
Arguments Returned {A} a.
Arguments Panicked {A} msg.

(** A method body: from the world before to how it ended, the world after
    and the events in order. *)
Definition M (A : Type) : Type := World → outcome A * World * list event.

Definition ret {A} (a : A) : M A := λ w, (Returned a, w, []).

Definition bind {A B} (m : M A) (k : A → M B) : M B := λ w,
  match m w with
  | (Returned a, w1, t1) =>
      match k a w1 with (r, w2, t2) => (r, w2, t1 ++ t2) end
  | (Panicked msg, w1, t1) => (Panicked msg, w1, t1)
  end.

Global Instance M_ret : MRet M := @ret.
Global Instance M_bind : MBind M := λ A B k m, bind m k.

Definition panic {A} (msg : string) : M A := λ w, (Panicked msg, w, []).
Definition emit (e : event) : M unit := λ w, (Returned tt, w, [e]).
Definition get_client : M Client := λ w, (Returned (client w), w, []).
Definition put_client (c : Client) : M unit := λ w,
  (Returned tt, mkWorld c (chans w), []).
Definition get_chans : M (list Chan) := λ w, (Returned (chans w), w, []).
Definition put_chans (cs : list Chan) : M unit := λ w,
  (Returned tt, mkWorld (client w) cs, []).

(** [defer d] at the head of [body]: [d] runs when [body] returns and when
    it panics; a panic of [body] goes on after [d]. *)
Definition deferring {A} (d : M unit) (body : M A) : M A := λ w,
  match body w with
  | (r, w1, t1) =>
      match d w1 with
      | (Returned _, w2, t2) => (r, w2, t1 ++ t2)
      | (Panicked msg, w2, t2) => (Panicked msg, w2, t1 ++ t2)
      end
  end.

Definition Lock : M unit := emit EvLock.
Definition Unlock : M unit := emit EvUnlock.

(** [c.m.Lock(); defer c.m.Unlock(); body]. *)
Definition locked {A} (body : M A) : M A := Lock ;; deferring Unlock body.

Definition result {A} (x : outcome A * World * list event) : outcome A := x.1.1.
Definition world_of {A} (x : outcome A * World * list event) : World := x.1.2.
Definition trace {A} (x : outcome A * World * list event) : list event := x.2.

(** ** float64, as far as [Duration.Seconds] and [math.Ceil] use it *)

Module GoFloat64.

Definition prec : Z := 53.
Definition emax : Z := 1024.

Definition float64 := spec_float.

(** The conversion [float64(n)] of an integer, rounding to nearest even. *)
Definition of_int (n : Z) : float64 := binary_normalize prec emax n 0 false.

Definition add : float64 → float64 → float64 := SFadd prec emax.
Definition div : float64 → float64 → float64 := SFdiv prec emax.

(** [math.Ceil]: the least integral value not below [x]; zeros, infinities
    and NaN are returned as they are, and so is a finite number whose
    exponent is not negative, an integer already.  A negative number above
    -1 gives -0. *)
Definition Ceil (x : float64) : float64 :=
  match x with
  | S754_finite s m e =>
      if 0 <=? e then x
      else
        let whole := Z.pos m / 2 ^ (- e) in
        let up := if s then whole
                  else if Z.pos m mod 2 ^ (- e) =? 0 then whole else whole + 1 in
        if up =? 0 then S754_zero s else binary_normalize prec emax (cond_Zopp s up) 0 s
  | _ => x
  end.

(** The conversion [int(x)] to the 64-bit [int]: the fraction is discarded;
    a value that does not fit (NaN and the infinities too) gives what the
    amd64 instruction gives, the least [int64]. *)
Definition to_int (x : float64) : Z :=
  match x with
  | S754_zero _ => 0
  | S754_finite s m e =>
      let magnitude := if 0 <=? e then Z.pos m * 2 ^ e else Z.pos m / 2 ^ (- e) in
      let n := cond_Zopp s magnitude in
      if (- 2 ^ 63 <=? n) && (n <? 2 ^ 63) then n else - 2 ^ 63
  | _ => - 2 ^ 63
  end.

End GoFloat64.

(** ** time.Duration and the arithmetic of time.Time *)

Module GoTime.

(** A [Duration] is an [int64] count of nanoseconds. *)
Definition Duration := Z.
Definition minDuration : Duration := - 2 ^ 63.
Definition maxDuration : Duration := 2 ^ 63 - 1.
Definition Second : Duration := 1000000000.
Definition Minute : Duration := 60 * Second.

(** [t.Add(d)]. *)
Definition Time_Add (t : Time) (d : Duration) : Time := t + d.

(** [t.Sub(u)]: the difference, or the nearest end of the [Duration] range
    when the difference does not fit. *)
Definition Time_Sub (t u : Time) : Duration :=
  if t - u <? minDuration then minDuration
  else if maxDuration <? t - u then maxDuration
  else t - u.

(** [time.Since(t)], the clock reading [now]. *)
Definition Since (now t : Time) : Duration := Time_Sub now t.

(** [d.Seconds()]: [sec := d / Second; nsec := d % Second;
    float64(sec) + float64(nsec)/1e9], the integer division truncating
    towards zero. *)
Definition Seconds (d : Duration) : GoFloat64.float64 :=
  let sec := Z.quot d Second in
  let nsec := Z.rem d Second in
  GoFloat64.add (GoFloat64.of_int sec)
    (GoFloat64.div (GoFloat64.of_int nsec) (GoFloat64.of_int 1000000000)).

End GoTime.

Import GoTime.

(** [RawClient.After]: the argument it hands to [Recent]. *)
Definition After_seconds (now after : Time) : Z :=
  GoFloat64.to_int (GoFloat64.Ceil (Seconds (Since now after))).

(** ** client.go: queries *)

(** [Check]: the map read under the lock. *)
Definition Check (domain : string) : M bool :=
  locked (c ← get_client;
          emit (EvLookup domain) ;;
          mret (bool_decide (domain ∈ members c))).

(** [generateVariants]: the loop [for i := 0; i < len(parts)-1; i++], with
    [parts[i:]] as [drop i parts]; [fuel] bounds the iterations. *)
Fixpoint generateVariants_loop (fuel : nat) (parts : list string) (i : Z)
    (variants : list string) : list string :=
  match fuel with
  | O => variants
  | S fuel' =>
      if i <? Z.of_nat (length parts) - 1
      then generateVariants_loop fuel' parts (i + 1)
             (variants ++ [Join (drop (Z.to_nat i) parts) "."])
      else variants
  end.

Definition generateVariants (domain : string) : list string :=
  let parts := Split domain "." in
  generateVariants_loop (length parts) parts 0 [].

(** [FuzzyCheck]: [Check] on each variant in turn, returning at the first
    hit. *)
Fixpoint FuzzyCheck_range (variants : list string) : M bool :=
  match variants with
  | [] => mret false
  | part :: rest =>
      found ← Check part;
      if found : bool then mret true else FuzzyCheck_range rest
  end.

Definition FuzzyCheck (domain : string) : M bool :=
  FuzzyCheck_range (generateVariants domain).

(** The variant sequence as the specification words it: for [i] from 0 to
    [n-2], the join of [p[i:]]. *)
Definition variants_spec (domain : string) : list string :=
  let p := Split domain "." in
  (λ i, Join (drop i p) ".") <$> seq 0 (length p - 1)%nat.

(** The domains [Check] was called on, read off the events. *)
Definition lookups (t : list event) : list string :=
  omap (λ e, match e with EvLookup d => Some d | _ => None end) t.

(** The variants tried up to and including the first member of [s]. *)
Fixpoint upto_first_member (s : gset string) (vs : list string) : list string :=
  match vs with
  | [] => []
  | v :: rest => if bool_decide (v ∈ s) then [v] else v :: upto_first_member s rest
  end.

(** ** client.go: the notification channel *)

Definition set_domains (d : option (gset string)) (c : Client) : Client :=
  mkClient d (lastUpdated c) (streaming c) (cancelFunc c) (updateChan c).
Definition set_lastUpdated (t : Time) (c : Client) : Client :=
  mkClient (domains c) t (streaming c) (cancelFunc c) (updateChan c).
Definition set_streaming (b : bool) (c : Client) : Client :=
  mkClient (domains c) (lastUpdated c) b (cancelFunc c) (updateChan c).
Definition set_cancelFunc (f : option CancelFunc) (c : Client) : Client :=
  mkClient (domains c) (lastUpdated c) (streaming c) f (updateChan c).
Definition set_updateChan (p : option nat) (c : Client) : Client :=
  mkClient (domains c) (lastUpdated c) (streaming c) (cancelFunc c) p.

Definition modify_client (f : Client → Client) : M unit :=
  c ← get_client; put_client (f c).

(** [make(chan struct{}, n)]: a fresh open channel; its address is its
    position in the store. *)
Definition make_chan (n : nat) : M nat := λ w,
  (Returned (length (chans w)),
   mkWorld (client w) (chans w ++ [mkChan n 0 false]), []).

(** [close(ch)]; closing a closed channel panics. *)
Definition close_chan (p : nat) : M unit :=
  cs ← get_chans;
  match cs !! p with
  | None => panic "invalid memory address or nil pointer dereference"
  | Some ch =>
      if chan_closed ch then panic "close of closed channel"
      else put_chans (<[p := mkChan (chan_cap ch) (chan_len ch) true]> cs)
  end.

(** [select { case ch <- struct{}{}: default: }]: the send goes through
    when the buffer has room, the default case is taken when it is full; on
    a closed channel the send panics. *)
Definition send_or_skip (p : nat) : M unit :=
  cs ← get_chans;
  match cs !! p with
  | None => panic "invalid memory address or nil pointer dereference"
  | Some ch =>
      if chan_closed ch then panic "send on closed channel"
      else if (chan_len ch <? chan_cap ch)%nat
           then put_chans (<[p := mkChan (chan_cap ch) (S (chan_len ch)) false]> cs)
           else mret tt
  end.

(** [UpdateChannel]. *)
Definition UpdateChannel : M nat :=
  c ← get_client;
  match updateChan c with
  | Some old => close_chan old
  | None => mret tt
  end ;;
  p ← make_chan 2;
  modify_client (set_updateChan (Some p)) ;;
  mret p.

(** [sendUpdate]. *)
Definition sendUpdate : M unit :=
  c ← get_client;
  match updateChan c with
  | None => mret tt
  | Some p => send_or_skip p
  end.

(** ** client.go: merging and the synchronisation paths *)

(** One iteration of the loop of [applyMod]: a write to a nil map panics,
    [delete] on a nil map does nothing. *)
Definition applyMod_domain (add : bool) (domain : string) : M unit :=
  c ← get_client;
  if add then
    match domains c with
    | None => panic "assignment to entry in nil map"
    | Some s => put_client (set_domains (Some ({[domain]} ∪ s)) c)
    end
  else put_client (set_domains ((λ s, s ∖ {[domain]}) <$> domains c) c).

Fixpoint applyMod_range (add : bool) (ds : list string) : M unit :=
  match ds with
  | [] => mret tt
  | domain :: rest => applyMod_domain add domain ;; applyMod_range add rest
  end.

Definition applyMod (upd : DomainUpdate) : M unit :=
  applyMod_range (Add upd) (Domains upd).

Fixpoint applyMods (mods : list DomainUpdate) : M unit :=
  match mods with
  | [] => mret tt
  | upd :: rest => applyMod upd ;; applyMods rest
  end.

(** The map built by [for _, d := range ds { dMap[d] = empty{} }]. *)
Definition dMap_of (ds : list string) : gset string :=
  foldl (λ dMap d, {[d]} ∪ dMap) ∅ ds.

(** [FullSync]; [all] is what [c.r.All()] returns, [now] the clock. *)
Definition FullSync (all : list string * option error) (now : Time) : M (option error) :=
  emit (EvTransport CallAll) ;;
  match all.2 with
  | Some err => mret (Some err)
  | None =>
      locked (modify_client (set_lastUpdated now) ;;
              modify_client (set_domains (Some (dMap_of all.1))) ;;
              sendUpdate ;;
              mret None)
  end.

(** [Update]; [now1] is the clock when [After] measures the window,
    [recent] what [c.r.Recent] returns for a window, [now2] the clock
    after the answer. *)
Definition Update (now1 : Time) (recent : Z → list DomainUpdate * option error)
    (now2 : Time) : M (option error) :=
  locked (c ← get_client;
          let seconds := After_seconds now1 (Time_Add (lastUpdated c) (- (Minute * 1))) in
          emit (EvTransport (CallRecent seconds)) ;;
          match (recent seconds).2 with
          | Some err => mret (Some err)
          | None =>
              modify_client (set_lastUpdated now2) ;;
              applyMods (recent seconds).1 ;;
              (if (0 <? length (recent seconds).1)%nat then sendUpdate else mret tt) ;;
              mret None
          end).

(** [applyLiveUpdates]. *)
Definition applyLiveUpdates (upd : DomainUpdate) (now : Time) : M unit :=
  locked (modify_client (set_lastUpdated now) ;;
          applyMod upd ;;
          sendUpdate).

Definition errAlreadyListening : error := "already listening for updates".

(** The closure [checkStreaming]; [cancel] is what [context.WithCancel]
    returns. *)
Definition checkStreaming (cancel : CancelFunc) : M (option error) :=
  locked (c ← get_client;
          if streaming c then mret (Some errAlreadyListening)
          else modify_client (set_streaming true) ;;
               modify_client (set_cancelFunc (Some cancel)) ;;
               mret None).

(** The deferred closure of [listenForUpdates]. *)
Definition endStreaming : M unit :=
  locked (modify_client (set_streaming false) ;;
          c ← get_client;
          match cancelFunc c with
          | Some f => emit (EvCancel f)
          | None => mret tt
          end ;;
          modify_client (set_cancelFunc None)).

(** [listenForUpdates]; [feed] is the call [c.r.Feed(ctx, modChan)]: its
    result, and what happens to the client while it lasts. *)
Definition listenForUpdates (cancel : CancelFunc) (feed : M (option error)) :
    M (option error) :=
  checkStreaming cancel ≫= λ err : option error,
  match err with
  | Some e => mret (Some e)
  | None => deferring endStreaming (emit (EvTransport CallFeed) ;; feed)
  end.

(** ** Channels with elements *)

(** A channel with elements: [None] is the nil channel, on which a send and
    a receive wait for ever; otherwise the buffer, its capacity and whether
    the channel was closed. *)
Record buffered (A : Type) := mkBuffered {
  pending : list A;
  room : nat;
  shut : bool
}.
Arguments mkBuffered {A} pending room shut.
Arguments pending {A} b.
Arguments room {A} b.
Arguments shut {A} b.

Definition gochan (A : Type) : Type := option (buffered A).

(** [ch <- v] in a goroutine of its own: the channel after the send, or
    [None] while the send has to wait. *)
Definition chan_send {A} (ch : gochan A) (v : A) : option (gochan A) :=
  match ch with
  | None => None
  | Some b =>
      if (length (pending b) <? room b)%nat
      then Some (Some (mkBuffered (pending b ++ [v]) (room b) (shut b)))
      else None
  end.

(** [v, ok := <-ch] as a case of a [select]: the element received ([None]
    for [ok = false], on a closed and empty channel) and the channel after,
    or [None] while the case is not ready. *)
Definition chan_recv {A} (ch : gochan A) : option (option A * gochan A) :=
  match ch with
  | None => None
  | Some b =>
      match pending b with
      | v :: rest => Some (Some v, Some (mkBuffered rest (room b) (shut b)))
      | [] => if shut b then Some (None, ch) else None
      end
  end.

Definition chan_close {A} (ch : gochan A) : gochan A :=
  (λ b, mkBuffered (pending b) (room b) true) <$> ch.

(** How a run along a schedule stands when the schedule is used up: the
    function has returned, it is still waiting, or the schedule holds a
    step that cannot happen in the state reached. *)
Inductive ended :=
  | Exited (err : option error)
  | Waiting
  | Impossible.

(** ** client.go: [ListenForUpdates] and its goroutine *)

(** Where the call of [ListenForUpdates] stands: inside [Feed], or back from
    [listenForUpdates] with its result. *)
Inductive listener :=
  | ListenerInFeed
  | ListenerReturned (err : option error).

(** [modChan], the call, and whether the goroutine that applies the records
    is still running. *)
Record relaying := mkRelaying {
  relayed : gochan DomainUpdate;
  listening : listener;
  applying : bool
}.

(** What happens next in a session: [FeedSends] is the [modFeed <- mod] of
    [Feed] going through, [FeedReturns] the return of [Feed] followed by the
    deferred closure of [listenForUpdates], the deferred [close(modChan)] and
    the return of [ListenForUpdates]; [Applies] is the goroutine taking a
    record out of [modChan] and calling [applyLiveUpdates], [SeesClosed] the
    goroutine receiving [ok = false] and returning, [SeesDone] the goroutine
    taking the case [<-ctx.Done()] and returning.  The [ctx] of the
    goroutine is the one given to [ListenForUpdates], which [cancelFunc] does
    not cancel. *)
Inductive relay_step :=
  | FeedSends (upd : DomainUpdate)
  | FeedReturns (err : option error)
  | Applies (now : Time)
  | SeesClosed
  | SeesDone.

(** The session along a schedule, from the call of [Feed] on.  The schedule
    may go on after [ListenForUpdates] has returned, with the moves the
    goroutine still makes; used up, the run stands at [Exited] with what
    [ListenForUpdates] returned, or at [Waiting] while [Feed] lasts.  A panic
    of the goroutine ends the program. *)
Fixpoint ListenForUpdates_loop (schedule : list relay_step) (st : relaying) : M ended :=
  match schedule with
  | [] =>
      mret (match listening st with
            | ListenerInFeed => Waiting
            | ListenerReturned err => Exited err
            end)
  | FeedSends upd :: rest =>
      match listening st, chan_send (relayed st) upd with
      | ListenerInFeed, Some ch =>
          ListenForUpdates_loop rest (mkRelaying ch (listening st) (applying st))
      | _, _ => mret Impossible
      end
  | FeedReturns err :: rest =>
      match listening st with
      | ListenerInFeed =>
          endStreaming ;;
          ListenForUpdates_loop rest
            (mkRelaying (chan_close (relayed st)) (ListenerReturned err) (applying st))
      | ListenerReturned _ => mret Impossible
      end
  | Applies now :: rest =>
      match applying st, chan_recv (relayed st) with
      | true, Some (Some upd, ch) =>
          applyLiveUpdates upd now ;;
          ListenForUpdates_loop rest (mkRelaying ch (listening st) true)
      | _, _ => mret Impossible
      end
  | SeesClosed :: rest =>
      match applying st, chan_recv (relayed st) with
      | true, Some (None, _) =>
          ListenForUpdates_loop rest (mkRelaying (relayed st) (listening st) false)
      | _, _ => mret Impossible
      end
  | SeesDone :: rest =>
      if applying st
      then ListenForUpdates_loop rest (mkRelaying (relayed st) (listening st) false)
      else mret Impossible
  end.

(** [ListenForUpdates]: [modChan] is made with room for eight, the goroutine
    is started, and [listenForUpdates] runs as above.  Until [Feed] is
    called [modChan] is empty and open, and all the goroutine can do is
    leave on [ctx.Done()], which nothing else depends on: the schedule
    starts at the call of [Feed].  When [checkStreaming] refuses, [Feed] is
    not called, [modChan] is closed empty and the goroutine leaves without
    having applied anything. *)
Definition ListenForUpdates (cancel : CancelFunc) (schedule : list relay_step) : M ended :=
  let modChan : gochan DomainUpdate := Some (mkBuffered [] 8 false) in
  checkStreaming cancel ≫= λ err : option error,
  match err with
  | Some e => mret (Exited (Some e))
  | None =>
      emit (EvTransport CallFeed) ;;
      ListenForUpdates_loop schedule (mkRelaying modChan ListenerInFeed true)
  end.

(** ** client.go and helper.go: the snapshot *)

Section Snapshot.

(** [encoding/json] on the type [save]: [json.Marshal(sf)] and
    [json.Unmarshal(data, &sf)] on a zero [sf]. *)
Variable json_Marshal : save → string * option error.
Variable json_Unmarshal : string → save * option error.

(** [MarshalJSON]; [visit] is the order in which [range c.domains] yields
    the keys. *)
Definition MarshalJSON (visit : list string) : M (string * option error) :=
  locked (c ← get_client;
          let sf := mkSave (lastUpdated c) (foldl (λ ds d, ds ++ [d]) [] visit) in
          mret (json_Marshal sf)).

(** [UnmarshalJSON]; it takes no lock. *)
Definition UnmarshalJSON (data : string) : M (option error) :=
  let sf := (json_Unmarshal data).1 in
  match (json_Unmarshal data).2 with
  | Some err => mret (Some err)
  | None =>
      modify_client (set_lastUpdated (LastUpdated sf)) ;;
      modify_client (set_domains (Some (dMap_of (SaveDomains sf)))) ;;
      mret None
  end.

(** A method call on another [Client] value: the receiver is swapped in for
    the call and the client of the world is put back after it. *)
Definition on_client {A} (data : Client) (m : M A) : M (A * Client) := λ w,
  match m (mkWorld data (chans w)) with
  | (Returned a, w1, t) => (Returned (a, client w1), mkWorld (client w) (chans w1), t)
  | (Panicked msg, w1, t) => (Panicked msg, mkWorld (client w) (chans w1), t)
  end.

(** The zero value of [Client]. *)
Definition zeroClient : Client := mkClient None 0 false None None.

(** [ReadCacheFrom]; [read] is what [ioutil.ReadAll(r)] returns. *)
Definition ReadCacheFrom (read : string * option error) : M (option error) :=
  match read.2 with
  | Some err => mret (Some err)
  | None =>
      on_client zeroClient (UnmarshalJSON read.1) ≫= λ r : option error * Client,
      match r.1 with
      | Some err => mret (Some err)
      | None =>
          locked (modify_client (set_lastUpdated (lastUpdated r.2)) ;;
                  modify_client (set_domains (domains r.2)) ;;
                  mret None)
      end
  end.

End Snapshot.

(** ** helper.go: AutoSync *)

(** Where the goroutine that [AutoSync] starts for the live feed stands. *)
Inductive feeder :=
  | FeederOff
  | FeederStarting
  | FeederInFeed
  | FeederSending (err : option error)
  | FeederDone.

(** The locals of [AutoSync] that the loop and the goroutine share. *)
Record session := mkSession {
  stream : gochan (option error);
  modChan : gochan DomainUpdate;
  feed : feeder
}.

(** What happens next, as the scheduler and the outside world decide: a
    move of the goroutine, or the case that the [select] of the loop
    takes. *)
Inductive step :=
  | GoListen (cancel : CancelFunc)
  | GoRecord (upd : DomainUpdate)
  | GoFeedEnds (err : option error)
  | GoSend
  | SelectMod (now : Time)
  | SelectRecent (now1 : Time) (recent : Z → list DomainUpdate * option error) (now2 : Time)
  | SelectFull (all : list string * option error) (now : Time)
  | SelectStream
  | SelectDone.

(** The loop of [AutoSync] and the goroutine, along a schedule.  [GoListen]
    is the goroutine entering [listenForUpdates] up to the call of [Feed],
    [GoRecord] the [modFeed <- mod] of [Feed], [GoFeedEnds] the return of
    [Feed] with the deferred closure, [GoSend] the [stream <- ...] going
    through, followed by [close(stream)].  The schedule used up, the loop
    waits in its [select]; a step that cannot happen in the state reached
    ends the run as [Impossible].  A call that the loop makes ([Update],
    [FullSync], [applyLiveUpdates]) is one step: what the goroutine does
    while it lasts touches other fields of the client, and is a move of the
    schedule just before or just after it. *)
Fixpoint AutoSync_loop (schedule : list step) (st : session) : M ended :=
  match schedule with
  | [] => mret Waiting
  | GoListen cancel :: rest =>
      match feed st with
      | FeederStarting =>
          checkStreaming cancel ≫= λ err : option error,
          match err with
          | Some e =>
              AutoSync_loop rest (mkSession (stream st) (modChan st) (FeederSending (Some e)))
          | None =>
              emit (EvTransport CallFeed) ;;
              AutoSync_loop rest (mkSession (stream st) (modChan st) FeederInFeed)
          end
      | _ => mret Impossible
      end
  | GoRecord upd :: rest =>
      match feed st, chan_send (modChan st) upd with
      | FeederInFeed, Some ch => AutoSync_loop rest (mkSession (stream st) ch (feed st))
      | _, _ => mret Impossible
      end
  | GoFeedEnds err :: rest =>
      match feed st with
      | FeederInFeed =>
          endStreaming ;;
          AutoSync_loop rest (mkSession (stream st) (modChan st) (FeederSending err))
      | _ => mret Impossible
      end
  | GoSend :: rest =>
      match feed st with
      | FeederSending err =>
          match chan_send (stream st) err with
          | Some ch => AutoSync_loop rest (mkSession (chan_close ch) (modChan st) FeederDone)
          | None => mret Impossible
          end
      | _ => mret Impossible
      end
  | SelectMod now :: rest =>
      match chan_recv (modChan st) with
      | Some (Some upd, ch) =>
          applyLiveUpdates upd now ;;
          AutoSync_loop rest (mkSession (stream st) ch (feed st))
      | Some (None, _) => mret (Exited None)
      | None => mret Impossible
      end
  | SelectRecent now1 recent now2 :: rest =>
      Update now1 recent now2 ≫= λ err : option error,
      match err with
      | Some e => mret (Exited (Some e))
      | None => AutoSync_loop rest st
      end
  | SelectFull all now :: rest =>
      FullSync all now ≫= λ err : option error,
      match err with
      | Some e => mret (Exited (Some e))
      | None => AutoSync_loop rest st
      end
  | SelectStream :: rest =>
      match chan_recv (stream st) with
      | Some (Some (Some e), _) => mret (Exited (Some e))
      | Some (_, ch) => AutoSync_loop rest (mkSession ch (modChan st) (feed st))
      | None => mret Impossible
      end
  | SelectDone :: _ => mret (Exited None)
  end.

(** The goroutine alone, along its own moves: what it does while the
    function that started it is busy elsewhere.  A step of the loop is not
    one of its moves. *)
Fixpoint feeder_moves (moves : list step) (st : session) : M (option session) :=
  match moves with
  | [] => mret (Some st)
  | GoListen cancel :: rest =>
      match feed st with
      | FeederStarting =>
          checkStreaming cancel ≫= λ err : option error,
          match err with
          | Some e =>
              feeder_moves rest (mkSession (stream st) (modChan st) (FeederSending (Some e)))
          | None =>
              emit (EvTransport CallFeed) ;;
              feeder_moves rest (mkSession (stream st) (modChan st) FeederInFeed)
          end
      | _ => mret None
      end
  | GoRecord upd :: rest =>
      match feed st, chan_send (modChan st) upd with
      | FeederInFeed, Some ch => feeder_moves rest (mkSession (stream st) ch (feed st))
      | _, _ => mret None
      end
  | GoFeedEnds err :: rest =>
      match feed st with
      | FeederInFeed =>
          endStreaming ;;
          feeder_moves rest (mkSession (stream st) (modChan st) (FeederSending err))
      | _ => mret None
      end
  | GoSend :: rest =>
      match feed st with
      | FeederSending err =>
          match chan_send (stream st) err with
          | Some ch => feeder_moves rest (mkSession (chan_close ch) (modChan st) FeederDone)
          | None => mret None
          end
      | _ => mret None
      end
  | _ :: _ => mret None
  end.

(** The run goes on from the session that the moves of the goroutine leave,
    and is [Impossible] when one of them cannot happen. *)
Definition after_moves (moves : list step) (st : session) (k : session → M ended) : M ended :=
  feeder_moves moves st ≫= λ st' : option session,
  match st' with
  | Some st' => k st'
  | None => mret Impossible
  end.

Definition is_move (s : step) : bool :=
  match s with
  | GoListen _ | GoRecord _ | GoFeedEnds _ | GoSend => true
  | _ => false
  end.

(** The moves of the goroutine that a schedule starts with. *)
Fixpoint leading_moves (schedule : list step) : list step :=
  match schedule with
  | s :: rest => if is_move s then s :: leading_moves rest else []
  | [] => []
  end.

(** [FullSync] from the return of [c.r.All()] on. *)
Definition FullSync_answer (all : list string * option error) (now : Time) :
    M (option error) :=
  match all.2 with
  | Some err => mret (Some err)
  | None =>
      locked (modify_client (set_lastUpdated now) ;;
              modify_client (set_domains (Some (dMap_of all.1))) ;;
              sendUpdate ;;
              mret None)
  end.

(** [AutoSync]: [var stream chan error] stays nil, [modChan] is made with
    room for two, and the goroutine is started when [realtime] is set,
    before the first [FullSync]: [before] are its moves until [FullSync]
    calls [c.r.All()], [during] its moves until the answer is there, and
    [schedule] is what happens from the return of [FullSync] on.  After the
    first [FullSync] each ticker is made only for a positive interval, and
    the [select] reads [recentTicker.C] and [fullSyncTicker.C], which
    dereferences a nil pointer when a ticker was not made: the goroutine
    makes the moves the schedule starts with, and [AutoSync] panics. *)
Definition AutoSync (realtime : bool) (recentInterval fullSyncInterval : Duration)
    (before : list step) (all : list string * option error) (during : list step)
    (now : Time) (schedule : list step) : M ended :=
  let stream : gochan (option error) := None in
  let modChan : gochan DomainUpdate := Some (mkBuffered [] 2 false) in
  let feed := if realtime then FeederStarting else FeederOff in
  after_moves before (mkSession stream modChan feed) (λ st1,
  emit (EvTransport CallAll) ;;
  after_moves during st1 (λ st2,
  FullSync_answer all now ≫= λ errSync : option error,
  match errSync with
  | Some e => mret (Exited (Some e))
  | None =>
      let recentTicker := 0 <? recentInterval in
      let fullSyncTicker := 0 <? fullSyncInterval in
      if recentTicker && fullSyncTicker
      then AutoSync_loop schedule st2
      else after_moves (leading_moves schedule) st2 (λ _,
           panic "invalid memory address or nil pointer dereference")
  end)).

(** The errors that [FullSync] and [Update] can hand to [AutoSync] along a
    schedule. *)
Definition sync_error (e : error) (s : step) : Prop :=
  match s with
  | SelectRecent _ recent _ => ∃ seconds, (recent seconds).2 = Some e
  | SelectFull all _ => all.2 = Some e
  | _ => False
  end.

(** ** Sequences of operations on one client *)

Section Operations.

Variable json_Unmarshal : string → save * option error.

(** The calls that write [lastUpdated], each with what its collaborators
    answer. *)
Inductive operation :=
  | OpFullSync (all : list string * option error) (now : Time)
  | OpUpdate (now1 : Time) (recent : Z → list DomainUpdate * option error) (now2 : Time)
  | OpLiveUpdate (upd : DomainUpdate) (now : Time)
  | OpUnmarshalJSON (data : string)
  | OpReadCacheFrom (read : string * option error).

Definition perform (op : operation) (w : World) : World :=
  match op with
  | OpFullSync all now => world_of (FullSync all now w)
  | OpUpdate now1 recent now2 => world_of (Update now1 recent now2 w)
  | OpLiveUpdate upd now => world_of (applyLiveUpdates upd now w)
  | OpUnmarshalJSON data => world_of (UnmarshalJSON json_Unmarshal data w)
  | OpReadCacheFrom read => world_of (ReadCacheFrom json_Unmarshal read w)
  end.

(** [lastUpdated] after each operation of a sequence. *)
Fixpoint timeline (ops : list operation) (w : World) : list Time :=
  match ops with
  | [] => []
  | op :: rest => lastUpdated (client (perform op w)) :: timeline rest (perform op w)
  end.

(** The three synchronisation paths, as opposed to the loads. *)
Definition is_sync (op : operation) : bool :=
  match op with
  | OpFullSync _ _ | OpUpdate _ _ _ | OpLiveUpdate _ _ => true
  | OpUnmarshalJSON _ | OpReadCacheFrom _ => false
  end.

(** The clock readings an operation takes, in order. *)
Definition readings (op : operation) : list Time :=
  match op with
  | OpFullSync _ now => [now]
  | OpUpdate now1 _ now2 => [now1; now2]
  | OpLiveUpdate _ now => [now]
  | OpUnmarshalJSON _ | OpReadCacheFrom _ => []
  end.

End Operations.

(** ** Strings that [encoding/json] gives back as they are *)

(** [utf8.ValidString]: the well-formed UTF-8 sequences, by the range of
    the bytes that follow each first byte. *)
Definition continuation (c : ascii) : bool :=
  (128 <=? N_of_ascii c)%N && (N_of_ascii c <=? 191)%N.

Definition second_of_three (lead : N) (c : ascii) : bool :=
  let b := N_of_ascii c in
  if (lead =? 224)%N then (160 <=? b)%N && (b <=? 191)%N
  else if (lead =? 237)%N then (128 <=? b)%N && (b <=? 159)%N
  else (128 <=? b)%N && (b <=? 191)%N.

Definition second_of_four (lead : N) (c : ascii) : bool :=
  let b := N_of_ascii c in
  if (lead =? 240)%N then (144 <=? b)%N && (b <=? 191)%N
  else if (lead =? 244)%N then (128 <=? b)%N && (b <=? 143)%N
  else (128 <=? b)%N && (b <=? 191)%N.

Fixpoint utf8_valid (s : string) : bool :=
  match s with
  | EmptyString => true
  | String c0 rest =>
      let lead := N_of_ascii c0 in
      if (lead <? 128)%N then utf8_valid rest
      else if (194 <=? lead)%N && (lead <=? 223)%N then
        match rest with
        | String c1 rest1 => continuation c1 && utf8_valid rest1
        | _ => false
        end
      else if (224 <=? lead)%N && (lead <=? 239)%N then
        match rest with
        | String c1 (String c2 rest2) =>
            second_of_three lead c1 && continuation c2 && utf8_valid rest2
        | _ => false
        end
      else if (240 <=? lead)%N && (lead <=? 244)%N then
        match rest with
        | String c1 (String c2 (String c3 rest3)) =>
            second_of_four lead c1 && continuation c2 && continuation c3
            && utf8_valid rest3
        | _ => false
        end
      else false
  end.

(** ** One snapshot and its JSON text *)

Module Example.

(** 2001-09-09T01:46:40Z, a billion seconds after 1970; the year 1970
    starts 62135596800 seconds after the zero [Time]. *)
Definition saved_at : Time := (62135596800 + 1000000000) * Second.

Definition snapshot : save := mkSave saved_at ["bad.example"; "worse.example"].

Definition quote : string := String (ascii_of_nat 34) EmptyString.

Definition quoted (s : string) : string := quote +:+ s +:+ quote.

Definition text : string :=
  "{" +:+ quoted "last_updated" +:+ ":" +:+ quoted "2001-09-09T01:46:40Z" +:+ ","
  +:+ quoted "domains" +:+ ":[" +:+ quoted "bad.example" +:+ ","
  +:+ quoted "worse.example" +:+ "]}".

#[global] Instance save_eq_dec : EqDecision save.
Proof. solve_decision. Defined.

(** What [encoding/json] answers on this snapshot and on this text; for
    another value or text the table has no answer and reports an error. *)
Definition json_Marshal (sf : save) : string * option error :=
  if decide (sf = snapshot) then (text, None)
  else (EmptyString, Some "json: not in the table").

Definition json_Unmarshal (data : string) : save * option error :=
  if decide (data = text) then (snapshot, None)
  else (mkSave 0 [], Some "json: not in the table").

(** The clock of an afternoon in 2025. *)
Definition in_2025 : Time := (62135596800 + 1750000000) * Second.

End Example.

(** ** Predicates of the statements *)

(** The notification channel can take a send: there is none, or the one
    there is has not been closed. *)
Definition notifier_ok (w : World) : bool :=
  match updateChan (client w) with
  | None => true
  | Some p =>
      match chans w !! p with
      | Some ch => negb (chan_closed ch)
      | None => false
      end
  end.

(** Every transport call of a trace happens while the mutex is free;
    [held] tells whether it is taken at the start. *)
Fixpoint transport_outside_lock (held : bool) (t : list event) : bool :=
  match t with
  | [] => true
  | EvLock :: t' => transport_outside_lock true t'
  | EvUnlock :: t' => transport_outside_lock false t'
  | EvTransport _ :: t' => negb held && transport_outside_lock held t'
  | _ :: t' => transport_outside_lock held t'
  end.

(** One batch, as a set operation, and the batches of an answer in the order
    received. *)
Definition merge_batch (s : gset string) (upd : DomainUpdate) : gset string :=
  if Add upd then list_to_set (Domains upd) ∪ s else s ∖ list_to_set (Domains upd).

Definition merge_batches (s : gset string) (mods : list DomainUpdate) : gset string :=
  foldl merge_batch s mods.

(** What a computation leaves alone: a projection of the world that is the
    same after it, however it ends. *)
Definition preserves {A X} (f : World → X) (m : M A) : Prop :=
  ∀ w, f (world_of (m w)) = f w.

Definition silent {A} (m : M A) : Prop := ∀ w, trace (m w) = [].

(** The world in which [FullSync] notifies. *)
Definition synced (ds : list string) (now : Time) (w : World) : World :=
  mkWorld (set_domains (Some (dMap_of ds)) (set_lastUpdated now (client w))) (chans w).

(** The world in which [Update] notifies: the clock reading and the merged
    set in place. *)
Definition merged (s : gset string) (now : Time) (w : World) : World :=
  mkWorld (set_domains (Some s) (set_lastUpdated now (client w))) (chans w).

(** The window [Update] asks for: [After] of [lastUpdated] minus a minute. *)
Definition Update_window (now : Time) (w : World) : Z :=
  After_seconds now (Time_Add (lastUpdated (client w)) (- (Minute * 1))).

(** ** Predicates of the float64 lemmas *)

Import GoFloat64.

Definition billion : Z := 1000000000.

(** [a * 2^g ≤ x ≤ b * 2^g] for a float that is zero or positive and whose
    last place is not above [2^g]. *)
Definition in_range (g a b : Z) (x : float64) : Prop :=
  match x with
  | S754_zero false => a ≤ 0
  | S754_finite false m e => e ≤ g ∧ a * 2 ^ (g - e) ≤ Z.pos m ≤ b * 2 ^ (g - e)
  | _ => False
  end.

(** What the record holds after [n] of the bits of [m] have been shifted
    out: the remaining mantissa, whether the part shifted out reaches one
    half of the last place, and whether it is neither nothing nor one
    half. *)
Definition shifted (n m : Z) (mrs : shr_record) : Prop :=
  shr_m mrs = m / 2 ^ n
  ∧ (shr_r mrs = true ↔ 2 ^ n ≤ 2 * (m mod 2 ^ n))
  ∧ (shr_s mrs = true ↔ m mod 2 ^ n ≠ 0 ∧ 2 * (m mod 2 ^ n) ≠ 2 ^ n).

(** ** Running method bodies *)

Ltac unfold_M :=
  unfold locked, deferring, modify_client, Lock, Unlock, emit, get_client,
    put_client, get_chans, put_chans, panic,
    mbind, M_bind, bind, mret, M_ret, ret in *.

(** * More of the code *)

(** ** client.go: the listing queries *)

(** [Domains]; [visit] is the order in which [range c.domains] yields the
    keys. *)
Definition Client_Domains (visit : list string) : M (list string) :=
  locked (mret (foldl (λ domains domain, domains ++ [domain]) [] visit)).

(** [Size]: [len(c.domains)], which is 0 for a nil map. *)
Definition Size : M Z :=
  locked (c ← get_client; mret (Z.of_nat (size (members c)))).

(** A name that follows a dot of [domain], or [domain] itself. *)
Definition dot_suffix (v domain : string) : Prop :=
  v = domain ∨ ∃ pre, domain = pre +:+ "." +:+ v.

(** ** client.go: [Close] *)

(** [Close]: the cancellation function of a running session is called, the
    map is dropped, and the notification channel is closed; [close] of a nil
    channel panics. *)
Definition Close : M (option error) :=
  locked (c ← get_client;
          match cancelFunc c with
          | Some f => emit (EvCancel f)
          | None => mret tt
          end ;;
          modify_client (set_domains None) ;;
          match updateChan c with
          | Some p => close_chan p
          | None => panic "close of nil channel"
          end ;;
          modify_client (set_updateChan None) ;;
          mret None).

(** What [Close] tells the running session, if there is one. *)
Definition cancellation (c : Client) : list event :=
  match cancelFunc c with
  | Some f => [EvCancel f]
  | None => []
  end.

(** A batch that writes to the map: one that adds at least one domain. *)
Definition writes (upd : DomainUpdate) : bool :=
  Add upd && negb (bool_decide (Domains upd = [])).

(** ** Notifications, counted *)

(** The channel a notification goes to, if the client has one. *)
Definition subscriber (w : World) : option Chan :=
  updateChan (client w) ≫= λ p, chans w !! p.

(** A channel after one non-blocking send. *)
Definition notify_chan (ch : Chan) : Chan :=
  if (chan_len ch <? chan_cap ch)%nat
  then mkChan (chan_cap ch) (S (chan_len ch)) (chan_closed ch)
  else ch.

(** The world after [sendUpdate]. *)
Definition notify (w : World) : World := world_of (sendUpdate w).

(** The world at the time [Feed] is called: the session is registered. *)
Definition in_session (cancel : CancelFunc) (w : World) : World :=
  mkWorld (set_cancelFunc (Some cancel) (set_streaming true (client w))) (chans w).

(** ** helper.go: writing the snapshot *)

(** An [io.Writer] whose state is an [St].  [Write] and [Seek] return the
    count, the error and the state after; [Seek] is there when the dynamic
    type is an [io.Seeker] as well. *)
Record Writer (St : Type) := mkWriter {
  Write : string → St → (Z * option error) * St;
  Seek : option (Z → Z → St → (Z * option error) * St)
}.
Arguments mkWriter {St} Write Seek.
Arguments Write {St} w b s.
Arguments Seek {St} w.

Module GoFile.

(** [old] with [new] written over its first bytes. *)
Fixpoint overwrite (old new : string) : string :=
  match new with
  | EmptyString => old
  | String c new' =>
      String c (overwrite (match old with
                           | EmptyString => EmptyString
                           | String _ old' => old'
                           end) new')
  end.

(** [old] with [new] written over it from offset [off] on; the gap between
    the end of a shorter [old] and [off] reads as zero bytes. *)
Fixpoint write_at (off : nat) (old new : string) : string :=
  match off with
  | O => overwrite old new
  | S off' =>
      match old with
      | EmptyString => String zero (write_at off' EmptyString new)
      | String c old' => String c (write_at off' old' new)
      end
  end.

(** [s] without its first [n] bytes. *)
Fixpoint skip (n : nat) (s : string) : string :=
  match n, s with
  | S n', String _ s' => skip n' s'
  | _, _ => s
  end.

(** An [*os.File] on a regular file, opened for writing without [O_APPEND]:
    the bytes of the file and the offset of the next write. *)
Record File := mkFile {
  contents : string;
  offset : nat
}.

(** [Write(b)]: the bytes go to the offset, which moves behind them; a
    write of no bytes leaves the file as it is. *)
Definition File_Write (b : string) (f : File) : (Z * option error) * File :=
  match b with
  | EmptyString => ((0, None), f)
  | _ =>
      ((Z.of_nat (String.length b), None),
       mkFile (write_at (offset f) (contents f) b) (offset f + String.length b))
  end.

(** [Seek(off, whence)]: from the start (0), from the offset (1) or from the
    end (2); a position before the start is refused. *)
Definition File_Seek (off whence : Z) (f : File) : (Z * option error) * File :=
  let base :=
    if whence =? 0 then Some 0
    else if whence =? 1 then Some (Z.of_nat (offset f))
    else if whence =? 2 then Some (Z.of_nat (String.length (contents f)))
    else None in
  match base with
  | Some b =>
      if b + off <? 0 then ((0, Some "invalid argument"), f)
      else ((b + off, None), mkFile (contents f) (Z.to_nat (b + off)))
  | None => ((0, Some "invalid argument"), f)
  end.

Definition file : Writer File := mkWriter File_Write (Some File_Seek).

(** A [*bytes.Buffer]: every [Write] appends, and there is no [Seek]. *)
Definition buffer : Writer string :=
  mkWriter (λ b s, ((Z.of_nat (String.length b), None), s +:+ b)) None.

End GoFile.

Section Persistence.

Variable json_Marshal : save → string * option error.
Context {St : Type}.

(** [WriteCacheInto], from the call of [MarshalJSON] on. *)
Definition write_snapshot (dst : Writer St) (visit : list string) (s : St) :
    M (option error * St) :=
  MarshalJSON json_Marshal visit ≫= λ b : string * option error,
  match b.2 with
  | Some err => mret (Some err, s)
  | None => mret ((Write dst b.1 s).1.2, (Write dst b.1 s).2)
  end.

(** [WriteCacheInto]; [visit] is the order in which [MarshalJSON] ranges
    over the map. *)
Definition WriteCacheInto (dst : Writer St) (visit : list string) (s : St) :
    M (option error * St) :=
  match Seek dst with
  | Some seek =>
      match (seek 0 0 s).1.2 with
      | Some err => mret (Some err, (seek 0 0 s).2)
      | None => write_snapshot dst visit (seek 0 0 s).2
      end
  | None => write_snapshot dst visit s
  end.

(** [_, ok := <-ch] on the notification channel as a case of a [select]:
    [Some true] with a notification taken out of the buffer, [Some false] on
    a closed and empty channel, [None] while the case is not ready. *)
Definition recv_notification (p : nat) : M (option bool) :=
  cs ← get_chans;
  match cs !! p with
  | None => mret None
  | Some ch =>
      if (0 <? chan_len ch)%nat
      then put_chans (<[p := mkChan (chan_cap ch) (pred (chan_len ch)) (chan_closed ch)]> cs) ;;
           mret (Some true)
      else mret (if chan_closed ch then Some false else None)
  end.

(** What happens next to [SaveOnChange]: a call that another goroutine
    makes on the client, the receive case of the [select] ([visit] for the
    [MarshalJSON] that follows), or the case of [ctx.Done()]. *)
Inductive save_step :=
  | SaveMeanwhile (m : M unit)
  | SaveReceive (visit : list string)
  | SaveDone.

(** The loop of [SaveOnChange] along a schedule; [ch] is the channel that
    [UpdateChannel] returned. *)
Fixpoint SaveOnChange_loop (dst : Writer St) (ch : nat) (schedule : list save_step)
    (s : St) : M (ended * St) :=
  match schedule with
  | [] => mret (Waiting, s)
  | SaveMeanwhile m :: rest => m ;; SaveOnChange_loop dst ch rest s
  | SaveReceive visit :: rest =>
      recv_notification ch ≫= λ ok : option bool,
      match ok with
      | None => mret (Impossible, s)
      | Some false => mret (Exited None, s)
      | Some true =>
          WriteCacheInto dst visit s ≫= λ r : option error * St,
          match r.1 with
          | Some err => mret (Exited (Some err), r.2)
          | None => SaveOnChange_loop dst ch rest r.2
          end
      end
  | SaveDone :: _ => mret (Exited None, s)
  end.

Definition SaveOnChange (dst : Writer St) (schedule : list save_step) (s : St) :
    M (ended * St) :=
  ch ← UpdateChannel;
  SaveOnChange_loop dst ch schedule s.

(** The state of the writer when [MarshalJSON] is called, and the error
    that ends [WriteCacheInto] before that. *)
Definition rewound (dst : Writer St) (s : St) : St :=
  match Seek dst with
  | Some seek => (seek 0 0 s).2
  | None => s
  end.

Definition rewind_error (dst : Writer St) (s : St) : option error :=
  match Seek dst with
  | Some seek => (seek 0 0 s).1.2
  | None => None
  end.

End Persistence.

(** The channels after [UpdateChannel] has closed the one in use. *)
Definition retired (w : World) : list Chan :=
  match updateChan (client w) with
  | Some old =>
      match chans w !! old with
      | Some ch => <[old := mkChan (chan_cap ch) (chan_len ch) true]> (chans w)
      | None => chans w
      end
  | None => chans w
  end.

(** The world in which [SaveOnChange] enters its loop. *)
Definition subscribed (w : World) : World :=
  mkWorld (set_updateChan (Some (length (chans w))) (client w))
    (retired w ++ [mkChan 2 0 false]).

(** ** strconv and fmt, as far as the package uses them *)

Module GoStrconv.

(** [strconv.Itoa], and the verb [%d] of [fmt]: the decimal digits, after a
    minus sign for a negative number. *)
Definition Itoa (i : Z) : string := pretty i.

Definition digit (c : ascii) : option Z :=
  let n := N_of_ascii c in
  if (48 <=? n)%N && (n <=? 57)%N then Some (Z.of_N n - 48) else None.

Inductive parsed :=
  | Value (n : Z)
  | Syntax
  | Range.

(** The loop of [strconv.ParseUint] in base 10 on 64 bits: it stops at the
    first byte that is not a digit, and at the first digit with which the
    number no longer fits. *)
Fixpoint ParseUint_loop (s : string) (n : Z) : parsed :=
  match s with
  | EmptyString => Value n
  | String c rest =>
      match digit c with
      | None => Syntax
      | Some d =>
          if 2 ^ 64 - 1 <? n * 10 + d then Range
          else ParseUint_loop rest (n * 10 + d)
      end
  end.

Section Atoi.

(** The message of the [*strconv.NumError] of [Atoi] for an input and a
    cause. *)
Variable NumError : string → string → error.

(** [strconv.Atoi] on a 64-bit platform: an optional sign and at least one
    digit; a number that does not fit is reported with the nearest [int]. *)
Definition Atoi (s : string) : Z * option error :=
  let neg := match s with String "-" _ => true | _ => false end in
  let body :=
    match s with
    | String c rest => if Ascii.eqb c "+" || Ascii.eqb c "-" then rest else s
    | EmptyString => s
    end in
  match body with
  | EmptyString => (0, Some (NumError s "invalid syntax"))
  | _ =>
      match ParseUint_loop body 0 with
      | Syntax => (0, Some (NumError s "invalid syntax"))
      | Range =>
          (if neg then - 2 ^ 63 else 2 ^ 63 - 1, Some (NumError s "value out of range"))
      | Value un =>
          if negb neg && (2 ^ 63 <=? un)
          then (2 ^ 63 - 1, Some (NumError s "value out of range"))
          else if neg && (2 ^ 63 <? un)
               then (- 2 ^ 63, Some (NumError s "value out of range"))
               else (if neg then - un else un, None)
      end
  end.

End Atoi.

End GoStrconv.

Module GoFmt.

Definition dquote : string := String (ascii_of_nat 34) EmptyString.

(** A string between double quotes, as the format ["%s"] (with the quotes
    written in the format) prints it. *)
Definition quoted (s : string) : string := dquote +:+ s +:+ dquote.

End GoFmt.

(** ** types.go: the errors *)

(** [unexpectedStatusError], by its message. *)
Definition unexpectedStatusError (endpoint : string) (status : Z) : error :=
  "unexpected status code: recieved " +:+ GoFmt.quoted (GoStrconv.Itoa status)
  +:+ " on " +:+ GoFmt.quoted endpoint.

(** One entry of [validationError.Detail]. *)
Record detail := mkDetail {
  Loc : list string;
  Msg : string;
  Type_ : string
}.

(** The inner loop of [validationError.Error]: [for i2, l := range d.Loc]. *)
Fixpoint Error_locations (i2 : nat) (locs : list string) (msg : string) : string :=
  match locs with
  | [] => msg
  | l :: rest =>
      let msg := if (1 <=? i2)%nat then msg +:+ "," else msg in
      Error_locations (S i2) rest (msg +:+ " " +:+ GoFmt.quoted l)
  end.

(** The outer loop: [for i, d := range err.Detail]. *)
Fixpoint Error_details (i : nat) (details : list detail) (msg : string) : string :=
  match details with
  | [] => msg
  | d :: rest =>
      let msg := if (0 <? i)%nat then msg +:+ ", " else msg in
      let msg := msg +:+ "Type " +:+ GoFmt.quoted (Type_ d) +:+ " Message "
                     +:+ GoFmt.quoted (Msg d) +:+ " Locations:" in
      Error_details (S i) rest (Error_locations 0 (Loc d) msg)
  end.

(** [validationError.Error]. *)
Definition validationError_Error (Detail : list detail) : string :=
  let msg := "validation error" in
  let msg := if (0 <? length Detail)%nat then msg +:+ ": " else msg in
  Error_details 0 Detail msg.

(** The message, in one piece: the details separated by [", "], the
    locations of each by [","]. *)
Definition detail_text (d : detail) : string :=
  "Type " +:+ GoFmt.quoted (Type_ d) +:+ " Message " +:+ GoFmt.quoted (Msg d)
  +:+ " Locations:" +:+ Join ((λ l, " " +:+ GoFmt.quoted l) <$> Loc d) ",".

(** ** endpoints.go *)

Definition endpointFeed : string := "/feed".
Definition endpointCheck : string := "/v2/check/".
Definition endpointAll : string := "/v2/all/".
Definition endpointRecent : string := "/v2/recent/".
Definition endpointSize : string := "/v2/dbsize/".

(** ** helper.go and options.go: the [RawClient] *)

Module Raw.

(** An [http.Header]: the values filed under each key. *)
Definition Header := gmap string (list string).

(** What [webClient.Do] answers: the status and what reading the body to
    its end gives. *)
Record Response := mkResponse {
  StatusCode : Z;
  Body : string * option error
}.

(** The fields of [RawClient] but [webClient], whose answers are arguments
    below; a nil [header] is [None]. *)
Record RawClient := mkRawClient {
  domain : string;
  identity : string;
  header : option Header;
  feedTimeout : Duration
}.

Definition set_header (h : option Header) (c : RawClient) : RawClient :=
  mkRawClient (domain c) (identity c) h (feedTimeout c).
Definition set_feedTimeout (d : Duration) (c : RawClient) : RawClient :=
  mkRawClient (domain c) (identity c) (header c) d.

(** An [Option]: a function that works on the client under construction, and
    may panic. *)
Definition Option := RawClient → outcome RawClient.

Section Transport.

(** [textproto.CanonicalMIMEHeaderKey]: the spelling under which a header
    files a key. *)
Variable CanonicalMIMEHeaderKey : string → string.

Definition Header_Set (key value : string) (h : Header) : Header :=
  <[CanonicalMIMEHeaderKey key := [value]]> h.

Definition Header_Del (key : string) (h : Header) : Header :=
  delete (CanonicalMIMEHeaderKey key) h.

Definition Header_Get (key : string) (h : Header) : string :=
  match h !! CanonicalMIMEHeaderKey key with
  | Some (v :: _) => v
  | _ => EmptyString
  end.

(** [fixHeaders]: a clone of the header, or a new one for a nil header, with
    ["X-Identity"] set. *)
Definition fixHeaders (header : option Header) (identity : string) : Header :=
  let h := match header with
           | Some header => header
           | None => ∅
           end in
  Header_Set "X-Identity" identity h.

Definition WithHeaders (header : option Header) : Option := λ client,
  Returned (set_header (Some (fixHeaders header (identity client))) client).

(** [client.header.Set(key, value)]: an assignment to a nil map panics. *)
Definition WithHeader (key value : string) : Option := λ client,
  match Raw.header client with
  | Some h => Returned (set_header (Some (Header_Set key value h)) client)
  | None => Panicked "assignment to entry in nil map"
  end.

(** [client.header.Del(header)]: deleting from a nil map does nothing. *)
Definition WithoutHeader (header : string) : Option := λ client,
  Returned (set_header (Header_Del header <$> Raw.header client) client).

Definition WithFeedTimeout (duration : Duration) : Option := λ client,
  Returned (set_feedTimeout duration client).

(** [for _, option := range options { option(&client) }]. *)
Fixpoint apply_options (options : list Option) (client : RawClient) : outcome RawClient :=
  match options with
  | [] => Returned client
  | option :: rest =>
      match option client with
      | Returned client => apply_options rest client
      | Panicked msg => Panicked msg
      end
  end.

Definition userAgent : string :=
  "sinkingyachts/0.1 (https://github.com/Thunder33345/sinkingyachts)".

(** [NewRawClient]. *)
Definition NewRawClient (domain identity : string) (options : list Option) :
    outcome RawClient :=
  let h := Header_Set "User-Agent" userAgent ∅ in
  let client := mkRawClient domain identity (Some h) (Second * 5) in
  match apply_options options client with
  | Returned client =>
      Returned (set_header (Some (fixHeaders (Raw.header client) (Raw.identity client))) client)
  | Panicked msg => Panicked msg
  end.

(** The options that the package provides. *)
Inductive provided : Option → Prop :=
  | provided_WithHeaders header : provided (WithHeaders header)
  | provided_WithHeader key value : provided (WithHeader key value)
  | provided_WithoutHeader header : provided (WithoutHeader header)
  | provided_WithFeedTimeout duration : provided (WithFeedTimeout duration).

(** [http.NewRequest] for a GET of a URL: the error, if it refuses the
    URL. *)
Variable NewRequest : string → option error.

(** [webClient.Do] on the request for a URL with a header. *)
Variable Do : string → option Header → Response + error.

(** [encoding/json] decoding the body as a list of strings and as a list of
    [DomainUpdate]. *)
Variable Decode_domains : string * option error → list string * option error.
Variable Decode_mods : string * option error → list DomainUpdate * option error.

Variable NumError : string → string → error.

Definition doReq (c : RawClient) (endpoint : string) : Response + error :=
  match NewRequest (domain c +:+ endpoint) with
  | Some err => inr err
  | None => Do (domain c +:+ endpoint) (Raw.header c)
  end.

(** [RawClient.Check]. *)
Definition Check (c : RawClient) (domain : string) : bool * option error :=
  match doReq c (endpointCheck +:+ domain) with
  | inr err => (false, Some err)
  | inl resp =>
      if StatusCode resp =? 200 then
        match (Body resp).2 with
        | Some err => (false, Some err)
        | None => if String.eqb (Body resp).1 "true" then (true, None) else (false, None)
        end
      else (false, Some (unexpectedStatusError (Raw.domain c +:+ endpointCheck)
                           (StatusCode resp)))
  end.

(** [RawClient.All]. *)
Definition All (c : RawClient) : list string * option error :=
  match doReq c endpointAll with
  | inr err => ([], Some err)
  | inl resp =>
      if negb (StatusCode resp =? 200)
      then ([], Some (unexpectedStatusError (Raw.domain c +:+ endpointAll) (StatusCode resp)))
      else Decode_domains (Body resp)
  end.

(** [RawClient.Recent]. *)
Definition Recent (c : RawClient) (seconds : Z) : list DomainUpdate * option error :=
  match doReq c (endpointRecent +:+ GoStrconv.Itoa seconds) with
  | inr err => ([], Some err)
  | inl resp =>
      if negb (StatusCode resp =? 200)
      then ([], Some (unexpectedStatusError (Raw.domain c +:+ endpointRecent)
                        (StatusCode resp)))
      else Decode_mods (Body resp)
  end.

(** [RawClient.After]; [now] is the clock that [time.Since] reads. *)
Definition After (c : RawClient) (now after : Time) : list DomainUpdate * option error :=
  Recent c (After_seconds now after).

(** [RawClient.Size]. *)
Definition Size (c : RawClient) : Z * option error :=
  match doReq c endpointSize with
  | inr err => (0, Some err)
  | inl resp =>
      if negb (StatusCode resp =? 200)
      then (0, Some (unexpectedStatusError (Raw.domain c +:+ endpointAll) (StatusCode resp)))
      else
        match (Body resp).2 with
        | Some err => (0, Some err)
        | None => GoStrconv.Atoi NumError (Body resp).1
        end
  end.

End Transport.

End Raw.

(** ** Predicates of the further statements *)

(** The records that [Feed] hands over along a schedule, the clock readings
    of the records that the goroutine applies, and what [Feed] returns. *)
Definition sent (schedule : list relay_step) : list DomainUpdate :=
  omap (λ s, match s with FeedSends upd => Some upd | _ => None end) schedule.

Definition applied_at (schedule : list relay_step) : list Time :=
  omap (λ s, match s with Applies now => Some now | _ => None end) schedule.

Definition returned (schedule : list relay_step) : option (option error) :=
  last (omap (λ s, match s with FeedReturns err => Some err | _ => None end) schedule).

(** How a run stands when [Feed] has returned [r], or not yet. *)
Definition standing (r : option (option error)) : ended :=
  match r with
  | Some err => Exited err
  | None => Waiting
  end.

(** A computation after which the client is marked as streaming whenever it
    was before, or whenever [Feed] has been called on the way. *)
Definition keeps_session {A} (m : M A) : Prop :=
  ∀ w, streaming (client w) = true ∨ EvTransport CallFeed ∈ trace (m w) →
       streaming (client (world_of (m w))) = true.

(** What the goroutine of [AutoSync] never touches. *)
Definition cache (w : World) : option (gset string) * Time * option nat * list Chan :=
  (domains (client w), lastUpdated (client w), updateChan (client w), chans w).

(** A schedule along which the feed does not end. *)
Definition feed_goes_on (s : step) : bool :=
  match s with
  | GoFeedEnds _ => false
  | _ => true
  end.

(** What the records of an answer say about a domain in the end: the last
    record that names it decides, and [None] when none does. *)
Definition verdict (mods : list DomainUpdate) (d : string) : option bool :=
  foldl (λ v upd, if bool_decide (d ∈ Domains upd) then Some (Add upd) else v) None mods.

(** The number of dots in a name. *)
Fixpoint dots (s : string) : nat :=
  match s with
  | EmptyString => 0
  | String c rest => if Ascii.eqb c "." then S (dots rest) else dots rest
  end.

(** * Properties *)

(** ** float64: rounding between bounds, and the seconds of a duration *)

Lemma digits2_pos_bounds (p : positive) :
  2 ^ (Z.pos (digits2_pos p) - 1) ≤ Z.pos p < 2 ^ Z.pos (digits2_pos p).
Proof.
  induction p as [p IH|p IH|]; simpl digits2_pos.
  - rewrite Pos2Z.inj_succ, Z.pow_succ_r by lia.
    replace (Z.succ (Z.pos (digits2_pos p)) - 1) with (Z.succ (Z.pos (digits2_pos p) - 1)) by lia.
    rewrite Z.pow_succ_r by lia. lia.
  - rewrite Pos2Z.inj_succ, Z.pow_succ_r by lia.
    replace (Z.succ (Z.pos (digits2_pos p)) - 1) with (Z.succ (Z.pos (digits2_pos p) - 1)) by lia.
    rewrite Z.pow_succ_r by lia. lia.
  - simpl. lia.
Qed.

(** A positive integer below [2 ^ n] has at most [n] binary digits. *)
Lemma digits2_pos_le (p : positive) (n : Z) :
  Z.pos p < 2 ^ n → Z.pos (digits2_pos p) ≤ n.
Proof.
  intros Hlt. destruct (Z.le_gt_cases (Z.pos (digits2_pos p)) n) as [|Hgt]; [done|].
  pose proof (digits2_pos_bounds p) as [Hlow _].
  assert (0 ≤ n) by (destruct n; [lia|lia|by rewrite Z.pow_neg_r in Hlt by lia]).
  assert (2 ^ n ≤ 2 ^ (Z.pos (digits2_pos p) - 1)) by (apply Z.pow_le_mono_r; lia).
  lia.
Qed.

Lemma Zdigits2_le (m n : Z) : 0 ≤ m < 2 ^ n → 0 ≤ n → Zdigits2 m ≤ n.
Proof.
  intros [Hm Hlt] Hn. destruct m as [|p|p]; simpl; [lia| |lia].
  by apply digits2_pos_le.
Qed.

Lemma shr_1_m mrs : 0 ≤ shr_m mrs → shr_m (shr_1 mrs) = shr_m mrs / 2.
Proof.
  destruct mrs as [m r s]. cbn [shr_m]. intros Hm.
  destruct m as [|[p|p|]|p]; cbn [shr_1 shr_m];
    [reflexivity | apply (Z.div_unique _ _ _ 1); lia
    | apply (Z.div_unique _ _ _ 0); lia | reflexivity | lia ..].
Qed.

Lemma iter_shr_1_m (n : positive) mrs :
  0 ≤ shr_m mrs → shr_m (iter_pos shr_1 n mrs) = shr_m mrs / 2 ^ Z.pos n.
Proof.
  revert mrs. induction n as [n IH|n IH|]; intros mrs Hm; simpl iter_pos.
  - assert (0 ≤ shr_m (shr_1 mrs)) by (rewrite shr_1_m by done; apply Z.div_pos; lia).
    assert (0 ≤ shr_m (iter_pos shr_1 n (shr_1 mrs)))
      by (rewrite IH by done; apply Z.div_pos; lia).
    rewrite IH, IH, shr_1_m by done.
    rewrite !Z.div_div by lia. f_equal.
    replace (Z.pos n~1) with (1 + Z.pos n + Z.pos n) by lia.
    rewrite !Z.pow_add_r by lia. lia.
  - assert (0 ≤ shr_m (iter_pos shr_1 n mrs))
      by (rewrite IH by done; apply Z.div_pos; lia).
    rewrite IH, IH by done.
    rewrite !Z.div_div by lia. f_equal.
    replace (Z.pos n~0) with (Z.pos n + Z.pos n) by lia.
    rewrite !Z.pow_add_r by lia. lia.
  - rewrite shr_1_m by done. done.
Qed.

(** [shr_fexp] on a mantissa that is not negative: the exponent goes up to
    the canonical one when that is higher, and the mantissa loses the bits
    in between. *)
Lemma shr_fexp_m (m e : Z) (l : location) :
  0 ≤ m →
  let k := Z.max 0 (fexp prec emax (Zdigits2 m + e) - e) in
  shr_m (shr_fexp prec emax m e l).1 = m / 2 ^ k
  ∧ (shr_fexp prec emax m e l).2 = e + k.
Proof.
  intros Hm k. unfold shr_fexp, shr. subst k.
  assert (shr_m (shr_record_of_loc m l) = m) as Hrec
    by (by destruct l as [|[]]).
  destruct (fexp prec emax (Zdigits2 m + e) - e) as [|n|n] eqn:Hk; simpl.
  - rewrite Hrec, Z.div_1_r. split; [done|lia].
  - rewrite iter_shr_1_m by lia. rewrite Hrec. split; [done|lia].
  - rewrite Hrec, Z.div_1_r. split; [done|lia].
Qed.

Lemma round_nearest_even_bounds m l :
  m ≤ round_nearest_even m l ≤ m + 1.
Proof. destruct l as [|[]]; simpl; try lia. destruct (Z.even m); lia. Qed.

Lemma fexp_le (x g : Z) : x ≤ g + 53 → -1074 ≤ g → fexp prec emax x ≤ g.
Proof. unfold fexp, emin, prec, emax. lia. Qed.

Lemma pow2_split (u v : Z) : 0 ≤ u → 0 ≤ v → 2 ^ (u + v) = 2 ^ u * 2 ^ v.
Proof. intros. by apply Z.pow_add_r. Qed.

(** The exponent [shr_fexp] ends on stays at or below [g] when the value is
    below [2^(g+53)]. *)
Lemma shr_fexp_exponent (m e g : Z) :
  0 ≤ m → e ≤ g → -1074 ≤ g → m < 2 ^ (53 + g - e) →
  e + Z.max 0 (fexp prec emax (Zdigits2 m + e) - e) ≤ g.
Proof.
  intros Hm He Hg Hlt.
  assert (Zdigits2 m ≤ 53 + g - e) by (apply Zdigits2_le; lia).
  assert (fexp prec emax (Zdigits2 m + e) ≤ g) by (apply fexp_le; lia).
  lia.
Qed.

(** Rounding stays between two bounds that are multiples of the last place:
    a value with [a * 2^g ≤ mx * 2^ex] and [(mx + 1) * 2^ex ≤ b * 2^g],
    whatever lies beyond its last bit, rounds into [a * 2^g .. b * 2^g]. *)
Lemma binary_round_aux_in_range (mx ex : Z) (lx : location) (g a b : Z) :
  0 ≤ mx → ex ≤ g → -1074 ≤ g ≤ 971 → 0 ≤ a → b < 2 ^ 53 →
  a * 2 ^ (g - ex) ≤ mx → mx + 1 ≤ b * 2 ^ (g - ex) →
  in_range g a b (binary_round_aux prec emax false mx ex lx).
Proof.
  intros Hmx Hex Hg Ha Hb Hlow Hhigh.
  unfold binary_round_aux.
  pose proof (shr_fexp_m mx ex lx Hmx) as [Hm1 He1].
  destruct (shr_fexp prec emax mx ex lx) as [mrs1 e1]. simpl in Hm1, He1.
  set (k1 := Z.max 0 (fexp prec emax (Zdigits2 mx + ex) - ex)) in *.
  assert (0 < 2 ^ (g - ex)) by (apply Z.pow_pos_nonneg; lia).
  assert (mx < 2 ^ (53 + g - ex)) as Hmx_lt.
  { replace (53 + g - ex) with (53 + (g - ex)) by lia.
    rewrite pow2_split by lia. nia. }
  assert (e1 ≤ g) as He1g by (subst e1 k1; apply shr_fexp_exponent; lia).
  assert (0 ≤ k1) by (subst k1; lia).
  assert (2 ^ (g - ex) = 2 ^ (g - e1) * 2 ^ k1) as Hsplit1.
  { rewrite <- pow2_split by lia. f_equal. lia. }
  assert (0 < 2 ^ k1) by (apply Z.pow_pos_nonneg; lia).
  assert (0 < 2 ^ (g - e1)) by (apply Z.pow_pos_nonneg; lia).
  assert (a * 2 ^ (g - e1) ≤ shr_m mrs1) as Hlow1.
  { rewrite Hm1. apply Z.div_le_lower_bound; [lia|]. rewrite Hsplit1 in Hlow. lia. }
  assert (shr_m mrs1 + 1 ≤ b * 2 ^ (g - e1)) as Hhigh1.
  { rewrite Hm1. rewrite Hsplit1 in Hhigh.
    assert (mx / 2 ^ k1 < b * 2 ^ (g - e1)); [|lia].
    apply Z.div_lt_upper_bound; lia. }
  pose proof (round_nearest_even_bounds (shr_m mrs1) (loc_of_shr_record mrs1)) as Hround.
  set (m1r := round_nearest_even (shr_m mrs1) (loc_of_shr_record mrs1)) in *.
  assert (0 ≤ m1r) as Hm1r by nia.
  pose proof (shr_fexp_m m1r e1 loc_Exact Hm1r) as [Hm2 He2].
  destruct (shr_fexp prec emax m1r e1 loc_Exact) as [mrs2 e2]. simpl in Hm2, He2.
  set (k2 := Z.max 0 (fexp prec emax (Zdigits2 m1r + e1) - e1)) in *.
  assert (m1r < 2 ^ (53 + g - e1)) as Hm1r_lt.
  { replace (53 + g - e1) with (53 + (g - e1)) by lia.
    rewrite pow2_split by lia. nia. }
  assert (e2 ≤ g) as He2g by (subst e2 k2; apply shr_fexp_exponent; lia).
  assert (0 ≤ k2) by (subst k2; lia).
  assert (2 ^ (g - e1) = 2 ^ (g - e2) * 2 ^ k2) as Hsplit2.
  { rewrite <- pow2_split by lia. f_equal. lia. }
  assert (0 < 2 ^ k2) by (apply Z.pow_pos_nonneg; lia).
  assert (0 < 2 ^ (g - e2)) by (apply Z.pow_pos_nonneg; lia).
  assert (a * 2 ^ (g - e2) ≤ shr_m mrs2) as Hlow2.
  { rewrite Hm2. apply Z.div_le_lower_bound; [lia|]. rewrite Hsplit2 in Hlow1. lia. }
  assert (shr_m mrs2 ≤ b * 2 ^ (g - e2)) as Hhigh2.
  { rewrite Hm2. apply Z.div_le_upper_bound; [lia|]. rewrite Hsplit2 in Hhigh1. lia. }
  destruct (shr_m mrs2) as [|m2|m2] eqn:Hshr2.
  - simpl. nia.
  - unfold emax, prec. destruct (Z.leb_spec e2 (1024 - 53)); [|lia].
    simpl. done.
  - assert (0 ≤ m1r / 2 ^ k2) by (apply Z.div_pos; lia). lia.
Qed.

Lemma Pos_iter_xO_value (p d : positive) :
  Z.pos (Pos.iter xO p d) = Z.pos p * 2 ^ Z.pos d.
Proof.
  induction d as [|d IH] using Pos.peano_ind.
  - simpl. lia.
  - rewrite Pos.iter_succ, Pos2Z.inj_xO, IH, Pos2Z.inj_succ, Z.pow_succ_r by lia. lia.
Qed.

Lemma Pos_iter_xO_digits (p d : positive) :
  Z.pos (digits2_pos (Pos.iter xO p d)) = Z.pos (digits2_pos p) + Z.pos d.
Proof.
  induction d as [|d IH] using Pos.peano_ind.
  - simpl. lia.
  - rewrite Pos.iter_succ. simpl digits2_pos. rewrite Pos2Z.inj_succ, IH. lia.
Qed.

(** [shl_align] keeps the value and does not raise the exponent. *)
Lemma shl_align_spec (m : positive) (e e0 : Z) :
  let r := shl_align m e e0 in
  r.2 = Z.min e e0 ∧ Z.pos r.1 = Z.pos m * 2 ^ (e - r.2).
Proof.
  unfold shl_align. destruct (e0 - e) as [|d|d] eqn:Hd; simpl.
  - split; [lia|]. rewrite Z.sub_diag. simpl. lia.
  - split; [lia|]. rewrite Z.sub_diag. simpl. lia.
  - split; [lia|]. rewrite Pos_iter_xO_value. f_equal. f_equal. lia.
Qed.

Lemma shl_align_digits (m : positive) (e e0 : Z) :
  let r := shl_align m e e0 in
  Z.pos (digits2_pos r.1) + r.2 = Z.pos (digits2_pos m) + e.
Proof.
  unfold shl_align. destruct (e0 - e) as [|d|d] eqn:Hd; simpl; [done|done|].
  rewrite Pos_iter_xO_digits. lia.
Qed.

(** A mantissa at its canonical exponent goes through rounding unchanged. *)
Lemma binary_round_aux_canonical (m : positive) (e : Z) :
  fexp prec emax (Z.pos (digits2_pos m) + e) ≤ e → e ≤ 971 →
  binary_round_aux prec emax false (Z.pos m) e loc_Exact = S754_finite false m e.
Proof.
  intros Hcanon He.
  assert (shr_fexp prec emax (Z.pos m) e loc_Exact =
          ({| shr_m := Z.pos m; shr_r := false; shr_s := false |}, e)) as Hshr.
  { unfold shr_fexp, shr. simpl Zdigits2.
    destruct (fexp prec emax (Z.pos (digits2_pos m) + e) - e) eqn:Hk; [done|lia|done]. }
  unfold binary_round_aux. rewrite Hshr. simpl. rewrite Hshr. simpl.
  unfold emax, prec in *. by destruct (Z.leb_spec e (1024 - 53)); [|lia].
Qed.

(** [float64(n)] is exact below [2^53]: the mantissa is [n] shifted to 53
    digits. *)
Lemma of_int_exact (p : positive) :
  Z.pos p < 2 ^ 53 →
  ∃ m s, 0 ≤ s ∧ Z.pos m = Z.pos p * 2 ^ s
         ∧ of_int (Z.pos p) = S754_finite false m (- s).
Proof.
  intros Hlt. unfold of_int, binary_normalize, binary_round.
  pose proof (digits2_pos_le p 53 Hlt) as Hdigits.
  pose proof (shl_align_spec p 0 (fexp prec emax (Z.pos (digits2_pos p) + 0))) as [He Hm].
  pose proof (shl_align_digits p 0 (fexp prec emax (Z.pos (digits2_pos p) + 0))) as Hd.
  destruct (shl_align p 0 (fexp prec emax (Z.pos (digits2_pos p) + 0))) as [mz ez].
  simpl in He, Hm, Hd.
  assert (ez = Z.pos (digits2_pos p) - 53) as Hez.
  { rewrite He. unfold fexp, emin, prec, emax. lia. }
  exists mz, (- ez). split; [lia|]. split; [by rewrite Hm; f_equal; f_equal; lia|].
  rewrite Z.opp_involutive. apply binary_round_aux_canonical; [|lia].
  rewrite Hd. unfold fexp, emin, prec, emax. lia.
Qed.

Lemma int64_fits (n : Z) :
  - 2 ^ 63 ≤ n < 2 ^ 63 →
  (if (- 2 ^ 63 <=? n) && (n <? 2 ^ 63) then n else - 2 ^ 63) = n.
Proof.
  intros [Hlow Hhigh].
  destruct (Z.leb_spec (- 2 ^ 63) n); [|lia].
  destruct (Z.ltb_spec n (2 ^ 63)); [done|lia].
Qed.

Lemma to_int_finite_pos (m : positive) (e : Z) :
  to_int (S754_finite false m e) =
    let n := if 0 <=? e then Z.pos m * 2 ^ e else Z.pos m / 2 ^ (- e) in
    if (- 2 ^ 63 <=? n) && (n <? 2 ^ 63) then n else - 2 ^ 63.
Proof. reflexivity. Qed.

Lemma to_int_of_int (n : Z) : 0 ≤ n < 2 ^ 53 → to_int (of_int n) = n.
Proof.
  intros [Hn Hlt]. destruct n as [|p|p]; [done| |lia].
  destruct (of_int_exact p Hlt) as (m & s & Hs & Hm & ->).
  rewrite to_int_finite_pos, Hm. cbv zeta.
  assert (0 < 2 ^ s) by (apply Z.pow_pos_nonneg; lia).
  assert (Z.pos p < 2 ^ 63) by (assert (2 ^ 53 < 2 ^ 63) by done; lia).
  destruct (Z.leb_spec 0 (- s)).
  - assert (Z.pos p * 2 ^ s * 2 ^ (- s) = Z.pos p) as ->
      by (replace s with 0 by lia; simpl; lia).
    apply int64_fits. lia.
  - rewrite Z.opp_involutive, Z.div_mul by lia. apply int64_fits. lia.
Qed.

(** [int(math.Ceil(x))] of a float between two consecutive integers. *)
Lemma to_int_Ceil_in_range (x : float64) (lo : Z) :
  0 ≤ lo → lo + 1 < 2 ^ 53 → in_range 0 lo (lo + 1) x →
  lo ≤ to_int (Ceil x) ≤ lo + 1.
Proof.
  intros Hlo Hhi Hx. destruct x as [[]|[]| |[] m e]; simpl in Hx; try done.
  - simpl. lia.
  - destruct Hx as (He & Hlow & Hhigh). rewrite Z.sub_0_l in *.
    assert (2 ^ 53 < 2 ^ 63) by done.
    unfold Ceil. destruct (Z.leb_spec 0 e) as [He0|He0].
    + assert (e = 0) as -> by lia. rewrite to_int_finite_pos. cbv zeta.
      change (- 0) with 0 in *. rewrite Z.pow_0_r in *.
      change (0 <=? 0) with true. cbv iota.
      rewrite int64_fits; lia.
    + assert (0 < 2 ^ (- e)) by (apply Z.pow_pos_nonneg; lia).
      cbv zeta.
      set (whole := Z.pos m / 2 ^ (- e)).
      set (up := if Z.pos m mod 2 ^ (- e) =? 0 then whole else whole + 1).
      pose proof (Z.div_mod (Z.pos m) (2 ^ (- e)) ltac:(lia)) as Hdm.
      pose proof (Z.mod_pos_bound (Z.pos m) (2 ^ (- e)) ltac:(lia)) as Hmod.
      fold whole in Hdm.
      assert (lo ≤ up ≤ lo + 1) as Hup.
      { subst up. destruct (Z.eqb_spec (Z.pos m mod 2 ^ (- e)) 0); nia. }
      destruct (Z.eqb_spec up 0) as [Hz|Hne]; [rewrite Hz in Hup; simpl; lia|].
      change (binary_normalize prec emax (cond_Zopp false up) 0 false) with (of_int up).
      rewrite to_int_of_int by lia. done.
Qed.

Lemma in_range_weaken (g a b g' a' b' : Z) (x : float64) :
  in_range g a b x → g ≤ g' → 0 ≤ a → 0 ≤ b →
  a' * 2 ^ (g' - g) ≤ a → b ≤ b' * 2 ^ (g' - g) →
  in_range g' a' b' x.
Proof.
  intros Hx Hg Ha Hb Hlow Hhigh.
  assert (0 < 2 ^ (g' - g)) by (apply Z.pow_pos_nonneg; lia).
  destruct x as [[]|[]| |[] m e]; simpl in *; try done.
  - nia.
  - destruct Hx as (He & Hl & Hh).
    assert (0 < 2 ^ (g - e)) by (apply Z.pow_pos_nonneg; lia).
    assert (2 ^ (g' - e) = 2 ^ (g' - g) * 2 ^ (g - e)) as ->
      by (rewrite <- pow2_split by lia; f_equal; lia).
    split; [lia|]. split; nia.
Qed.

(** Rounding an integer mantissa, [binary_round], between two bounds. *)
Lemma binary_round_in_range (m : positive) (e g a b : Z) :
  e ≤ g → -1074 ≤ g ≤ 971 → 0 ≤ a → b < 2 ^ 53 →
  a * 2 ^ (g - e) ≤ Z.pos m → Z.pos m + 1 ≤ b * 2 ^ (g - e) →
  in_range g a b (binary_round prec emax false m e).
Proof.
  intros He Hg Ha Hb Hlow Hhigh. unfold binary_round.
  pose proof (shl_align_spec m e (fexp prec emax (Z.pos (digits2_pos m) + e))) as [He' Hm'].
  destruct (shl_align m e (fexp prec emax (Z.pos (digits2_pos m) + e))) as [mz ez].
  simpl in He', Hm'.
  assert (ez ≤ e) by lia.
  assert (0 < 2 ^ (e - ez)) by (apply Z.pow_pos_nonneg; lia).
  assert (0 < 2 ^ (g - e)) by (apply Z.pow_pos_nonneg; lia).
  assert (2 ^ (g - ez) = 2 ^ (g - e) * 2 ^ (e - ez)) as Hsplit
    by (rewrite <- pow2_split by lia; f_equal; lia).
  apply binary_round_aux_in_range; try lia.
  - rewrite Hsplit, Hm'. nia.
  - rewrite Hsplit, Hm'. nia.
Qed.

(** The quotient and exponent that [SFdiv] hands to the rounding. *)
Lemma SFdiv_core_binary_spec (m1 e1 m2 e2 q e' : Z) (l : location) :
  0 < m1 → 0 < m2 →
  SFdiv_core_binary prec emax m1 e1 m2 e2 = (q, e', l) →
  e' = Z.min (fexp prec emax (Zdigits2 m1 + e1 - (Zdigits2 m2 + e2))) (e1 - e2)
  ∧ q = (m1 * 2 ^ (e1 - e2 - e')) / m2.
Proof.
  intros Hm1 Hm2. unfold SFdiv_core_binary.
  set (e0 := Z.min (fexp prec emax (Zdigits2 m1 + e1 - (Zdigits2 m2 + e2))) (e1 - e2)).
  assert (0 ≤ e1 - e2 - e0) as Hs by lia.
  destruct (e1 - e2 - e0) as [|s|s] eqn:Hseq; [| |lia].
  - destruct (Z.div_eucl m1 m2) as [q0 r0] eqn:Hdiv. intros [= <- <- <-].
    split; [done|]. rewrite Hseq, Z.pow_0_r, Z.mul_1_r. unfold Z.div. by rewrite Hdiv.
  - destruct (Z.div_eucl (Z.shiftl m1 (Z.pos s)) m2) as [q0 r0] eqn:Hdiv.
    intros [= <- <- <-]. split; [done|].
    rewrite Hseq, <- Z.shiftl_mul_pow2 by lia. unfold Z.div. by rewrite Hdiv.
Qed.

Lemma of_int_billion : of_int billion = S754_finite false 8388608000000000 (-23).
Proof. reflexivity. Qed.

(** [float64(nsec)/1e9] for a positive [nsec] below a billion lies between
    [(2^23 + 1) * 2^-53] (a little above [2^-30]) and [1 - 2^-53]. *)
Lemma fraction_in_range (nsec : Z) :
  0 < nsec < billion →
  in_range (-53) (2 ^ 23 + 1) (2 ^ 53 - 1) (div (of_int nsec) (of_int billion)).
Proof.
  intros [Hpos Hlt]. destruct nsec as [|p|p]; [lia| |lia].
  assert (Z.pos p < 2 ^ 30) as Hlt30 by (unfold billion in Hlt; lia).
  assert (Z.pos p < 2 ^ 53) as Hlt53 by lia.
  destruct (of_int_exact p Hlt53) as (m & s & Hs & Hm & Hof).
  pose proof (digits2_pos_le p 30 Hlt30) as Hdp.
  assert (Z.pos (digits2_pos m) - s = Z.pos (digits2_pos p)) as Hdm.
  { revert Hof. unfold of_int, binary_normalize, binary_round.
    pose proof (shl_align_digits p 0 (fexp prec emax (Z.pos (digits2_pos p) + 0))) as Hd.
    pose proof (shl_align_spec p 0 (fexp prec emax (Z.pos (digits2_pos p) + 0))) as [He _].
    destruct (shl_align p 0 (fexp prec emax (Z.pos (digits2_pos p) + 0))) as [mz ez].
    simpl in Hd, He.
    rewrite binary_round_aux_canonical.
    - intros [= Hmz Hez]. subst mz. lia.
    - rewrite Hd. unfold fexp, emin, prec, emax in *. lia.
    - unfold fexp, emin, prec, emax in *. lia. }
  rewrite Hof, of_int_billion. unfold div, SFdiv.
  destruct (SFdiv_core_binary prec emax (Z.pos m) (- s) 8388608000000000 (-23))
    as [[q e'] l] eqn:Hcore.
  apply SFdiv_core_binary_spec in Hcore as [He' Hq]; [|lia|lia].
  simpl Zdigits2 in He'. simpl xorb.
  change (Z.pos (digits2_pos 8388608000000000)) with 53 in He'.
  assert (e' ≤ -53) as He'53.
  { rewrite He'. unfold fexp, emin, prec, emax. lia. }
  set (X := 2 ^ (-53 - e')).
  assert (0 < X) by (apply Z.pow_pos_nonneg; lia).
  assert (q = (Z.pos p * 2 ^ 53 * X) / billion) as Hq'.
  { rewrite Hq, Hm.
    assert (0 < 2 ^ s) by (apply Z.pow_pos_nonneg; lia).
    replace (- s - -23 - e') with (23 + 53 + (-53 - e') - s) by lia.
    assert (2 ^ (23 + 53 + (-53 - e') - s) * 2 ^ s = 2 ^ 23 * 2 ^ 53 * X) as Hpow.
    { subst X. rewrite <- !pow2_split by lia. f_equal. lia. }
    replace (Z.pos p * 2 ^ s * 2 ^ (23 + 53 + (-53 - e') - s))
      with ((Z.pos p * 2 ^ 53 * X) * 2 ^ 23) by nia.
    change 8388608000000000 with (billion * 2 ^ 23).
    rewrite Z.div_mul_cancel_r; [done|done|done]. }
  pose proof (Z.div_mod (Z.pos p * 2 ^ 53 * X) billion ltac:(done)) as Hdiv.
  pose proof (Z.mod_pos_bound (Z.pos p * 2 ^ 53 * X) billion ltac:(done)) as Hmod.
  rewrite <- Hq' in Hdiv.
  assert (X ≤ Z.pos p * X) by nia.
  assert (Z.pos p * X ≤ (billion - 1) * X) by nia.
  unfold billion in *. simpl in Hdiv, Hmod.
  apply binary_round_aux_in_range; fold X; lia.
Qed.

(** The sum of two positive floats, rounded, between two bounds. *)
Lemma add_finite_in_range (mx my : positive) (ex ey g a b : Z) :
  let ez := Z.min ex ey in
  let M := Z.pos mx * 2 ^ (ex - ez) + Z.pos my * 2 ^ (ey - ez) in
  ez ≤ g → -1074 ≤ g ≤ 971 → 0 ≤ a → b < 2 ^ 53 →
  a * 2 ^ (g - ez) ≤ M → M + 1 ≤ b * 2 ^ (g - ez) →
  in_range g a b (add (S754_finite false mx ex) (S754_finite false my ey)).
Proof.
  intros ez M Hez Hg Ha Hb Hlow Hhigh. unfold add, SFadd. fold ez.
  pose proof (shl_align_spec mx ex ez) as [Hex Hmx].
  pose proof (shl_align_spec my ey ez) as [Hey Hmy].
  destruct (shl_align mx ex ez) as [mx' ex'], (shl_align my ey ez) as [my' ey'].
  cbn [fst snd] in Hex, Hmx, Hey, Hmy |- *.
  replace ex' with ez in Hmx by lia. replace ey' with ez in Hmy by lia.
  change (binary_normalize prec emax (Z.pos mx' + Z.pos my') ez false)
    with (binary_round prec emax false (mx' + my') ez).
  apply binary_round_in_range; lia.
Qed.

Lemma Seconds_nonneg (d : Duration) :
  0 ≤ d →
  Seconds d = add (of_int (d / Second))
                  (div (of_int (d mod Second)) (of_int billion)).
Proof.
  intros Hd. unfold Seconds.
  rewrite Z.quot_div_nonneg, Z.rem_mod_nonneg by (unfold Second; lia). done.
Qed.

(** [d.Seconds()] of a duration that is not negative lies between the whole
    seconds of [d] and the next integer. *)
Lemma Seconds_in_range (d : Duration) :
  0 ≤ d ≤ maxDuration →
  in_range 0 (d / Second) (d / Second + 1) (Seconds d).
Proof.
  intros [Hd Hmax]. rewrite Seconds_nonneg by done.
  pose proof (Z.mod_pos_bound d Second ltac:(done)) as Hnsec.
  assert (0 ≤ d / Second) as Hsec by (apply Z.div_pos; [done|unfold Second; lia]).
  assert (d / Second < 2 ^ 34) as Hsec34.
  { apply Z.div_lt_upper_bound; [done|]. unfold maxDuration, Second in *. lia. }
  assert (2 ^ 34 < 2 ^ 53) as Hpow by done.
  set (sec := d / Second) in *. set (nsec := d mod Second) in *.
  destruct (Z.eq_dec nsec 0) as [Hzero|Hnz].
  - rewrite Hzero. change (div (of_int 0) (of_int billion)) with (S754_zero false).
    destruct sec as [|p|p]; [simpl; lia| |lia].
    destruct (of_int_exact p ltac:(lia)) as (m & s & Hs & Hm & ->).
    simpl. assert (0 < 2 ^ s) by (apply Z.pow_pos_nonneg; lia).
    replace (0 - - s) with s by lia. rewrite Hm. lia.
  - pose proof (fraction_in_range nsec ltac:(unfold billion, Second in *; lia)) as Hq.
    destruct (div (of_int nsec) (of_int billion)) as [[]|[]| |[] mq eq]; simpl in Hq;
      try done; try (exfalso; lia).
    destruct Hq as (Heq & Hqlow & Hqhigh).
    assert (0 < 2 ^ (-53 - eq)) by (apply Z.pow_pos_nonneg; lia).
    destruct sec as [|p|p]; [| |lia].
    + simpl. split; [lia|]. split; [lia|].
      replace (0 - eq) with (53 + (-53 - eq)) by lia.
      rewrite pow2_split by lia. lia.
    + destruct (of_int_exact p ltac:(lia)) as (m & s & Hs & Hm & ->).
      assert (Z.min (- s) eq ≤ eq) as Hmin by lia.
      set (ez := Z.min (- s) eq) in *.
      assert (0 < 2 ^ s) by (apply Z.pow_pos_nonneg; lia).
      assert (0 < 2 ^ (eq - ez)) by (apply Z.pow_pos_nonneg; lia).
      assert (0 < 2 ^ (-53 - ez)) by (apply Z.pow_pos_nonneg; lia).
      assert (2 ^ (0 - ez) = 2 ^ 53 * 2 ^ (-53 - ez)) as Hunit
        by (rewrite <- pow2_split by lia; f_equal; lia).
      assert (Z.pos m * 2 ^ (- s - ez) = Z.pos p * 2 ^ (0 - ez)) as Hwhole.
      { rewrite Hm, <- Z.mul_assoc, <- pow2_split by lia. f_equal. f_equal. lia. }
      assert (2 ^ (-53 - ez) = 2 ^ (-53 - eq) * 2 ^ (eq - ez)) as Hfrac
        by (rewrite <- pow2_split by lia; f_equal; lia).
      assert (Z.pos mq * 2 ^ (eq - ez) ≤ (2 ^ 53 - 1) * 2 ^ (-53 - ez)) as Hq'.
      { rewrite Hfrac, Z.mul_assoc. apply Z.mul_le_mono_nonneg_r; lia. }
      apply add_finite_in_range; fold ez; lia.
Qed.

(** [After] for an instant that is not in the future and within the range
    of [Duration]: the window is the whole seconds elapsed, or one more. *)
Lemma After_seconds_bounds (now after : Time) :
  0 ≤ now - after ≤ maxDuration →
  (now - after) / Second ≤ After_seconds now after ≤ (now - after) / Second + 1.
Proof.
  intros Hd. unfold After_seconds, Since, Time_Sub.
  destruct (Z.ltb_spec (now - after) minDuration); [unfold minDuration in *; lia|].
  destruct (Z.ltb_spec maxDuration (now - after)); [lia|].
  apply to_int_Ceil_in_range.
  - apply Z.div_pos; [lia|done].
  - assert ((now - after) / Second < 2 ^ 34); [|lia].
    apply Z.div_lt_upper_bound; [done|].
    unfold maxDuration, Second in *. lia.
  - by apply Seconds_in_range.
Qed.

Lemma shr_1_r mrs : 0 ≤ shr_m mrs → shr_r (shr_1 mrs) = Z.odd (shr_m mrs).
Proof.
  destruct mrs as [m r s]. cbn [shr_m]. intros Hm.
  by destruct m as [|[p|p|]|p]; [..|lia].
Qed.

Lemma shr_1_s mrs : shr_s (shr_1 mrs) = shr_r mrs || shr_s mrs.
Proof. destruct mrs as [m r s]. by destruct m as [|[p|p|]|[p|p|]]. Qed.

Lemma shifted_start (m : Z) : shifted 0 m {| shr_m := m; shr_r := false; shr_s := false |}.
Proof.
  unfold shifted. cbn [shr_m shr_r shr_s].
  rewrite Z.pow_0_r, Z.div_1_r, Z.mod_1_r. split; [done|]. split; split; (lia || done).
Qed.

Lemma shifted_step (n m : Z) mrs :
  0 ≤ m → 0 ≤ n → shifted n m mrs → shifted (n + 1) m (shr_1 mrs).
Proof.
  intros Hm Hn (Hmant & Hr & Hs).
  assert (0 < 2 ^ n) as Hpow by (apply Z.pow_pos_nonneg; lia).
  assert (2 ^ (n + 1) = 2 * 2 ^ n) as Hpow1 by (rewrite Z.pow_add_r by lia; lia).
  pose proof (Z.div_mod m (2 ^ n) ltac:(lia)) as Hdm.
  pose proof (Z.mod_pos_bound m (2 ^ n) ltac:(lia)) as Hbound.
  assert (0 ≤ m / 2 ^ n) as Hquot by (apply Z.div_pos; lia).
  set (M1 := m / 2 ^ n) in *. set (R := m mod 2 ^ n) in *.
  pose proof (Z.div_mod M1 2 ltac:(lia)) as Hdm1.
  pose proof (Z.mod_pos_bound M1 2 ltac:(lia)) as Hbit.
  assert (m / 2 ^ (n + 1) = M1 / 2) as Hdiv.
  { rewrite Hpow1, Z.mul_comm, <- Z.div_div by lia. done. }
  assert (m mod 2 ^ (n + 1) = (M1 mod 2) * 2 ^ n + R) as Hmod.
  { symmetry. apply (Z.mod_unique_pos _ _ (M1 / 2)); nia. }
  assert (shr_r (shr_1 mrs) = true ↔ M1 mod 2 = 1) as Hr1.
  { rewrite shr_1_r by lia. rewrite Hmant. rewrite Zodd_mod.
    destruct (Z.eqb_spec (M1 mod 2) 1); split; (done || lia). }
  unfold shifted. rewrite shr_1_m, Hmant by lia.
  rewrite Hdiv, Hmod, Hpow1. split; [done|]. split.
  - rewrite Hr1. nia.
  - rewrite shr_1_s, orb_true_iff, Hr, Hs.
    assert (M1 mod 2 = 0 ∨ M1 mod 2 = 1) as [Hb|Hb] by lia; rewrite Hb; lia.
Qed.

Lemma shifted_iter (k : positive) (n m : Z) mrs :
  0 ≤ m → 0 ≤ n → shifted n m mrs → shifted (n + Z.pos k) m (iter_pos shr_1 k mrs).
Proof.
  intros Hm. revert n mrs.
  induction k as [k IH|k IH|]; intros n mrs Hn Hshifted; simpl iter_pos.
  - replace (n + Z.pos k~1) with (n + 1 + Z.pos k + Z.pos k) by lia.
    apply IH; [lia|]. apply IH; [lia|]. by apply shifted_step.
  - replace (n + Z.pos k~0) with (n + Z.pos k + Z.pos k) by lia.
    apply IH; [lia|]. by apply IH.
  - by apply shifted_step.
Qed.

(** The first stage of the rounding of an exact mantissa: the part shifted
    out decides whether the mantissa goes up. *)
Lemma shr_fexp_round (m e : Z) :
  0 ≤ m →
  let k := Z.max 0 (fexp prec emax (Zdigits2 m + e) - e) in
  let mrs := (shr_fexp prec emax m e loc_Exact).1 in
  shr_m mrs = m / 2 ^ k
  ∧ (2 ^ k < 2 * (m mod 2 ^ k) →
     round_nearest_even (shr_m mrs) (loc_of_shr_record mrs) = m / 2 ^ k + 1).
Proof.
  intros Hm k mrs.
  assert (shifted k m mrs) as (Hmant & Hr & Hs).
  { subst k mrs. unfold shr_fexp, shr. cbn [shr_record_of_loc].
    destruct (fexp prec emax (Zdigits2 m + e) - e) as [|n|n] eqn:Hk; cbn [fst].
    - apply shifted_start.
    - replace (Z.max 0 (Z.pos n)) with (0 + Z.pos n) by lia.
      apply shifted_iter; [done|done|apply shifted_start].
    - apply shifted_start. }
  split; [done|]. intros Habove.
  assert (shr_r mrs = true) as Hr' by (apply Hr; lia).
  assert (shr_s mrs = true) as Hs' by (apply Hs; lia).
  rewrite <- Hmant. destruct mrs as [m' r s]. cbn [shr_r shr_s] in *. subst r s. done.
Qed.

(** After the first stage a mantissa has at most 53 digits, so the second
    stage loses nothing: it only halves [2^53]. *)
Lemma second_stage_exact (m1r e1 : Z) :
  0 < m1r ≤ 2 ^ 53 → -1074 ≤ e1 →
  ∃ k, (k = 0 ∨ k = 1)
       ∧ shr_m (shr_fexp prec emax m1r e1 loc_Exact).1 * 2 ^ k = m1r
       ∧ (shr_fexp prec emax m1r e1 loc_Exact).2 = e1 + k.
Proof.
  intros [Hpos Hmax] He1.
  pose proof (shr_fexp_m m1r e1 loc_Exact ltac:(lia)) as [Hm He]. cbv zeta in Hm, He.
  destruct (Z.eq_dec m1r (2 ^ 53)) as [->|Hne].
  - exists 1. split; [by right|]. rewrite Hm, He.
    change (Zdigits2 (2 ^ 53)) with 54.
    assert (fexp prec emax (54 + e1) - e1 = 1) as -> by (unfold fexp, emin, prec, emax; lia).
    done.
  - exists 0. split; [by left|]. rewrite Hm, He.
    assert (Zdigits2 m1r ≤ 53) by (apply Zdigits2_le; lia).
    assert (fexp prec emax (Zdigits2 m1r + e1) - e1 ≤ 0) as Hk
      by (unfold fexp, emin, prec, emax; lia).
    replace (Z.max 0 (fexp prec emax (Zdigits2 m1r + e1) - e1)) with 0 by lia.
    rewrite Z.pow_0_r, Z.div_1_r. lia.
Qed.

Lemma Zdigits2_bounds (m : Z) : 0 ≤ m → m < 2 ^ Zdigits2 m.
Proof.
  intros Hm. destruct m as [|p|p]; [done| |lia].
  apply digits2_pos_bounds.
Qed.

Lemma first_stage_bounded (m e : Z) :
  0 ≤ m →
  let k := Z.max 0 (fexp prec emax (Zdigits2 m + e) - e) in
  m / 2 ^ k < 2 ^ 53 ∧ (-1074 ≤ e + k ∨ m = 0).
Proof.
  intros Hm k.
  pose proof (Zdigits2_bounds m Hm) as Hdigits.
  assert (0 ≤ Zdigits2 m) by (destruct m; simpl; lia).
  assert (0 ≤ k) by lia.
  assert (0 < 2 ^ k) by (apply Z.pow_pos_nonneg; lia).
  split.
  - apply Z.div_lt_upper_bound; [lia|].
    rewrite <- pow2_split by lia.
    assert (2 ^ Zdigits2 m ≤ 2 ^ (k + 53)); [|lia].
    apply Z.pow_le_mono_r; [lia|]. subst k. unfold fexp, emin, prec, emax. lia.
  - left. subst k. unfold fexp, emin, prec, emax. lia.
Qed.

(** A sum that lies above the integer [N] by more than half of its last
    place is rounded to a float above [N]: [G] bounds the last place by
    [2^-G], the sum being below [2^(53-G)]. *)
Lemma binary_round_aux_above (mx ex N G : Z) :
  0 ≤ N → 1 ≤ G ≤ 1074 → ex ≤ - G →
  N * 2 ^ (- ex) < mx < 2 ^ (53 - G - ex) →
  2 ^ (- ex) < 2 ^ (G + 1) * (mx - N * 2 ^ (- ex)) →
  ∃ m e, binary_round_aux prec emax false mx ex loc_Exact = S754_finite false m e
         ∧ e ≤ 0 ∧ N * 2 ^ (- e) < Z.pos m.
Proof.
  intros HN HG Hex [Hlow Hhigh] Hhalf.
  assert (0 < 2 ^ (- ex)) by (apply Z.pow_pos_nonneg; lia).
  assert (0 ≤ mx) as Hmx by nia.
  unfold binary_round_aux.
  pose proof (shr_fexp_round mx ex Hmx) as [Hm1 Hup].
  pose proof (shr_fexp_m mx ex loc_Exact Hmx) as [_ He1].
  pose proof (first_stage_bounded mx ex Hmx) as [Hm53 Hemin].
  cbv zeta in Hm1, Hup, He1, Hm53, Hemin.
  set (k1 := Z.max 0 (fexp prec emax (Zdigits2 mx + ex) - ex)) in *.
  destruct (shr_fexp prec emax mx ex loc_Exact) as [mrs1 e1]. cbn [fst snd] in *.
  assert (0 ≤ k1) by (subst k1; lia).
  assert (e1 ≤ - G) as He1G.
  { rewrite He1. apply (shr_fexp_exponent mx ex (- G)); try lia.
    replace (53 + - G - ex) with (53 - G - ex) by lia. done. }
  assert (0 < 2 ^ k1) by (apply Z.pow_pos_nonneg; lia).
  assert (0 < 2 ^ (- e1)) by (apply Z.pow_pos_nonneg; lia).
  assert (2 ^ (- ex) = 2 ^ (- e1) * 2 ^ k1) as Hsplit
    by (rewrite <- pow2_split by lia; f_equal; lia).
  set (Q := mx - N * 2 ^ (- ex)) in *.
  assert (mx = N * 2 ^ (- e1) * 2 ^ k1 + Q) as Hmx_split by (subst Q; rewrite Hsplit; lia).
  set (m1r := round_nearest_even (shr_m mrs1) (loc_of_shr_record mrs1)) in *.
  pose proof (round_nearest_even_bounds (shr_m mrs1) (loc_of_shr_record mrs1)) as Hround.
  fold m1r in Hround.
  assert (N * 2 ^ (- e1) + 1 ≤ m1r) as Hm1r.
  { destruct (Z.le_gt_cases (2 ^ k1) Q) as [Hbig|Hsmall].
    - assert (N * 2 ^ (- e1) + 1 ≤ mx / 2 ^ k1); [|lia].
      apply Z.div_le_lower_bound; [lia|]. nia.
    - assert (mx / 2 ^ k1 = N * 2 ^ (- e1)) as Hquot.
      { symmetry. apply (Z.div_unique_pos _ _ _ Q); lia. }
      assert (mx mod 2 ^ k1 = Q) as Hrem.
      { symmetry. apply (Z.mod_unique_pos _ _ (N * 2 ^ (- e1))); lia. }
      assert (2 ^ k1 < 2 * Q) as Hgt.
      { assert (2 ^ (- ex) = 2 ^ k1 * 2 ^ (- e1)) as Hs2 by lia.
        assert (2 ^ G ≤ 2 ^ (- e1)) by (apply Z.pow_le_mono_r; lia).
        assert (2 ^ (G + 1) = 2 * 2 ^ G) as HG1 by (rewrite Z.pow_add_r by lia; lia).
        assert (0 < 2 ^ G) by (apply Z.pow_pos_nonneg; lia).
        rewrite HG1, Hs2 in Hhalf. nia. }
      rewrite Hrem in Hup. specialize (Hup Hgt). fold m1r in Hup. lia. }
  assert (0 < m1r ≤ 2 ^ 53) as Hm1r_range by nia.
  assert (-1074 ≤ e1) as He1min by (destruct Hemin; lia).
  destruct (second_stage_exact m1r e1 Hm1r_range He1min) as (k2 & Hk2 & Hm2 & He2).
  destruct (shr_fexp prec emax m1r e1 loc_Exact) as [mrs2 e2]. cbn [fst snd] in *.
  assert (0 < 2 ^ k2) by (destruct Hk2; subst k2; done).
  destruct (shr_m mrs2) as [|m2|m2] eqn:Hshr2; [lia| |lia].
  assert (e2 ≤ 0) by lia.
  unfold emax, prec. destruct (Z.leb_spec e2 (1024 - 53)); [|lia].
  exists m2, e2. split; [done|]. split; [done|].
  assert (0 < 2 ^ (- e2)) by (apply Z.pow_pos_nonneg; lia).
  assert (2 ^ (- e1) = 2 ^ (- e2) * 2 ^ k2) as Hs3
    by (rewrite <- pow2_split by lia; f_equal; lia).
  rewrite Hs3 in Hm1r. nia.
Qed.

(** [d.Seconds()] is above the whole seconds of [d] when [d] has a
    fraction and is shorter than [2^24] seconds. *)
Lemma Seconds_above (d : Duration) :
  0 ≤ d → d / Second < 2 ^ 24 → d mod Second ≠ 0 →
  ∃ m e, Seconds d = S754_finite false m e ∧ e ≤ 0 ∧ d / Second * 2 ^ (- e) < Z.pos m.
Proof.
  intros Hd Hsec24 Hnz. rewrite Seconds_nonneg by done.
  pose proof (Z.mod_pos_bound d Second ltac:(done)) as Hnsec.
  assert (0 ≤ d / Second) as Hsec by (apply Z.div_pos; [done|unfold Second; lia]).
  set (sec := d / Second) in *. set (nsec := d mod Second) in *.
  pose proof (fraction_in_range nsec ltac:(unfold billion, Second in *; lia)) as Hq.
  destruct (div (of_int nsec) (of_int billion)) as [[]|[]| |[] mq eq]; simpl in Hq;
    try done; try (exfalso; lia).
  destruct Hq as (Heq & Hqlow & Hqhigh).
  assert (0 < 2 ^ (-53 - eq)) by (apply Z.pow_pos_nonneg; lia).
  destruct sec as [|p|p]; [| |lia].
  - exists mq, eq. split; [done|]. split; lia.
  - assert (2 ^ 24 < 2 ^ 53) by done.
    destruct (of_int_exact p ltac:(lia)) as (m & s & Hs & Hm & ->).
    unfold add, SFadd.
    set (ez := Z.min (- s) eq).
    pose proof (shl_align_spec m (- s) ez) as [Hex Hmx].
    pose proof (shl_align_spec mq eq ez) as [Hey Hmy].
    destruct (shl_align m (- s) ez) as [mx' ex'], (shl_align mq eq ez) as [my' ey'].
    cbn [fst snd cond_Zopp] in Hex, Hmx, Hey, Hmy |- *.
    replace ex' with ez in Hmx by lia. replace ey' with ez in Hmy by lia.
    change (binary_normalize prec emax (Z.pos mx' + Z.pos my') ez false)
      with (binary_round prec emax false (mx' + my') ez).
    unfold binary_round.
    pose proof (shl_align_spec (mx' + my') ez
                  (fexp prec emax (Z.pos (digits2_pos (mx' + my')) + ez))) as [He' Hm'].
    destruct (shl_align (mx' + my') ez
                (fexp prec emax (Z.pos (digits2_pos (mx' + my')) + ez))) as [mz ez'].
    cbn [fst snd] in He', Hm'.
    assert (ez' ≤ ez) by lia. assert (ez ≤ eq) by (subst ez; lia).
    assert (0 < 2 ^ s) by (apply Z.pow_pos_nonneg; lia).
    set (Y := 2 ^ (-53 - ez')).
    assert (0 < Y) by (apply Z.pow_pos_nonneg; lia).
    assert (2 ^ (- ez') = 2 ^ 53 * Y) as Hunit
      by (subst Y; rewrite <- pow2_split by lia; f_equal; lia).
    assert (Z.pos mz = Z.pos p * 2 ^ (- ez') + Z.pos mq * 2 ^ (eq - ez')) as Hmz.
    { rewrite Hm', Pos2Z.inj_add, Hmx, Hmy, Hm, Z.mul_add_distr_r.
      rewrite <- !Z.mul_assoc, <- !pow2_split by lia.
      f_equal; f_equal; f_equal; lia. }
    assert (Y = 2 ^ (-53 - eq) * 2 ^ (eq - ez')) as HY
      by (subst Y; rewrite <- pow2_split by lia; f_equal; lia).
    assert (0 < 2 ^ (eq - ez')) by (apply Z.pow_pos_nonneg; lia).
    assert ((2 ^ 23 + 1) * Y ≤ Z.pos mq * 2 ^ (eq - ez')) as Hfrac_low.
    { rewrite HY, Z.mul_assoc. apply Z.mul_le_mono_nonneg_r; lia. }
    assert (Z.pos mq * 2 ^ (eq - ez') ≤ (2 ^ 53 - 1) * Y) as Hfrac_high.
    { rewrite HY, Z.mul_assoc. apply Z.mul_le_mono_nonneg_r; lia. }
    apply (binary_round_aux_above _ _ (Z.pos p) 29); try lia.
    rewrite Hmz, Hunit. split; [lia|].
    replace (53 - 29 - ez') with (24 + 53 + (-53 - ez')) by lia.
    rewrite !pow2_split by lia. fold Y. nia.
Qed.

Lemma to_int_Ceil_above (m : positive) (e lo : Z) :
  0 ≤ lo → lo + 1 < 2 ^ 53 → e ≤ 0 →
  lo * 2 ^ (- e) < Z.pos m ≤ (lo + 1) * 2 ^ (- e) →
  to_int (Ceil (S754_finite false m e)) = lo + 1.
Proof.
  intros Hlo Hhi He [Hlow Hhigh].
  assert (2 ^ 53 < 2 ^ 63) by done.
  unfold Ceil. destruct (Z.leb_spec 0 e) as [He0|He0].
  - assert (e = 0) as -> by lia. rewrite to_int_finite_pos. cbv zeta.
    change (- 0) with 0 in *. rewrite Z.pow_0_r in *.
    change (0 <=? 0) with true. cbv iota.
    rewrite int64_fits; lia.
  - assert (0 < 2 ^ (- e)) by (apply Z.pow_pos_nonneg; lia).
    cbv zeta.
    set (whole := Z.pos m / 2 ^ (- e)).
    set (up := if Z.pos m mod 2 ^ (- e) =? 0 then whole else whole + 1).
    pose proof (Z.div_mod (Z.pos m) (2 ^ (- e)) ltac:(lia)) as Hdm.
    pose proof (Z.mod_pos_bound (Z.pos m) (2 ^ (- e)) ltac:(lia)) as Hmod.
    fold whole in Hdm.
    assert (up = lo + 1) as Hup.
    { subst up. destruct (Z.eqb_spec (Z.pos m mod 2 ^ (- e)) 0); nia. }
    destruct (Z.eqb_spec up 0) as [Hz|Hne]; [lia|].
    change (binary_normalize prec emax (cond_Zopp false up) 0 false) with (of_int up).
    rewrite to_int_of_int by lia. done.
Qed.

Lemma to_int_Ceil_of_int (n : Z) : 0 ≤ n < 2 ^ 53 → to_int (Ceil (of_int n)) = n.
Proof.
  intros [Hn Hlt]. destruct n as [|p|p]; [done| |lia].
  destruct (of_int_exact p Hlt) as (m & s & Hs & Hm & Hof).
  rewrite Hof. unfold Ceil.
  destruct (Z.leb_spec 0 (- s)); [by rewrite <- Hof, to_int_of_int|].
  assert (0 < 2 ^ s) by (apply Z.pow_pos_nonneg; lia).
  cbv zeta. rewrite Z.opp_involutive, Hm, Z_mod_mult, Z.div_mul by lia.
  change (0 =? 0) with true. cbv iota.
  destruct (Z.eqb_spec (Z.pos p) 0); [lia|].
  change (binary_normalize prec emax (cond_Zopp false (Z.pos p)) 0 false)
    with (of_int (Z.pos p)).
  by rewrite to_int_of_int.
Qed.

(** Below [2^24] seconds the window is the duration rounded up to whole
    seconds. *)
Lemma After_seconds_exact (now after : Time) :
  0 ≤ now - after < 2 ^ 24 * Second →
  After_seconds now after = (now - after + (Second - 1)) / Second.
Proof.
  intros [Hd Hlt].
  assert (2 ^ 24 * Second < maxDuration) by done.
  assert (2 ^ 24 < 2 ^ 53) by done.
  unfold After_seconds, Since, Time_Sub.
  destruct (Z.ltb_spec (now - after) minDuration); [unfold minDuration in *; lia|].
  destruct (Z.ltb_spec maxDuration (now - after)); [lia|].
  set (d := now - after) in *.
  pose proof (Z.div_mod d Second ltac:(done)) as Hdm.
  pose proof (Z.mod_pos_bound d Second ltac:(done)) as Hmod.
  assert (0 ≤ d / Second) as Hsec by (apply Z.div_pos; [done|unfold Second; lia]).
  assert (d / Second < 2 ^ 24) as Hsec24 by (apply Z.div_lt_upper_bound; [done|lia]).
  destruct (Z.eq_dec (d mod Second) 0) as [Hzero|Hnz].
  - rewrite Seconds_nonneg, Hzero by done.
    change (div (of_int 0) (of_int billion)) with (S754_zero false).
    assert (add (of_int (d / Second)) (S754_zero false) = of_int (d / Second)) as ->.
    { destruct (d / Second) as [|p|p]; [done| |lia].
      by destruct (of_int_exact p ltac:(lia)) as (m & s & _ & _ & ->). }
    rewrite to_int_Ceil_of_int by lia.
    apply (Z.div_unique_pos _ _ _ (Second - 1)); unfold Second in *; lia.
  - destruct (Seconds_above d Hd Hsec24 Hnz) as (m & e & Hsecs & He & Habove).
    pose proof (Seconds_in_range d ltac:(lia)) as Hrange.
    rewrite Hsecs in Hrange |- *. simpl in Hrange. destruct Hrange as (_ & _ & Hhigh).
    rewrite Z.sub_0_l in Hhigh.
    rewrite (to_int_Ceil_above m e (d / Second)) by lia.
    apply (Z.div_unique_pos _ _ _ (d mod Second - 1)); unfold Second in *; lia.
Qed.

(** ** Variant generation and the fuzzy query *)

Section Variants.

Lemma Split_nonempty s sep : Split s sep ≠ [].
Proof.
  destruct s as [|ch rest]; simpl; [done|].
  destruct (Ascii.eqb ch sep); [done|].
  by destruct (Split rest sep).
Qed.

Lemma Split_no_separator s sep : contains sep s = false → Split s sep = [s].
Proof.
  induction s as [|ch rest IH]; simpl; [done|].
  intros [Hch Hrest]%orb_false_iff.
  rewrite Hch, (IH Hrest). done.
Qed.

(** The loop, from any index: it appends the joins of the remaining
    suffixes that still have two parts. *)
Lemma generateVariants_loop_spec fuel parts (i : nat) acc :
  (length parts - 1 - i ≤ fuel)%nat →
  generateVariants_loop fuel parts (Z.of_nat i) acc =
    acc ++ ((λ j, Join (drop j parts) ".") <$> seq i (length parts - 1 - i)).
Proof.
  revert i acc. induction fuel as [|fuel IH]; intros i acc Hfuel; simpl.
  - replace (length parts - 1 - i)%nat with 0%nat by lia.
    simpl. by rewrite app_nil_r.
  - destruct (Z.ltb_spec (Z.of_nat i) (Z.of_nat (length parts) - 1)) as [Hlt|Hge].
    + replace (Z.of_nat i + 1) with (Z.of_nat (S i)) by lia.
      rewrite IH by lia. rewrite Nat2Z.id.
      replace (length parts - 1 - i)%nat with (S (length parts - 1 - S i)) by lia.
      simpl. by rewrite <- app_assoc.
    + replace (length parts - 1 - i)%nat with 0%nat by lia.
      simpl. by rewrite app_nil_r.
Qed.

Lemma generateVariants_spec domain : generateVariants domain = variants_spec domain.
Proof.
  unfold generateVariants, variants_spec.
  rewrite (generateVariants_loop_spec _ _ 0 []) by lia.
  simpl. by rewrite Nat.sub_0_r.
Qed.

Lemma Check_run domain w :
  Check domain w =
    (Returned (bool_decide (domain ∈ members (client w))), w,
     [EvLock; EvLookup domain; EvUnlock]).
Proof. by destruct w. Qed.

Lemma FuzzyCheck_range_run vs w :
  FuzzyCheck_range vs w =
    (Returned (bool_decide (Exists (λ v, v ∈ members (client w)) vs)), w,
     upto_first_member (members (client w)) vs ≫= λ v, [EvLock; EvLookup v; EvUnlock]).
Proof.
  induction vs as [|v vs IH]; simpl.
  - reflexivity.
  - unfold mbind, M_bind, bind. rewrite Check_run.
    destruct (bool_decide_reflect (v ∈ members (client w))) as [Hin|Hout].
    + unfold mret, M_ret, ret. simpl.
      rewrite (bool_decide_eq_true_2 (Exists _ (v :: vs))) by (by left).
      reflexivity.
    + rewrite IH. simpl.
      rewrite (bool_decide_ext (Exists _ (v :: vs)) (Exists (λ v, v ∈ members (client w)) vs))
        by (rewrite Exists_cons; tauto).
      reflexivity.
Qed.

Lemma lookups_of_checks vs :
  lookups (vs ≫= λ v, [EvLock; EvLookup v; EvUnlock]) = vs.
Proof. induction vs as [|v vs IH]; simpl; [done|]. by f_equal. Qed.

End Variants.

(** C1. [FuzzyCheck] calls [Check] on the variants that the suffix-dropping
    algorithm lists ([join(p[i:], ".")] for [i] from 0 to [n-2], [p] the
    pieces of the input between dots), in that order and no further than the
    first member of the cache; it answers whether some variant is a member
    and changes nothing.  The six documented inputs give the documented
    sequences. *)
Theorem FuzzyCheck_tests_the_variant_sequence :
  (∀ domain w,
     generateVariants domain = variants_spec domain
     ∧ lookups (trace (FuzzyCheck domain w)) =
         upto_first_member (members (client w)) (variants_spec domain)
     ∧ result (FuzzyCheck domain w) =
         Returned (bool_decide (Exists (λ v, v ∈ members (client w)) (variants_spec domain)))
     ∧ world_of (FuzzyCheck domain w) = w)
  ∧ generateVariants "example.com" = ["example.com"]
  ∧ generateVariants "foo.bar.example.com" =
      ["foo.bar.example.com"; "bar.example.com"; "example.com"]
  ∧ generateVariants "foo" = []
  ∧ generateVariants "" = []
  ∧ generateVariants "foo.bar..example.com" =
      ["foo.bar..example.com"; "bar..example.com"; ".example.com"; "example.com"]
  ∧ generateVariants "foo.example.com/" = ["foo.example.com/"; "example.com/"].
Proof.
  split; [|repeat split; reflexivity].
  intros domain w. unfold FuzzyCheck.
  rewrite FuzzyCheck_range_run, generateVariants_spec.
  unfold trace, result, world_of. simpl.
  by rewrite lookups_of_checks.
Qed.

(** C10. An input without a dot (the empty string too) has no variant:
    [FuzzyCheck] answers false without a single call of [Check], whatever
    the cache holds, the input itself included. *)
Theorem FuzzyCheck_without_separator_is_false domain w :
  contains "." domain = false →
  generateVariants domain = []
  ∧ result (FuzzyCheck domain w) = Returned false
  ∧ lookups (trace (FuzzyCheck domain w)) = [].
Proof.
  intros Hdot. unfold FuzzyCheck, generateVariants.
  rewrite (Split_no_separator _ _ Hdot).
  repeat split; reflexivity.
Qed.

(** A cache that holds ["localhost"]: [Check] finds it, [FuzzyCheck] does
    not. *)
Lemma FuzzyCheck_without_separator_is_false_witness :
  let w := mkWorld (mkClient (Some {["localhost"]}) 0 false None None) [] in
  contains "." "localhost" = false
  ∧ result (Check "localhost" w) = Returned true
  ∧ result (FuzzyCheck "localhost" w) = Returned false.
Proof.
  split; [reflexivity|]. split; [reflexivity|].
  apply (FuzzyCheck_without_separator_is_false "localhost"). reflexivity.
Defined.

(** ** The live feed: a single session *)

(** C4. While a session is active ([streaming] set), another call of
    [listenForUpdates], and so of [ListenForUpdates], returns the error
    "already listening for updates" at once: the feed is not opened, no
    cancellation function is called, and the client (membership,
    [lastUpdated], [streaming], [cancelFunc]) and the channels are as
    before. *)
Theorem second_session_fails_without_effect
    (w : World) (cancel : CancelFunc) (feed : M (option error))
    (schedule : list relay_step) :
  streaming (client w) = true →
  listenForUpdates cancel feed w =
    (Returned (Some errAlreadyListening), w, [EvLock; EvUnlock])
  ∧ ListenForUpdates cancel schedule w =
    (Returned (Exited (Some errAlreadyListening)), w, [EvLock; EvUnlock]).
Proof.
  intros Hstreaming. split.
  - unfold listenForUpdates, checkStreaming. unfold_M.
    rewrite Hstreaming. by destruct w.
  - unfold ListenForUpdates, checkStreaming. unfold_M.
    rewrite Hstreaming. by destruct w.
Qed.

(** A client in a session, with two domains cached and a subscriber. *)
Lemma second_session_fails_without_effect_witness :
  let w := mkWorld (mkClient (Some {["bad.example"; "worse.example"]}) 1700 true
                      (Some 7%nat) (Some 0%nat)) [mkChan 2 1 false] in
  streaming (client w) = true
  ∧ ListenForUpdates 8%nat
      [FeedSends (mkDomainUpdate true ["new.example"]); Applies 1800; FeedReturns None] w =
      (Returned (Exited (Some errAlreadyListening)), w, [EvLock; EvUnlock]).
Proof.
  split; [reflexivity|].
  apply (second_session_fails_without_effect _ 8%nat (mret None)). reflexivity.
Defined.

(** ** Notifications *)

Section Notifications.

Lemma sendUpdate_client w : client (world_of (sendUpdate w)) = client w.
Proof.
  unfold sendUpdate, send_or_skip, world_of. unfold_M. simpl.
  destruct (updateChan (client w)) as [p|]; [|done].
  destruct (chans w !! p) as [ch|]; [|done].
  destruct (chan_closed ch); [done|].
  by destruct (chan_len ch <? chan_cap ch)%nat.
Qed.

Lemma sendUpdate_trace w : trace (sendUpdate w) = [].
Proof.
  unfold sendUpdate, send_or_skip, trace. unfold_M. simpl.
  destruct (updateChan (client w)) as [p|]; [|done].
  destruct (chans w !! p) as [ch|]; [|done].
  destruct (chan_closed ch); [done|].
  by destruct (chan_len ch <? chan_cap ch)%nat.
Qed.

Lemma sendUpdate_returns w : notifier_ok w = true → result (sendUpdate w) = Returned tt.
Proof.
  unfold notifier_ok, sendUpdate, send_or_skip, result. unfold_M. simpl.
  destruct (updateChan (client w)) as [p|]; [|done].
  destruct (chans w !! p) as [ch|]; [|done].
  destruct (chan_closed ch); [done|].
  by destruct (chan_len ch <? chan_cap ch)%nat.
Qed.

(** A send changes neither which channel is current nor whether it is
    open. *)
Lemma sendUpdate_notifier_ok w :
  notifier_ok w = true → notifier_ok (world_of (sendUpdate w)) = true.
Proof.
  unfold notifier_ok, sendUpdate, send_or_skip, world_of. unfold_M. simpl.
  destruct (updateChan (client w)) as [p|] eqn:Hp; simpl; [|by rewrite Hp].
  destruct (chans w !! p) as [ch|] eqn:Hch; [|done].
  destruct (chan_closed ch) eqn:Hclosed; [done|]. intros _.
  destruct (chan_len ch <? chan_cap ch)%nat; simpl; rewrite Hp.
  - rewrite list_lookup_insert_eq; [done|]. by eapply lookup_lt_Some.
  - by rewrite Hch, Hclosed.
Qed.

End Notifications.

(** C8. [sendUpdate] never waits: on an open channel with room it adds one
    pending notification, on a full one (two pending, for the channels
    [UpdateChannel] hands out) it leaves everything as it is, and in both
    cases it returns normally with the client untouched.  [UpdateChannel]
    closes the channel issued before, if any, and returns a new, empty, open
    channel of capacity 2 that becomes the current one. *)
Theorem notifications_are_dropped_when_full_and_subscribing_replaces :
  (∀ w p ch,
     updateChan (client w) = Some p → chans w !! p = Some ch →
     chan_closed ch = false →
     sendUpdate w =
       (Returned tt,
        mkWorld (client w)
          (if (chan_len ch <? chan_cap ch)%nat
           then <[p := mkChan (chan_cap ch) (S (chan_len ch)) false]> (chans w)
           else chans w),
        []))
  ∧ (∀ w p,
       updateChan (client w) = Some p → chans w !! p = Some (mkChan 2 2 false) →
       sendUpdate w = (Returned tt, w, []))
  ∧ (∀ w, notifier_ok w = true →
       let r := UpdateChannel w in
       let p := length (chans w) in
       result r = Returned p
       ∧ updateChan (client (world_of r)) = Some p
       ∧ chans (world_of r) !! p = Some (mkChan 2 0 false)
       ∧ (∀ old, updateChan (client w) = Some old →
            old ≠ p ∧ ∃ ch, chans (world_of r) !! old = Some ch ∧ chan_closed ch = true)).
Proof.
  split; [|split].
  - intros w p ch Hp Hch Hopen.
    unfold sendUpdate, send_or_skip. unfold_M. simpl.
    rewrite Hp, Hch, Hopen.
    destruct (chan_len ch <? chan_cap ch)%nat; [done|]. by destruct w.
  - intros w p Hp Hch.
    unfold sendUpdate, send_or_skip. unfold_M. simpl.
    rewrite Hp, Hch. simpl. by destruct w.
  - intros w Hok. unfold notifier_ok in Hok.
    unfold UpdateChannel, close_chan, make_chan, result, world_of. unfold_M. simpl.
    destruct (updateChan (client w)) as [old|] eqn:Hold; simpl.
    + destruct (chans w !! old) as [ch|] eqn:Hch; [|done].
      destruct (chan_closed ch) eqn:Hclosed; [done|]. simpl.
      pose proof (lookup_lt_Some _ _ _ Hch) as Hlt.
      split; [by rewrite length_insert|]. split; [by rewrite length_insert|].
      split.
      * rewrite lookup_app_r by (rewrite length_insert; lia).
        by rewrite length_insert, Nat.sub_diag.
      * intros old2 [= <-]. split; [lia|].
        eexists. split.
        -- rewrite lookup_app_l by (rewrite length_insert; lia).
           by rewrite list_lookup_insert_eq.
        -- reflexivity.
    + split; [done|]. split; [done|]. split; [|done].
      rewrite lookup_app_r by lia. by rewrite Nat.sub_diag.
Qed.

(** A subscriber that has not read its two notifications: the third is
    dropped, and subscribing again closes that channel. *)
Lemma notifications_are_dropped_when_full_and_subscribing_replaces_witness :
  let w := mkWorld (mkClient (Some ∅) 0 false None (Some 0%nat)) [mkChan 2 2 false] in
  notifier_ok w = true
  ∧ sendUpdate w = (Returned tt, w, [])
  ∧ result (UpdateChannel w) = Returned 1%nat
  ∧ chans (world_of (UpdateChannel w)) = [mkChan 2 2 true; mkChan 2 0 false].
Proof.
  pose proof notifications_are_dropped_when_full_and_subscribing_replaces
    as (_ & Hfull & Hsub).
  split; [reflexivity|]. split; [by apply (Hfull _ 0%nat)|].
  split; [|reflexivity]. by apply Hsub.
Defined.

(** ** Full synchronisation *)

Lemma dMap_of_from (ds : list string) (acc : gset string) :
  foldl (λ dMap d, {[d]} ∪ dMap) acc ds = list_to_set ds ∪ acc.
Proof.
  revert acc. induction ds as [|d ds IH]; intros acc; simpl.
  - set_solver.
  - rewrite IH. set_solver.
Qed.

Lemma dMap_of_list_to_set ds : dMap_of ds = list_to_set ds.
Proof. unfold dMap_of. rewrite dMap_of_from. set_solver. Qed.

Lemma FullSync_success_run ds now w :
  FullSync (ds, None) now w =
    (match result (sendUpdate (synced ds now w)) with
     | Returned _ => Returned None
     | Panicked msg => Panicked msg
     end,
     world_of (sendUpdate (synced ds now w)),
     EvTransport CallAll :: EvLock :: trace (sendUpdate (synced ds now w)) ++ [EvUnlock]).
Proof.
  unfold FullSync, synced, result, world_of, trace. unfold_M. simpl.
  destruct (sendUpdate _) as [[[u|msg] w2] t]; simpl; by rewrite ?app_nil_r.
Qed.

Lemma FullSync_failure_run ds err now w :
  FullSync (ds, Some err) now w = (Returned (Some err), w, [EvTransport CallAll]).
Proof. reflexivity. Qed.

(** C2. When [All] succeeds, [FullSync] leaves as membership the domains of
    the answer and nothing else, whatever was cached before, and
    [lastUpdated] is the clock reading; it returns nil (a notification
    channel that its subscriber closed is the one thing that makes the send
    panic instead).  When [All] fails, [FullSync] returns that error and the
    client and the channels are as before.  A cache of [a] and [b] synced
    with the answer [b], [c] holds [b] and [c]. *)
Theorem FullSync_replaces_wholesale_or_leaves_untouched
    (w : World) (ds : list string) (now : Time) :
  (let r := FullSync (ds, None) now w in
   domains (client (world_of r)) = Some (list_to_set ds)
   ∧ (∀ d, d ∈ members (client (world_of r)) ↔ d ∈ ds)
   ∧ lastUpdated (client (world_of r)) = now
   ∧ (notifier_ok w = true → result r = Returned None))
  ∧ (∀ err, let r := FullSync (ds, Some err) now w in
       result r = Returned (Some err) ∧ world_of r = w)
  ∧ (∀ lu chs,
       members (client (world_of
         (FullSync (["b"; "c"], None) now
            (mkWorld (mkClient (Some {["a"; "b"]}) lu false None None) chs)))) =
       {["b"; "c"]}).
Proof.
  assert (∀ ds' w', let r := FullSync (ds', None) now w' in
            domains (client (world_of r)) = Some (list_to_set ds')
            ∧ lastUpdated (client (world_of r)) = now) as Hstate.
  { intros ds' w'. simpl. rewrite FullSync_success_run. unfold world_of at 1 3. simpl.
    rewrite sendUpdate_client. simpl. by rewrite dMap_of_list_to_set. }
  split; [|split].
  - destruct (Hstate ds w) as [Hdom Hlast]. simpl in *.
    split; [done|]. split; [|split; [done|]].
    + intros d. unfold members. rewrite Hdom. simpl. apply elem_of_list_to_set.
    + intros Hok. rewrite FullSync_success_run. unfold result at 1. simpl.
      rewrite sendUpdate_returns; [done|].
      unfold notifier_ok, synced in *. simpl. done.
  - intros err. by rewrite FullSync_failure_run.
  - intros lu chs. unfold members.
    destruct (Hstate ["b"; "c"] (mkWorld (mkClient (Some {["a"; "b"]}) lu false None None) chs))
      as [-> _].
    simpl. set_solver.
Qed.

(** A subscribed client with two cached domains. *)
Lemma FullSync_replaces_wholesale_or_leaves_untouched_witness :
  let w := mkWorld (mkClient (Some {["a"; "b"]}) 5 false None (Some 0%nat))
             [mkChan 2 0 false] in
  notifier_ok w = true ∧ result (FullSync (["b"; "c"], None) 9 w) = Returned None.
Proof.
  split; [reflexivity|].
  apply (FullSync_replaces_wholesale_or_leaves_untouched _ ["b"; "c"] 9). reflexivity.
Defined.

(** ** The merge *)

Lemma preserves_bind {A B X} (f : World → X) (m : M A) (k : A → M B) :
  preserves f m → (∀ a, preserves f (k a)) → preserves f (m ≫= k).
Proof.
  intros Hm Hk w. unfold mbind, M_bind, bind, world_of.
  specialize (Hm w). unfold world_of in Hm.
  destruct (m w) as [[[a|msg] w1] t1]; simpl in *; [|done].
  specialize (Hk a w1). unfold world_of in Hk.
  destruct (k a w1) as [[r w2] t2]; simpl in *. congruence.
Qed.

Lemma silent_bind {A B} (m : M A) (k : A → M B) :
  silent m → (∀ a, silent (k a)) → silent (m ≫= k).
Proof.
  intros Hm Hk w. unfold mbind, M_bind, bind, trace.
  specialize (Hm w). unfold trace in Hm.
  destruct (m w) as [[[a|msg] w1] t1]; simpl in *; [|done].
  specialize (Hk a w1). unfold trace in Hk.
  destruct (k a w1) as [[r w2] t2]; simpl in *. by subst.
Qed.

Lemma applyMod_domain_preserves {X} (f : Client → X) add domain :
  (∀ d c, f (set_domains d c) = f c) →
  preserves (λ w, (f (client w), chans w)) (applyMod_domain add domain).
Proof.
  intros Hf w. unfold applyMod_domain, world_of. unfold_M. simpl.
  destruct add; [destruct (domains (client w))|]; simpl; by rewrite ?Hf.
Qed.

Lemma applyMod_domain_silent add domain : silent (applyMod_domain add domain).
Proof.
  intros w. unfold applyMod_domain, trace. unfold_M. simpl.
  destruct add; [destruct (domains (client w))|]; done.
Qed.

Lemma applyMod_preserves {X} (f : Client → X) upd :
  (∀ d c, f (set_domains d c) = f c) →
  preserves (λ w, (f (client w), chans w)) (applyMod upd).
Proof.
  intros Hf. unfold applyMod. induction (Domains upd) as [|d ds IH]; simpl.
  - by intros w.
  - apply preserves_bind; [by apply applyMod_domain_preserves|done].
Qed.

Lemma applyMod_silent upd : silent (applyMod upd).
Proof.
  unfold applyMod. induction (Domains upd) as [|d ds IH]; simpl.
  - by intros w.
  - apply silent_bind; [apply applyMod_domain_silent|done].
Qed.

Lemma applyMods_preserves {X} (f : Client → X) mods :
  (∀ d c, f (set_domains d c) = f c) →
  preserves (λ w, (f (client w), chans w)) (applyMods mods).
Proof.
  intros Hf. induction mods as [|upd mods IH]; simpl.
  - by intros w.
  - apply preserves_bind; [by apply applyMod_preserves|done].
Qed.

Lemma applyMods_silent mods : silent (applyMods mods).
Proof.
  induction mods as [|upd mods IH]; simpl.
  - by intros w.
  - apply silent_bind; [apply applyMod_silent|done].
Qed.

(** On an allocated map a batch is the set operation it stands for. *)
Lemma applyMod_allocated upd w s :
  domains (client w) = Some s →
  applyMod upd w =
    (Returned tt, mkWorld (set_domains (Some (merge_batch s upd)) (client w)) (chans w), []).
Proof.
  unfold applyMod, merge_batch. destruct upd as [add ds]. simpl.
  revert w s. induction ds as [|d ds IH]; intros w s Hs; simpl.
  - unfold mret, M_ret, ret. destruct w as [[dm lu st cf uc] chs]; simpl in *. subst dm.
    unfold set_domains. simpl. repeat f_equal. destruct add; set_solver.
  - unfold mbind, M_bind, bind, applyMod_domain at 1. unfold_M. simpl.
    destruct add; simpl.
    + rewrite Hs. simpl. erewrite IH by reflexivity. simpl.
      unfold set_domains. simpl.
      by replace (list_to_set ds ∪ ({[d]} ∪ s)) with ({[d]} ∪ list_to_set ds ∪ s)
        by set_solver.
    + rewrite Hs. simpl. erewrite IH by reflexivity. simpl.
      unfold set_domains. simpl.
      by replace (s ∖ {[d]} ∖ list_to_set ds) with (s ∖ ({[d]} ∪ list_to_set ds))
        by set_solver.
Qed.

Lemma applyMods_allocated mods w s :
  domains (client w) = Some s →
  applyMods mods w =
    (Returned tt, mkWorld (set_domains (Some (merge_batches s mods)) (client w)) (chans w), []).
Proof.
  unfold merge_batches. revert w s.
  induction mods as [|upd mods IH]; intros w s Hs; simpl.
  - unfold mret, M_ret, ret. destruct w as [[dm lu st cf uc] chs]; simpl in *. by subst dm.
  - unfold mbind, M_bind, bind. rewrite (applyMod_allocated _ _ _ Hs).
    erewrite IH by reflexivity. reflexivity.
Qed.

(** ** The incremental update *)

Lemma run_eta {A} (x : outcome A * World * list event) :
  x = (result x, world_of x, trace x).
Proof. by destruct x as [[r w] t]. Qed.

Lemma locked_run {A} (body : M A) w :
  locked body w = (result (body w), world_of (body w), EvLock :: trace (body w) ++ [EvUnlock]).
Proof.
  unfold locked, deferring, Lock, Unlock, emit, mbind, M_bind, bind, result, world_of, trace.
  by destruct (body w) as [[[a|msg] w1] t].
Qed.

Lemma bind_returned {A B} (m : M A) (k : A → M B) w a w1 t1 :
  m w = (Returned a, w1, t1) →
  (m ≫= k) w = (result (k a w1), world_of (k a w1), t1 ++ trace (k a w1)).
Proof.
  intros Hm. unfold mbind, M_bind, bind, result, world_of, trace. rewrite Hm.
  by destruct (k a w1) as [[r w2] t2].
Qed.

Lemma get_client_bind {B} (k : Client → M B) w : (get_client ≫= k) w = k (client w) w.
Proof. rewrite (bind_returned _ _ w (client w) w []) by done. symmetry. apply run_eta. Qed.

Lemma emit_bind {B} (e : event) (k : unit → M B) w :
  (emit e ≫= k) w = (result (k tt w), world_of (k tt w), e :: trace (k tt w)).
Proof. by rewrite (bind_returned _ _ w tt w [e]). Qed.

Lemma modify_client_bind {B} (f : Client → Client) (k : unit → M B) w :
  (modify_client f ≫= k) w = k tt (mkWorld (f (client w)) (chans w)).
Proof.
  rewrite (bind_returned _ _ w tt (mkWorld (f (client w)) (chans w)) []) by done.
  symmetry. apply run_eta.
Qed.

Lemma modify_client_silent f : silent (modify_client f).
Proof. by intros w. Qed.

Lemma mret_silent {A} (a : A) : silent (mret a).
Proof. by intros w. Qed.

Lemma sendUpdate_silent : silent sendUpdate.
Proof. intros w. apply sendUpdate_trace. Qed.

Lemma Update_trace now1 recent now2 w :
  trace (Update now1 recent now2 w) =
    [EvLock; EvTransport (CallRecent (Update_window now1 w)); EvUnlock].
Proof.
  unfold Update. rewrite locked_run, get_client_bind, emit_bind.
  fold (Update_window now1 w). unfold trace at 1 2. cbn [snd].
  destruct (recent (Update_window now1 w)).2 as [err|]; [done|].
  rewrite (silent_bind (modify_client (set_lastUpdated now2))); [done| |].
  - apply modify_client_silent.
  - intros _. apply silent_bind; [apply applyMods_silent|]. intros _.
    apply silent_bind; [|intros _; apply mret_silent].
    destruct (0 <? length _)%nat; [apply sendUpdate_silent|apply mret_silent].
Qed.

Lemma Update_failure_run now1 recent now2 w err :
  (recent (Update_window now1 w)).2 = Some err →
  Update now1 recent now2 w =
    (Returned (Some err), w,
     [EvLock; EvTransport (CallRecent (Update_window now1 w)); EvUnlock]).
Proof.
  intros Herr. unfold Update. rewrite locked_run, get_client_bind, emit_bind.
  fold (Update_window now1 w). by rewrite Herr.
Qed.

Lemma Update_success_state now1 recent now2 w s :
  (recent (Update_window now1 w)).2 = None →
  domains (client w) = Some s →
  let w1 := merged (merge_batches s (recent (Update_window now1 w)).1) now2 w in
  let notified := if (0 <? length (recent (Update_window now1 w)).1)%nat
                  then sendUpdate w1 else (Returned tt, w1, []) in
  world_of (Update now1 recent now2 w) = world_of notified
  ∧ result (Update now1 recent now2 w) =
      match result notified with
      | Returned _ => Returned None
      | Panicked msg => Panicked msg
      end.
Proof.
  intros Hok Hs. unfold Update. rewrite locked_run, get_client_bind, emit_bind.
  fold (Update_window now1 w). rewrite Hok.
  set (mods := (recent (Update_window now1 w)).1).
  rewrite modify_client_bind.
  rewrite (bind_returned _ _ _ tt (merged (merge_batches s mods) now2 w) []);
    [|by rewrite (applyMods_allocated mods _ s)].
  unfold result at 1 2, world_of at 1 2. cbn [fst snd]. unfold result at 1, world_of at 1.
  cbn [fst snd].
  destruct (0 <? length mods)%nat.
  - unfold mbind, M_bind, bind, result, world_of.
    by destruct (sendUpdate _) as [[[u|msg] w2] t].
  - done.
Qed.

Lemma After_seconds_saturated (now after : Time) :
  maxDuration < now - after → After_seconds now after = 9223372037.
Proof.
  intros Hbig. unfold After_seconds, Since, Time_Sub.
  destruct (Z.ltb_spec (now - after) minDuration); [unfold minDuration, maxDuration in *; lia|].
  destruct (Z.ltb_spec maxDuration (now - after)); [|lia].
  reflexivity.
Qed.

(** C3, against the code.  [Update] asks the transport for the changes of
    the last [seconds] seconds, where, with [elapsed] the clock reading minus
    [lastUpdated] plus one minute: [seconds] is [elapsed] rounded up to whole
    seconds when [elapsed] is below [2^24] seconds; for a longer [elapsed]
    within the range of [Duration] it is the whole seconds of [elapsed] or
    one more, the [float64] of [Seconds] not always keeping the fraction;
    beyond that range the difference saturates and [seconds] is 9223372037.
    So the window is shorter than [elapsed] on a client just built, whose
    [lastUpdated] is the zero [Time] (the difference to a clock of the year
    2025 does not fit a [Duration]), and for an [elapsed] of [2^24] seconds
    and a nanosecond, which as a [float64] of seconds is [2^24]; with
    [lastUpdated] ahead of the clock the window is negative.  When the call
    succeeds and the map is allocated, [lastUpdated] becomes the clock
    reading taken after the answer and the batches are merged in the order
    received, and [Update] returns nil unless the send on a notification
    channel closed by its subscriber panics.  When the call fails, [Update]
    returns the error and nothing has changed. *)
Theorem Update_window_falls_short :
  (∀ (w : World) (now1 now2 : Time) (recent : Z → list DomainUpdate * option error),
     let elapsed := now1 - lastUpdated (client w) + Minute in
     let seconds := Update_window now1 w in
     let r := Update now1 recent now2 w in
     trace r = [EvLock; EvTransport (CallRecent seconds); EvUnlock]
     ∧ (0 ≤ elapsed < 2 ^ 24 * Second →
          seconds = (elapsed + (Second - 1)) / Second
          ∧ elapsed ≤ seconds * Second < elapsed + Second)
     ∧ (0 ≤ elapsed ≤ maxDuration →
          elapsed / Second ≤ seconds ≤ elapsed / Second + 1
          ∧ elapsed - Second < seconds * Second)
     ∧ (maxDuration < elapsed → seconds = 9223372037)
     ∧ (∀ s, (recent seconds).2 = None → domains (client w) = Some s →
          lastUpdated (client (world_of r)) = now2
          ∧ domains (client (world_of r)) = Some (merge_batches s (recent seconds).1)
          ∧ (notifier_ok w = true → result r = Returned None))
     ∧ (∀ err, (recent seconds).2 = Some err →
          result r = Returned (Some err) ∧ world_of r = w))
  ∧ (trace (Update Example.in_2025 (λ _, ([], None)) Example.in_2025 New) =
       [EvLock; EvTransport (CallRecent 9223372037); EvUnlock]
     ∧ 9223372037 * Second < Example.in_2025 - lastUpdated (client New) + Minute)
  ∧ (let w := mkWorld (mkClient (Some ∅) Minute false None None) [] in
     let now := 2 ^ 24 * Second + 1 in
     trace (Update now (λ _, ([], None)) now w) =
       [EvLock; EvTransport (CallRecent (2 ^ 24)); EvUnlock]
     ∧ 2 ^ 24 * Second < now - lastUpdated (client w) + Minute)
  ∧ (let w := mkWorld (mkClient (Some ∅) (170 * Second + 500000000) false None None) [] in
     let now := 100 * Second in
     trace (Update now (λ _, ([], None)) now w) =
       [EvLock; EvTransport (CallRecent (-10)); EvUnlock]
     ∧ now - lastUpdated (client w) + Minute ≤ -10 * Second).
Proof.
  split; [|split; [|split]].
  2-4: split; [rewrite Update_trace; by vm_compute|by vm_compute].
  intros w now1 now2 recent elapsed seconds r.
  assert (now1 - Time_Add (lastUpdated (client w)) (- (Minute * 1)) = elapsed) as Hgap
    by (unfold Time_Add, elapsed, Minute; lia).
  split; [apply Update_trace|].
  split; [|split; [|split; [|split]]].
  - intros Hsmall.
    assert (seconds = (elapsed + (Second - 1)) / Second) as Hceil.
    { subst seconds. unfold Update_window. rewrite After_seconds_exact; rewrite Hgap; done. }
    split; [done|]. rewrite Hceil.
    pose proof (Z.div_mod (elapsed + (Second - 1)) Second ltac:(done)) as Hdm.
    pose proof (Z.mod_pos_bound (elapsed + (Second - 1)) Second ltac:(done)) as Hmod.
    unfold Second in *. lia.
  - intros Hrange.
    pose proof (After_seconds_bounds now1 (Time_Add (lastUpdated (client w)) (- (Minute * 1)))) as Hb.
    rewrite Hgap in Hb. specialize (Hb Hrange). fold (Update_window now1 w) in Hb.
    fold seconds in Hb. split; [done|].
    pose proof (Z.div_mod elapsed Second ltac:(done)) as Hdm.
    pose proof (Z.mod_pos_bound elapsed Second ltac:(done)) as Hmod.
    unfold Second in *. lia.
  - intros Hbig. subst seconds. unfold Update_window.
    apply After_seconds_saturated. by rewrite Hgap.
  - intros s Hok Hs.
    destruct (Update_success_state now1 recent now2 w s Hok Hs) as [Hworld Hresult].
    cbv zeta in Hworld, Hresult. fold seconds in Hworld, Hresult. fold r in Hworld, Hresult.
    set (w1 := merged (merge_batches s (recent seconds).1) now2 w) in *.
    assert (client (world_of r) = client w1) as Hclient.
    { rewrite Hworld. destruct (0 <? length _)%nat; [apply sendUpdate_client|done]. }
    rewrite Hclient. split; [done|]. split; [done|].
    intros Hnotifier. rewrite Hresult.
    destruct (0 <? length _)%nat; [|done].
    by rewrite sendUpdate_returns.
  - intros err Herr. subst r. by rewrite (Update_failure_run _ _ _ _ err).
Qed.

(** A client synced two and a half seconds before the clock reading, with a
    subscriber, and an answer of one batch to add and one to delete. *)
Lemma Update_window_falls_short_witness :
  let w := mkWorld (mkClient (Some {["a"; "b"]}) (100 * Second) false None (Some 0%nat))
             [mkChan 2 0 false] in
  let now := 102 * Second + 500000000 in
  let recent := λ _ : Z, ([mkDomainUpdate true ["c"]; mkDomainUpdate false ["a"; "c"]], None) in
  Update_window now w = 63
  ∧ domains (client (world_of (Update now recent now w))) = Some {["b"]}
  ∧ result (Update now recent now w) = Returned None.
Proof.
  intros w now recent.
  destruct Update_window_falls_short as [Hcode _].
  pose proof (Hcode w now now recent) as (_ & Hexact & _ & _ & Hok & _).
  split; [|split].
  - destruct Hexact as [-> _]; [by vm_compute|reflexivity].
  - destruct (Hok {["a"; "b"]}) as (_ & -> & _); reflexivity.
  - destruct (Hok {["a"; "b"]}) as (_ & _ & Hnil); [reflexivity|reflexivity|].
    by apply Hnil.
Defined.

(** ** The mutex and the transport *)

Lemma FullSync_trace all now w :
  trace (FullSync all now w) =
    match all.2 with
    | Some _ => [EvTransport CallAll]
    | None => [EvTransport CallAll; EvLock; EvUnlock]
    end.
Proof.
  destruct all as [ds [err|]]; [done|].
  rewrite FullSync_success_run. unfold trace at 1. cbn [snd fst].
  by rewrite sendUpdate_trace.
Qed.

(** C6, as the code has it.  [FullSync] calls the transport before it takes
    the mutex, and merges the answer under it.  [Update] takes the mutex
    first, to read [lastUpdated], and keeps it until it returns: its call of
    the transport happens with the mutex held, whatever the inputs, and
    [Check], which starts by taking the mutex, waits for the answer. *)
Theorem FullSync_calls_transport_unlocked_and_Update_locked
    (w : World) (now1 now2 now : Time)
    (recent : Z → list DomainUpdate * option error)
    (all : list string * option error) (domain : string) :
  transport_outside_lock false (trace (FullSync all now w)) = true
  ∧ trace (Update now1 recent now2 w) =
      [EvLock; EvTransport (CallRecent (Update_window now1 w)); EvUnlock]
  ∧ transport_outside_lock false (trace (Update now1 recent now2 w)) = false
  ∧ head (trace (Check domain w)) = Some EvLock.
Proof.
  rewrite FullSync_trace, Update_trace, Check_run.
  by destruct all.2.
Qed.

(** Where a transport call runs under the mutex: the first [Update] of a
    client just built. *)
Lemma Update_calls_transport_with_mutex_held :
  trace (Update Example.in_2025 (λ _, ([], None)) Example.in_2025 New) =
    [EvLock; EvTransport (CallRecent 9223372037); EvUnlock]
  ∧ transport_outside_lock false
      (trace (Update Example.in_2025 (λ _, ([], None)) Example.in_2025 New)) = false.
Proof. rewrite Update_trace. split; by vm_compute. Qed.

(** ** [lastUpdated] over time *)

Section Timeline.

Variable json_Unmarshal : string → save * option error.

Lemma FullSync_lastUpdated all now w :
  lastUpdated (client (world_of (FullSync all now w))) =
    match all.2 with Some _ => lastUpdated (client w) | None => now end.
Proof.
  destruct all as [ds [err|]]; [done|].
  rewrite FullSync_success_run. unfold world_of at 1. cbn [fst snd].
  by rewrite sendUpdate_client.
Qed.

Lemma sendUpdate_preserves_lastUpdated :
  preserves (λ w, lastUpdated (client w)) sendUpdate.
Proof. intros w. by rewrite sendUpdate_client. Qed.

Lemma applyMods_preserves_lastUpdated mods :
  preserves (λ w, lastUpdated (client w)) (applyMods mods).
Proof.
  intros w. pose proof (applyMods_preserves lastUpdated mods ltac:(done) w) as H.
  by injection H.
Qed.

Lemma applyMod_preserves_lastUpdated upd :
  preserves (λ w, lastUpdated (client w)) (applyMod upd).
Proof.
  intros w. pose proof (applyMod_preserves lastUpdated upd ltac:(done) w) as H.
  by injection H.
Qed.

Lemma Update_lastUpdated now1 recent now2 w :
  lastUpdated (client (world_of (Update now1 recent now2 w))) =
    match (recent (Update_window now1 w)).2 with
    | Some _ => lastUpdated (client w)
    | None => now2
    end.
Proof.
  unfold Update. rewrite locked_run, get_client_bind, emit_bind.
  fold (Update_window now1 w). unfold world_of at 1 2. cbn [fst snd].
  destruct (recent (Update_window now1 w)).2 as [err|]; [done|].
  rewrite modify_client_bind.
  set (w0 := mkWorld (set_lastUpdated now2 (client w)) (chans w)).
  change now2 with (lastUpdated (client w0)) at 1.
  revert w0. apply (preserves_bind (λ w, lastUpdated (client w))).
  - apply applyMods_preserves_lastUpdated.
  - intros _. apply (preserves_bind (λ w, lastUpdated (client w))); [|by intros _ w0].
    destruct (0 <? length _)%nat; [apply sendUpdate_preserves_lastUpdated|by intros w0].
Qed.

Lemma applyLiveUpdates_lastUpdated upd now w :
  lastUpdated (client (world_of (applyLiveUpdates upd now w))) = now.
Proof.
  unfold applyLiveUpdates. rewrite locked_run, modify_client_bind.
  unfold world_of at 1. cbn [fst snd].
  set (w0 := mkWorld (set_lastUpdated now (client w)) (chans w)).
  change now with (lastUpdated (client w0)) at 1.
  revert w0. apply (preserves_bind (λ w, lastUpdated (client w))).
  - apply applyMod_preserves_lastUpdated.
  - intros _. apply sendUpdate_preserves_lastUpdated.
Qed.

Lemma UnmarshalJSON_run data w :
  UnmarshalJSON json_Unmarshal data w =
    match (json_Unmarshal data).2 with
    | Some err => (Returned (Some err), w, [])
    | None =>
        (Returned None,
         mkWorld (set_domains (Some (dMap_of (SaveDomains (json_Unmarshal data).1)))
                    (set_lastUpdated (LastUpdated (json_Unmarshal data).1) (client w)))
           (chans w), [])
    end.
Proof. unfold UnmarshalJSON. by destruct (json_Unmarshal data).2. Qed.

Lemma ReadCacheFrom_run data w :
  ReadCacheFrom json_Unmarshal (data, None) w =
    match (json_Unmarshal data).2 with
    | Some err => (Returned (Some err), w, [])
    | None =>
        (Returned None,
         mkWorld (set_domains (Some (dMap_of (SaveDomains (json_Unmarshal data).1)))
                    (set_lastUpdated (LastUpdated (json_Unmarshal data).1) (client w)))
           (chans w), [EvLock; EvUnlock])
    end.
Proof.
  unfold ReadCacheFrom, on_client. cbn [fst snd].
  unfold mbind at 1, M_bind at 1, bind at 1. rewrite UnmarshalJSON_run.
  destruct (json_Unmarshal data).2; by destruct w.
Qed.

(** One synchronisation step writes a clock reading or nothing. *)
Lemma sync_step op w :
  is_sync op = true →
  lastUpdated (client (perform json_Unmarshal op w)) = lastUpdated (client w)
  ∨ lastUpdated (client (perform json_Unmarshal op w)) ∈ readings op.
Proof.
  destruct op as [all now|now1 recent now2|upd now|data|read]; simpl; try done; intros _.
  - rewrite FullSync_lastUpdated. destruct all.2; [by left|right]. set_solver.
  - rewrite Update_lastUpdated. destruct (recent _).2; [by left|right]. set_solver.
  - rewrite applyLiveUpdates_lastUpdated. right. set_solver.
Qed.

Lemma sync_timeline_sorted ops w :
  forallb is_sync ops = true →
  StronglySorted Z.le (lastUpdated (client w) :: (ops ≫= readings)) →
  Sorted Z.le (lastUpdated (client w) :: timeline json_Unmarshal ops w).
Proof.
  revert w. induction ops as [|op ops IH]; intros w Hsync Hclock; simpl.
  - repeat constructor.
  - simpl in Hsync. apply andb_true_iff in Hsync as [Hop Hops].
    simpl in Hclock. apply StronglySorted_inv in Hclock as [Hrest Hfirst].
    rewrite Forall_app in Hfirst. destruct Hfirst as [Hfirst_op Hfirst_ops].
    pose proof (StronglySorted_app_1_r _ _ _ Hrest) as Hrest_ops.
    assert (StronglySorted Z.le
              (lastUpdated (client (perform json_Unmarshal op w)) :: (ops ≫= readings)))
      as Hnext.
    { destruct (sync_step op w Hop) as [->|Hin].
      - by constructor.
      - constructor; [done|]. apply Forall_forall. intros t Ht.
        by apply (StronglySorted_app_1_elem_of _ _ _ _ _ Hrest). }
    constructor; [by apply IH|]. constructor.
    destruct (sync_step op w Hop) as [->|Hin]; [lia|].
    rewrite Forall_forall in Hfirst_op. by apply Hfirst_op.
Qed.

End Timeline.

(** C5, as the code has it.  Along any sequence of [FullSync], [Update] and
    live updates whose clock readings never go back and are not before the
    [lastUpdated] the sequence starts from, [lastUpdated] never decreases.
    A load, by [UnmarshalJSON] or [ReadCacheFrom], puts the time of the
    snapshot in its place, whatever the two are. *)
Theorem lastUpdated_never_decreases_between_loads
    (json_Unmarshal : string → save * option error)
    (ops : list operation) (w : World) (data : string) :
  (forallb is_sync ops = true →
   StronglySorted Z.le (lastUpdated (client w) :: (ops ≫= readings)) →
   Sorted Z.le (lastUpdated (client w) :: timeline json_Unmarshal ops w))
  ∧ ((json_Unmarshal data).2 = None →
     lastUpdated (client (world_of (UnmarshalJSON json_Unmarshal data w))) =
       LastUpdated (json_Unmarshal data).1
     ∧ lastUpdated (client (world_of (ReadCacheFrom json_Unmarshal (data, None) w))) =
       LastUpdated (json_Unmarshal data).1).
Proof.
  split; [apply sync_timeline_sorted|].
  intros Hok. rewrite UnmarshalJSON_run, ReadCacheFrom_run, Hok. done.
Qed.

(** A full sync, a live update and an incremental update in 2025. *)
Lemma lastUpdated_never_decreases_between_loads_witness :
  let ops := [OpFullSync (["a"], None) Example.in_2025;
              OpLiveUpdate (mkDomainUpdate true ["b"]) (Example.in_2025 + 5);
              OpUpdate (Example.in_2025 + 7) (λ _, ([], Some "timeout")) (Example.in_2025 + 8);
              OpUpdate (Example.in_2025 + 9) (λ _, ([], None)) (Example.in_2025 + 9)] in
  Sorted Z.le (lastUpdated (client New) :: timeline Example.json_Unmarshal ops New)
  ∧ lastUpdated (client (world_of (UnmarshalJSON Example.json_Unmarshal Example.text New))) =
      Example.saved_at.
Proof.
  intros ops.
  pose proof (lastUpdated_never_decreases_between_loads Example.json_Unmarshal ops New
                Example.text) as [Hsync Hload].
  split.
  - apply Hsync; [reflexivity|].
    repeat (constructor; [|repeat (constructor; [by vm_compute|]); constructor]);
      constructor.
  - apply Hload. reflexivity.
Defined.

(** Where [lastUpdated] goes back: a client synced in 2025 loads a snapshot
    of 2001. *)
Lemma lastUpdated_goes_back_on_load :
  let w := perform Example.json_Unmarshal (OpFullSync (["a"], None) Example.in_2025) New in
  lastUpdated (client w) = Example.in_2025
  ∧ timeline Example.json_Unmarshal
      [OpFullSync (["a"], None) Example.in_2025; OpUnmarshalJSON Example.text] New =
    [Example.in_2025; Example.saved_at]
  ∧ timeline Example.json_Unmarshal
      [OpFullSync (["a"], None) Example.in_2025; OpReadCacheFrom (Example.text, None)] New =
    [Example.in_2025; Example.saved_at]
  ∧ Example.saved_at < Example.in_2025.
Proof. repeat split; reflexivity. Qed.

(** ** The snapshot, saved and loaded *)

Section RoundTrip.

Variable json_Marshal : save → string * option error.
Variable json_Unmarshal : string → save * option error.

(** What the proof takes from [encoding/json]: a value of type [save] whose
    strings are valid UTF-8, once marshalled without error, is unmarshalled
    to itself. *)
Hypothesis json_round_trip : ∀ sf data,
  Forall (λ d, utf8_valid d = true) (SaveDomains sf) →
  json_Marshal sf = (data, None) →
  json_Unmarshal data = (sf, None).

Lemma append_each (visit acc : list string) :
  foldl (λ ds d, ds ++ [d]) acc visit = acc ++ visit.
Proof.
  revert acc. induction visit as [|d visit IH]; intros acc; simpl.
  - by rewrite app_nil_r.
  - by rewrite IH, <- app_assoc.
Qed.

Lemma MarshalJSON_run visit w :
  MarshalJSON json_Marshal visit w =
    (Returned (json_Marshal (mkSave (lastUpdated (client w)) visit)), w,
     [EvLock; EvUnlock]).
Proof.
  unfold MarshalJSON. rewrite locked_run, get_client_bind, append_each. done.
Qed.

(** C9. The bytes that [MarshalJSON] produces for a client, in whatever
    order the map was visited, load with [UnmarshalJSON], and with
    [ReadCacheFrom], into the same membership and the same [lastUpdated],
    whatever the loading client held.  (An empty cache included; the
    domains are UTF-8 strings, as the data model has them.) *)
Theorem snapshot_round_trip (w target : World) (visit : list string) (data : string) :
  visit ≡ₚ elements (members (client w)) →
  (∀ d, d ∈ members (client w) → utf8_valid d = true) →
  result (MarshalJSON json_Marshal visit w) = Returned (data, None) →
  let r := UnmarshalJSON json_Unmarshal data target in
  let r' := ReadCacheFrom json_Unmarshal (data, None) target in
  (result r = Returned None
   ∧ members (client (world_of r)) = members (client w)
   ∧ lastUpdated (client (world_of r)) = lastUpdated (client w))
  ∧ (result r' = Returned None
     ∧ members (client (world_of r')) = members (client w)
     ∧ lastUpdated (client (world_of r')) = lastUpdated (client w)).
Proof.
  intros Hvisit Hvalid Hsaved r r'.
  rewrite MarshalJSON_run in Hsaved. unfold result in Hsaved. cbn [fst] in Hsaved.
  injection Hsaved as Hsaved.
  apply json_round_trip in Hsaved as Hloaded.
  - subst r r'. rewrite UnmarshalJSON_run, ReadCacheFrom_run, Hloaded.
    cbn [fst snd SaveDomains LastUpdated].
    assert (dMap_of visit = members (client w)) as ->.
    { rewrite dMap_of_list_to_set. apply set_eq. intros d.
      rewrite elem_of_list_to_set, Hvisit. apply elem_of_elements. }
    done.
  - cbn. apply Forall_forall. intros d Hd. apply Hvalid.
    apply elem_of_elements. by rewrite <- Hvisit.
Qed.

End RoundTrip.

Lemma Example_json_round_trip sf data :
  Forall (λ d, utf8_valid d = true) (SaveDomains sf) →
  Example.json_Marshal sf = (data, None) →
  Example.json_Unmarshal data = (sf, None).
Proof.
  intros _. unfold Example.json_Marshal, Example.json_Unmarshal.
  destruct (decide (sf = Example.snapshot)) as [->|]; [|done].
  intros [= <-]. by rewrite decide_True.
Qed.

(** The snapshot of the examples, saved from one client and loaded into
    another that was synced later and with other domains. *)
Lemma snapshot_round_trip_witness :
  let w := mkWorld (mkClient (Some {["bad.example"; "worse.example"]}) Example.saved_at
                      false None None) [] in
  let target := mkWorld (mkClient (Some {["other.example"]}) Example.in_2025
                           false None None) [] in
  result (MarshalJSON Example.json_Marshal ["bad.example"; "worse.example"] w) =
    Returned (Example.text, None)
  ∧ members (client (world_of (UnmarshalJSON Example.json_Unmarshal Example.text target))) =
      members (client w)
  ∧ lastUpdated (client (world_of (UnmarshalJSON Example.json_Unmarshal Example.text target))) =
      Example.saved_at.
Proof.
  intros w target.
  assert (result (MarshalJSON Example.json_Marshal ["bad.example"; "worse.example"] w) =
          Returned (Example.text, None)) as Hsaved by reflexivity.
  split; [done|].
  change (members (client w)) with ({["bad.example"; "worse.example"]} : gset string) in *.
  assert (["bad.example"; "worse.example"] ≡ₚ
          elements ({["bad.example"; "worse.example"]} : gset string)) as Hvisit.
  { apply NoDup_Permutation.
    - by apply NoDup_cons_2; [set_solver|apply NoDup_singleton].
    - apply NoDup_elements.
    - intros d. rewrite elem_of_elements. set_solver. }
  assert (∀ d, d ∈ ({["bad.example"; "worse.example"]} : gset string) →
               utf8_valid d = true) as Hvalid.
  { intros d Hd. apply elem_of_union in Hd as [Hd|Hd];
      apply elem_of_singleton in Hd; by subst d. }
  destruct (snapshot_round_trip Example.json_Marshal Example.json_Unmarshal
              Example_json_round_trip w target _ _ Hvisit Hvalid Hsaved)
    as [(_ & Hmembers & Hlast) _].
  done.
Defined.

(** ** The orchestrator *)

Lemma bind_result_cases {A B} (m : M A) (k : A → M B) w :
  (∃ msg, result ((m ≫= k) w) = Panicked msg ∧ result (m w) = Panicked msg)
  ∨ (∃ a, result (m w) = Returned a ∧ result ((m ≫= k) w) = result (k a (world_of (m w)))).
Proof.
  unfold mbind, M_bind, bind, result, world_of.
  destruct (m w) as [[[a|msg] w1] t1]; cbn [fst snd].
  - right. exists a. split; [done|]. by destruct (k a w1) as [[r w2] t2].
  - left. by exists msg.
Qed.

Lemma Update_result_error now1 recent now2 w e :
  result (Update now1 recent now2 w) = Returned (Some e) →
  ∃ seconds, (recent seconds).2 = Some e.
Proof.
  intros Hres. exists (Update_window now1 w).
  destruct (recent (Update_window now1 w)).2 as [err|] eqn:Herr.
  - rewrite (Update_failure_run _ _ _ _ err Herr) in Hres. by injection Hres as ->.
  - exfalso. revert Hres. unfold Update.
    rewrite locked_run, get_client_bind, emit_bind.
    fold (Update_window now1 w). rewrite Herr.
    unfold result at 1 2. cbn [fst].
    repeat (match goal with
            | |- result ((?m ≫= ?k) ?w0) = _ → _ =>
                destruct (bind_result_cases m k w0) as [(? & -> & _)|(? & _ & ->)];
                [done|]
            end).
    done.
Qed.

Lemma FullSync_result_error all now w e :
  result (FullSync all now w) = Returned (Some e) → all.2 = Some e.
Proof.
  destruct all as [ds [err|]]; [by intros [= ->]|].
  rewrite FullSync_success_run. unfold result at 1. cbn [fst].
  by destruct (result (sendUpdate _)).
Qed.

(** With [stream] nil, an error that the loop returns is one of [Update] or
    [FullSync]. *)
Lemma AutoSync_loop_error schedule st w e :
  stream st = None →
  result (AutoSync_loop schedule st w) = Returned (Exited (Some e)) →
  Exists (sync_error e) schedule.
Proof.
  revert st w. induction schedule as [|s rest IH]; intros st w Hnil; [done|].
  destruct s as [cancel|upd|err| |now|now1 recent now2|all now| |]; simpl.
  - destruct (feed st); try done.
    destruct (bind_result_cases (checkStreaming cancel)
                (λ err : option error,
                   match err with
                   | Some e0 =>
                       AutoSync_loop rest
                         (mkSession (stream st) (modChan st) (FeederSending (Some e0)))
                   | None =>
                       emit (EvTransport CallFeed) ;;
                       AutoSync_loop rest (mkSession (stream st) (modChan st) FeederInFeed)
                   end) w) as [(msg & -> & _)|(a & _ & ->)]; [done|].
    destruct a as [e0|].
    + intros H. right. eapply IH; [|exact H]. exact Hnil.
    + rewrite emit_bind. unfold result at 1. cbn [fst].
      intros H. right. eapply IH; [|exact H]. exact Hnil.
  - destruct (feed st); try done.
    destruct (chan_send (modChan st) upd); [|done].
    intros H. right. eapply IH; [|exact H]. exact Hnil.
  - destruct (feed st); try done.
    destruct (bind_result_cases endStreaming
                (λ _, AutoSync_loop rest
                        (mkSession (stream st) (modChan st) (FeederSending err))) w)
      as [(msg & -> & _)|(a & _ & ->)]; [done|].
    intros H. right. eapply IH; [|exact H]. exact Hnil.
  - destruct (feed st); try done. by rewrite Hnil.
  - destruct (chan_recv (modChan st)) as [[[upd|] ch]|]; try done.
    destruct (bind_result_cases (applyLiveUpdates upd now)
                (λ _, AutoSync_loop rest (mkSession (stream st) ch (feed st))) w)
      as [(msg & -> & _)|(a & _ & ->)]; [done|].
    intros H. right. eapply IH; [|exact H]. exact Hnil.
  - destruct (bind_result_cases (Update now1 recent now2)
                (λ err : option error,
                   match err with
                   | Some e0 => mret (Exited (Some e0))
                   | None => AutoSync_loop rest st
                   end) w) as [(msg & -> & _)|(a & Ha & ->)]; [done|].
    destruct a as [e0|].
    + intros [= ->]. left. by eapply Update_result_error.
    + intros H. right. eapply IH; [|exact H]. exact Hnil.
  - destruct (bind_result_cases (FullSync all now)
                (λ err : option error,
                   match err with
                   | Some e0 => mret (Exited (Some e0))
                   | None => AutoSync_loop rest st
                   end) w) as [(msg & -> & _)|(a & Ha & ->)]; [done|].
    destruct a as [e0|].
    + intros [= ->]. left. by eapply FullSync_result_error.
    + intros H. right. eapply IH; [|exact H]. exact Hnil.
  - by rewrite Hnil.
  - done.
Qed.

(** The two closures of [listenForUpdates]. *)
Lemma endStreaming_run w :
  endStreaming w =
    (Returned tt,
     mkWorld (set_cancelFunc None (set_streaming false (client w))) (chans w),
     EvLock :: cancellation (client w) ++ [EvUnlock]).
Proof.
  unfold endStreaming, cancellation. unfold_M. cbn [client chans set_streaming cancelFunc].
  by destruct (cancelFunc (client w)).
Qed.

Lemma checkStreaming_run cancel w :
  streaming (client w) = false →
  checkStreaming cancel w = (Returned None, in_session cancel w, [EvLock; EvUnlock]).
Proof.
  intros Hoff. unfold checkStreaming, in_session. unfold_M. by rewrite Hoff.
Qed.

Lemma checkStreaming_busy cancel w :
  streaming (client w) = true →
  checkStreaming cancel w = (Returned (Some errAlreadyListening), w, [EvLock; EvUnlock]).
Proof.
  intros Hon. unfold checkStreaming. unfold_M. rewrite Hon. by destruct w.
Qed.

(** ** The goroutine of [AutoSync] on its own *)

Lemma FullSync_split all now :
  FullSync all now = (emit (EvTransport CallAll) ;; FullSync_answer all now).
Proof. reflexivity. Qed.

Lemma bind_assoc {A B C} (m : M A) (k : A → M B) (h : B → M C) w :
  ((m ≫= k) ≫= h) w = (m ≫= λ a, k a ≫= h) w.
Proof.
  unfold mbind, M_bind, bind. destruct (m w) as [[[a|msg] w1] t1]; [|done].
  destruct (k a w1) as [[[b|msg] w2] t2]; [|done].
  destruct (h b w2) as [[r w3] t3]. by rewrite app_assoc.
Qed.

Lemma bind_ext {A B} (m : M A) (k k' : A → M B) w :
  (∀ a w', k a w' = k' a w') → (m ≫= k) w = (m ≫= k') w.
Proof.
  intros Hk. unfold mbind, M_bind, bind. destruct (m w) as [[[a|msg] w1] t1]; [|done].
  by rewrite Hk.
Qed.

(** The moves of the goroutine are those of the loop. *)
Lemma AutoSync_loop_after_moves moves rest st w :
  forallb is_move moves = true →
  AutoSync_loop (moves ++ rest) st w = after_moves moves st (AutoSync_loop rest) w.
Proof.
  unfold after_moves. revert st w.
  induction moves as [|s moves IH]; intros st w Hmoves.
  { cbn [app feeder_moves]. rewrite (bind_returned _ _ w (Some st) w []) by done.
    cbn [app]. apply run_eta. }
  cbn [forallb] in Hmoves. apply andb_true_iff in Hmoves as [Hs Hmoves].
  destruct s as [cancel|upd|err| |now|now1 recent now2|all now| |]; try done;
    cbn [app AutoSync_loop feeder_moves].
  - destruct (feed st); try done.
    rewrite bind_assoc. apply bind_ext. intros [e|] w'; [by apply IH|].
    rewrite bind_assoc. apply bind_ext. intros _ w''. by apply IH.
  - destruct (feed st); try done.
    destruct (chan_send (modChan st) upd); [|done]. by apply IH.
  - destruct (feed st); try done.
    rewrite bind_assoc. apply bind_ext. intros _ w'. by apply IH.
  - destruct (feed st); try done.
    destruct (chan_send (stream st) err); [|done]. by apply IH.
Qed.

(** The goroutine does not panic, and leaves [stream] nil. *)
Lemma feeder_moves_returns moves st w :
  ∃ o, result (feeder_moves moves st w) = Returned o
       ∧ ∀ st', o = Some st' → stream st = None → stream st' = None.
Proof.
  revert st w. induction moves as [|s moves IH]; intros st w.
  { exists (Some st). split; [done|]. by intros st' [= <-]. }
  destruct s as [cancel|upd|err| |now|now1 recent now2|all now| |];
    cbn [feeder_moves]; try (by exists None).
  - destruct (feed st); try (by exists None).
    destruct (streaming (client w)) eqn:Hw.
    + rewrite (bind_returned _ _ _ _ _ _ (checkStreaming_busy cancel w Hw)).
      unfold result at 1. cbn [fst].
      edestruct IH as (o & Ho & Hnil). exists o. split; [exact Ho|exact Hnil].
    + rewrite (bind_returned _ _ _ _ _ _ (checkStreaming_run cancel w Hw)), emit_bind.
      unfold result at 1 2. cbn [fst].
      edestruct IH as (o & Ho & Hnil). exists o. split; [exact Ho|exact Hnil].
  - destruct (feed st); try (by exists None).
    destruct (chan_send (modChan st) upd); [|by exists None].
    edestruct IH as (o & Ho & Hnil). exists o. split; [exact Ho|exact Hnil].
  - destruct (feed st); try (by exists None).
    rewrite (bind_returned _ _ _ _ _ _ (endStreaming_run w)).
    unfold result at 1. cbn [fst].
    edestruct IH as (o & Ho & Hnil). exists o. split; [exact Ho|exact Hnil].
  - destruct (feed st); try (by exists None).
    destruct (chan_send (stream st) err) as [ch|] eqn:Hsend; [|by exists None].
    destruct (IH (mkSession (chan_close ch) (modChan st) FeederDone) w) as (o & Ho & _).
    exists o. split; [done|]. intros st' _ Hnil. by rewrite Hnil in Hsend.
Qed.

(** How a run goes on after moves of the goroutine. *)
Lemma after_moves_run moves st k w :
  let m := feeder_moves moves st w in
  (result m = Returned None ∧ after_moves moves st k w = (Returned Impossible, world_of m, trace m))
  ∨ (∃ st', result m = Returned (Some st')
            ∧ (stream st = None → stream st' = None)
            ∧ after_moves moves st k w =
                (result (k st' (world_of m)), world_of (k st' (world_of m)),
                 trace m ++ trace (k st' (world_of m)))).
Proof.
  cbv zeta. destruct (feeder_moves_returns moves st w) as ([st'|] & Ho & Hnil).
  - right. exists st'. split; [done|]. split; [by apply Hnil|].
    unfold after_moves.
    rewrite (bind_returned _ _ w (Some st') (world_of (feeder_moves moves st w))
               (trace (feeder_moves moves st w))); [done|].
    rewrite (run_eta (feeder_moves moves st w)) at 1. by rewrite Ho.
  - left. split; [done|].
    unfold after_moves.
    rewrite (bind_returned _ _ w None (world_of (feeder_moves moves st w))
               (trace (feeder_moves moves st w))).
    + by rewrite app_nil_r.
    + rewrite (run_eta (feeder_moves moves st w)) at 1. by rewrite Ho.
Qed.

Lemma after_moves_cases moves st k w :
  (result (after_moves moves st k w) = Returned Impossible
   ∧ world_of (after_moves moves st k w) = world_of (feeder_moves moves st w)
   ∧ trace (after_moves moves st k w) = trace (feeder_moves moves st w))
  ∨ (∃ st', (stream st = None → stream st' = None)
            ∧ result (after_moves moves st k w) =
                result (k st' (world_of (feeder_moves moves st w)))
            ∧ world_of (after_moves moves st k w) =
                world_of (k st' (world_of (feeder_moves moves st w)))
            ∧ trace (after_moves moves st k w) =
                trace (feeder_moves moves st w)
                  ++ trace (k st' (world_of (feeder_moves moves st w)))).
Proof.
  destruct (after_moves_run moves st k w) as [[_ ->]|(st' & _ & Hnil & ->)].
  - by left.
  - right. by exists st'.
Qed.

Lemma emit_bind_result {B} e (k : unit → M B) w :
  result ((emit e ≫= k) w) = result (k tt w).
Proof. by rewrite emit_bind. Qed.

Lemma emit_bind_world {B} e (k : unit → M B) w :
  world_of ((emit e ≫= k) w) = world_of (k tt w).
Proof. by rewrite emit_bind. Qed.

Lemma emit_bind_trace {B} e (k : unit → M B) w :
  trace ((emit e ≫= k) w) = e :: trace (k tt w).
Proof. by rewrite emit_bind. Qed.

Lemma bind_returned_result {A B} (m : M A) (k : A → M B) w a w1 t1 :
  m w = (Returned a, w1, t1) → result ((m ≫= k) w) = result (k a w1).
Proof. intros Hm. by rewrite (bind_returned _ _ _ _ _ _ Hm). Qed.

Lemma bind_returned_world {A B} (m : M A) (k : A → M B) w a w1 t1 :
  m w = (Returned a, w1, t1) → world_of ((m ≫= k) w) = world_of (k a w1).
Proof. intros Hm. by rewrite (bind_returned _ _ _ _ _ _ Hm). Qed.

Lemma checkStreaming_preserves_cache cancel : preserves cache (checkStreaming cancel).
Proof.
  intros w. destruct (streaming (client w)) eqn:Hw.
  - by rewrite (checkStreaming_busy _ _ Hw).
  - by rewrite (checkStreaming_run _ _ Hw).
Qed.

Lemma endStreaming_preserves_cache : preserves cache endStreaming.
Proof. intros w. by rewrite endStreaming_run. Qed.

Lemma feeder_moves_preserves_cache moves st : preserves cache (feeder_moves moves st).
Proof.
  revert st. induction moves as [|s moves IH]; intros st; [by intros w|].
  destruct s as [cancel|upd|err| |now|now1 recent now2|all now| |];
    cbn [feeder_moves]; try (by intros w).
  - destruct (feed st); try (by intros w).
    apply preserves_bind; [apply checkStreaming_preserves_cache|].
    intros [e|]; [apply IH|]. apply preserves_bind; [by intros w|]. intros _. apply IH.
  - destruct (feed st); try (by intros w).
    destruct (chan_send (modChan st) upd); [apply IH|by intros w].
  - destruct (feed st); try (by intros w).
    apply preserves_bind; [apply endStreaming_preserves_cache|]. intros _. apply IH.
  - destruct (feed st); try (by intros w).
    destruct (chan_send (stream st) err); [apply IH|by intros w].
Qed.

Lemma notifier_ok_cache w w' : cache w' = cache w → notifier_ok w' = notifier_ok w.
Proof. unfold cache, notifier_ok. by intros [= _ _ -> ->]. Qed.

Lemma FullSync_answer_result_error all now w e :
  result (FullSync_answer all now w) = Returned (Some e) → all.2 = Some e.
Proof.
  intros Hres. apply (FullSync_result_error all now w).
  rewrite FullSync_split, emit_bind. exact Hres.
Qed.

Lemma FullSync_answer_success_run ds now w :
  FullSync_answer (ds, None) now w =
    (match result (sendUpdate (synced ds now w)) with
     | Returned _ => Returned None
     | Panicked msg => Panicked msg
     end,
     world_of (sendUpdate (synced ds now w)),
     EvLock :: trace (sendUpdate (synced ds now w)) ++ [EvUnlock]).
Proof.
  pose proof (FullSync_success_run ds now w) as Hrun.
  rewrite FullSync_split, emit_bind in Hrun. injection Hrun as Hres Hworld Htrace.
  rewrite (run_eta (FullSync_answer (ds, None) now w)). by rewrite Hres, Hworld, Htrace.
Qed.

Lemma feeder_moves_listen cancel st w :
  feed st = FeederStarting →
  streaming (client w) = false →
  feeder_moves [GoListen cancel] st w =
    (Returned (Some (mkSession (stream st) (modChan st) FeederInFeed)), in_session cancel w,
     [EvLock; EvUnlock; EvTransport CallFeed]).
Proof.
  intros Hfeed Hoff. cbn [feeder_moves]. rewrite Hfeed.
  rewrite (bind_returned _ _ _ _ _ _ (checkStreaming_run cancel w Hoff)).
  by rewrite emit_bind.
Qed.

(** C7, against the code.  An error of [Update] or of a periodic [FullSync]
    ends the loop at once and is what [AutoSync] returns, and cancellation
    ends it with nil.  An error of the live feed is never returned: the
    goroutine sends it on [stream], which is nil, so the send waits for
    ever and the case [err := <-stream] is never ready; every error that
    [AutoSync] returns is one of [FullSync] or [Update], whatever the
    goroutine does before, during and after the first [FullSync].  With a
    feed that fails at once, be it while the first [FullSync] is under way,
    the loop goes on until it is cancelled, and returns nil.  And with an
    interval that is not positive the [select] dereferences the ticker that
    was not made. *)
Theorem AutoSync_never_returns_the_feed_error :
  (∀ realtime recentInterval fullSyncInterval before all during now schedule w e,
     result (AutoSync realtime recentInterval fullSyncInterval before all during now
               schedule w) = Returned (Exited (Some e)) →
     all.2 = Some e ∨ Exists (sync_error e) schedule)
  ∧ (∀ st w now1 recent now2 rest e,
       (recent (Update_window now1 w)).2 = Some e →
       result (AutoSync_loop (SelectRecent now1 recent now2 :: rest) st w) =
         Returned (Exited (Some e)))
  ∧ (∀ st w ds now rest e,
       result (AutoSync_loop (SelectFull (ds, Some e) now :: rest) st w) =
         Returned (Exited (Some e)))
  ∧ (∀ st w rest, result (AutoSync_loop (SelectDone :: rest) st w) = Returned (Exited None))
  ∧ (let failed := Some "failed to WebSocket dial" in
     let quiet := λ _ : Z, ([], None) in
     result (AutoSync true Second Minute [] (["a"], None) [] Example.in_2025
               [GoListen 1%nat; GoFeedEnds failed;
                SelectRecent (Example.in_2025 + Second) quiet (Example.in_2025 + Second);
                SelectDone] New) = Returned (Exited None)
     ∧ result (AutoSync true Second Minute [] (["a"], None)
                 [GoListen 1%nat; GoFeedEnds failed] Example.in_2025
                 [SelectRecent (Example.in_2025 + Second) quiet (Example.in_2025 + Second);
                  SelectDone] New) = Returned (Exited None)
     ∧ result (AutoSync true Second Minute [] (["a"], None) [] Example.in_2025
                 [GoListen 1%nat; GoFeedEnds failed; GoSend] New) = Returned Impossible
     ∧ result (AutoSync true Second Minute [] (["a"], None)
                 [GoListen 1%nat; GoFeedEnds failed; GoSend] Example.in_2025 [] New) =
         Returned Impossible
     ∧ result (AutoSync true Second Minute [] (["a"], None) [] Example.in_2025
                 [GoListen 1%nat; GoFeedEnds failed; SelectStream] New) = Returned Impossible)
  ∧ result (AutoSync false 0 Minute [] (["a"], None) [] Example.in_2025 [SelectDone] New) =
      Panicked "invalid memory address or nil pointer dereference".
Proof.
  split; [|split; [|split; [|split; [|split]]]].
  - intros realtime recentInterval fullSyncInterval before all during now schedule w e.
    unfold AutoSync.
    match goal with
    | |- result (after_moves ?mv ?st ?k ?w0) = _ → _ =>
        destruct (after_moves_run mv st k w0) as [[_ ->]|(st1 & _ & Hnil1 & ->)]; [done|]
    end.
    unfold result at 1. cbn [fst]. rewrite emit_bind. unfold result at 1. cbn [fst].
    match goal with
    | |- result (after_moves ?mv ?st ?k ?w0) = _ → _ =>
        destruct (after_moves_run mv st k w0) as [[_ ->]|(st2 & _ & Hnil2 & ->)]; [done|]
    end.
    unfold result at 1. cbn [fst].
    match goal with
    | |- result ((?m ≫= ?k) ?w0) = _ → _ =>
        destruct (bind_result_cases m k w0) as [(msg & -> & _)|(a & Ha & ->)]; [done|]
    end.
    destruct a as [e0|].
    + intros [= ->]. left. by eapply FullSync_answer_result_error.
    + destruct ((0 <? recentInterval) && (0 <? fullSyncInterval)).
      * intros H. right. eapply AutoSync_loop_error; [|exact H]. by apply Hnil2, Hnil1.
      * match goal with
        | |- result (after_moves ?mv ?st ?k ?w0) = _ → _ =>
            by destruct (after_moves_run mv st k w0) as [[_ ->]|(st3 & _ & _ & ->)]
        end.
  - intros st w now1 recent now2 rest e Herr. simpl.
    unfold mbind, M_bind, bind, result. by rewrite (Update_failure_run _ _ _ _ e Herr).
  - done.
  - done.
  - by vm_compute.
  - by vm_compute.
Qed.

(** An [Update] that times out while the feed is running. *)
Lemma AutoSync_never_returns_the_feed_error_witness :
  let timeout := λ _ : Z, ([], Some "context deadline exceeded") in
  let schedule := [GoRecord (mkDomainUpdate true ["b"]);
                   SelectMod (Example.in_2025 + 5);
                   SelectRecent (Example.in_2025 + Second) timeout (Example.in_2025 + Second)] in
  result (AutoSync true Second Minute [] (["a"], None) [GoListen 1%nat] Example.in_2025
            schedule New) =
    Returned (Exited (Some "context deadline exceeded"))
  ∧ Exists (sync_error "context deadline exceeded") schedule.
Proof.
  intros timeout schedule.
  assert (result (AutoSync true Second Minute [] (["a"], None) [GoListen 1%nat]
                    Example.in_2025 schedule New) =
          Returned (Exited (Some "context deadline exceeded"))) as Hrun by (by vm_compute).
  split; [done|].
  destruct AutoSync_never_returns_the_feed_error as (Herrors & _).
  by destruct (Herrors _ _ _ _ _ _ _ _ _ _ Hrun).
Defined.

(** * Further properties *)

(** ** The variants of a name *)

Lemma Join_cons e rest sep :
  rest ≠ [] → Join (e :: rest) sep = e +:+ sep +:+ Join rest sep.
Proof. by destruct rest. Qed.

Lemma Join_Split s sep : Join (Split s sep) (String sep EmptyString) = s.
Proof.
  induction s as [|ch rest IH]; [done|].
  cbn [Split]. destruct (Ascii.eqb_spec ch sep) as [->|Hne].
  - rewrite Join_cons by apply Split_nonempty. by rewrite IH.
  - pose proof (Split_nonempty rest sep) as Hparts.
    destruct (Split rest sep) as [|p ps]; [done|].
    destruct ps as [|q ps]; cbn in *; by rewrite <- IH.
Qed.

Lemma length_Split_no_separator s sep :
  contains sep s = false → length (Split s sep) = 1%nat.
Proof. intros H. by rewrite (Split_no_separator _ _ H). Qed.

Lemma length_Split_separator s sep :
  contains sep s = true → (2 ≤ length (Split s sep))%nat.
Proof.
  induction s as [|ch rest IH]; [done|]. cbn [contains Split].
  destruct (Ascii.eqb_spec ch sep) as [->|Hne]; cbn [orb].
  - intros _. pose proof (Split_nonempty rest sep).
    destruct (Split rest sep); [done|]. cbn. lia.
  - intros H. specialize (IH H). destruct (Split rest sep); cbn in *; lia.
Qed.

(** How the variants of a name follow from those of the name without its
    first byte. *)
Lemma generateVariants_step ch rest :
  generateVariants (String ch rest) =
    if Ascii.eqb ch "." then String ch rest :: generateVariants rest
    else if contains "." rest then String ch rest :: tail (generateVariants rest)
         else [].
Proof.
  rewrite !generateVariants_spec. unfold variants_spec.
  pose proof (Join_Split rest ".") as Hjoin.
  pose proof (Split_nonempty rest ".") as Hparts.
  cbn [Split]. destruct (Ascii.eqb_spec ch ".") as [->|Hne].
  - cbn [length]. replace (S (length (Split rest ".")) - 1)%nat
      with (S (length (Split rest ".") - 1)).
    2:{ destruct (Split rest "."); [done|]. cbn. lia. }
    cbn [seq fmap list_fmap drop]. rewrite Join_cons by done. rewrite Hjoin.
    f_equal. rewrite <- fmap_S_seq, <- list_fmap_compose. done.
  - destruct (contains "." rest) eqn:Hdot.
    + apply length_Split_separator in Hdot.
      destruct (Split rest ".") as [|p ps]; [done|].
      destruct ps as [|q ps]; [cbn in Hdot; lia|].
      cbn [length Nat.sub]. cbn [seq fmap list_fmap drop tail].
      f_equal.
      * rewrite <- Hjoin. reflexivity.
      * rewrite <- !fmap_S_seq, <- !list_fmap_compose. done.
    + rewrite (Split_no_separator _ _ Hdot). done.
Qed.

Lemma generateVariants_head domain :
  generateVariants domain =
    if contains "." domain then domain :: tail (generateVariants domain) else [].
Proof.
  destruct domain as [|ch rest]; [done|].
  rewrite generateVariants_step. cbn [contains].
  destruct (Ascii.eqb ch "."); cbn [orb tail]; [done|].
  by destruct (contains "." rest).
Qed.

Lemma append_nil_l (s : string) : EmptyString +:+ s = s.
Proof. reflexivity. Qed.

Lemma append_cons_l (c : ascii) (s t : string) : String c s +:+ t = String c (s +:+ t).
Proof. reflexivity. Qed.

Lemma contains_app ch s1 s2 :
  contains ch (s1 +:+ s2) = contains ch s1 || contains ch s2.
Proof.
  induction s1 as [|c s1 IH]; [done|].
  change (contains ch (String c s1 +:+ s2)) with (Ascii.eqb c ch || contains ch (s1 +:+ s2)).
  rewrite IH. cbn [contains]. by rewrite orb_assoc.
Qed.

Lemma generateVariants_tail domain v :
  v ∈ tail (generateVariants domain) ↔
  contains "." v = true ∧ ∃ pre, domain = pre +:+ "." +:+ v.
Proof.
  induction domain as [|ch rest IH].
  - cbn. split; [by intros ?%elem_of_nil|]. intros [_ [pre H]]. by destruct pre.
  - rewrite generateVariants_step. destruct (Ascii.eqb_spec ch ".") as [->|Hne].
    + cbn [tail]. rewrite (generateVariants_head rest).
      split.
      * destruct (contains "." rest) eqn:Hdot; [|by intros ?%elem_of_nil].
        intros [->|Hin]%elem_of_cons.
        -- split; [done|]. by exists EmptyString.
        -- apply IH in Hin as [Hv [pre ->]]. split; [done|].
           by exists (String "." pre).
      * intros [Hv [pre Hpre]]. destruct pre as [|c pre].
        -- rewrite append_nil_l, append_cons_l, append_nil_l in Hpre.
           injection Hpre as ->. rewrite Hv. by left.
        -- rewrite append_cons_l in Hpre. injection Hpre as <- ->.
           assert (contains "." (pre +:+ "." +:+ v) = true) as ->.
           { rewrite !contains_app. cbn. by rewrite orb_true_r. }
           right. apply IH. split; [done|]. by exists pre.
    + destruct (contains "." rest) eqn:Hdot; cbn [tail].
      * rewrite IH. split; intros [Hv [pre Hpre]]; (split; [done|]).
        -- exists (String ch pre). by rewrite append_cons_l, Hpre.
        -- destruct pre as [|c pre].
           ++ rewrite append_nil_l, append_cons_l in Hpre. congruence.
           ++ rewrite append_cons_l in Hpre. injection Hpre as <- ->. by exists pre.
      * split; [by intros ?%elem_of_nil|]. intros [Hv [pre Hpre]].
        destruct pre as [|c pre].
        -- rewrite append_nil_l, append_cons_l in Hpre. congruence.
        -- rewrite append_cons_l in Hpre. injection Hpre as <- ->.
           rewrite !contains_app in Hdot. cbn in Hdot.
           by rewrite orb_true_r in Hdot.
Qed.

Lemma generateVariants_elem domain v :
  v ∈ generateVariants domain ↔ contains "." v = true ∧ dot_suffix v domain.
Proof.
  rewrite generateVariants_head. unfold dot_suffix.
  destruct (contains "." domain) eqn:Hdot.
  - rewrite elem_of_cons, generateVariants_tail. split.
    + intros [->|[Hv Hpre]]; [by split; [|left]|by split; [|right]].
    + intros [Hv [->|Hpre]]; [by left|by right].
  - split; [by intros ?%elem_of_nil|]. intros [Hv [->|[pre ->]]]; [congruence|].
    rewrite !contains_app in Hdot.
    rewrite Hv in Hdot. by rewrite !orb_true_r in Hdot.
Qed.

Lemma upto_first_member_elem (s : gset string) (vs : list string) (v : string) :
  v ∈ upto_first_member s vs → v ∈ vs.
Proof.
  induction vs as [|u vs IH]; cbn; [done|].
  destruct (bool_decide (u ∈ s)).
  - intros ->%list_elem_of_singleton. by left.
  - intros [->|Hin]%elem_of_cons; [by left|right; by apply IH].
Qed.

Lemma FuzzyCheck_run domain w :
  FuzzyCheck domain w =
    (Returned (bool_decide (Exists (λ v, v ∈ members (client w)) (generateVariants domain))),
     w,
     upto_first_member (members (client w)) (generateVariants domain)
       ≫= λ v, [EvLock; EvLookup v; EvUnlock]).
Proof. unfold FuzzyCheck. apply FuzzyCheck_range_run. Qed.

(** X1. The names [FuzzyCheck] tries are the input and what follows each of
    its dots, as long as the name tried still has a dot in it: the last label
    alone is never looked up.  [FuzzyCheck] answers true exactly when the
    cache holds such a name. *)
Theorem FuzzyCheck_matches_dotted_suffixes (domain : string) (w : World) :
  (∀ v, v ∈ generateVariants domain ↔ contains "." v = true ∧ dot_suffix v domain)
  ∧ (result (FuzzyCheck domain w) = Returned true ↔
       ∃ v, v ∈ members (client w) ∧ contains "." v = true ∧ dot_suffix v domain)
  ∧ (∀ v, v ∈ lookups (trace (FuzzyCheck domain w)) →
       contains "." v = true ∧ dot_suffix v domain).
Proof.
  split; [apply generateVariants_elem|]. rewrite FuzzyCheck_run.
  unfold result, trace. cbn [fst snd]. split.
  - split.
    + intros [= H]. apply bool_decide_eq_true_1 in H.
      apply Exists_exists in H as (v & Hv & Hin).
      exists v. split; [done|]. by apply generateVariants_elem.
    + intros (v & Hin & Hv). f_equal. apply bool_decide_eq_true_2.
      apply Exists_exists. exists v. split; [|done]. by apply generateVariants_elem.
  - intros v. rewrite lookups_of_checks. intros Hv%upto_first_member_elem.
    by apply generateVariants_elem.
Qed.

(** X2. A cached name with a dot in it is found by [FuzzyCheck] at the first
    lookup when it is the input itself, and flags every name that ends with a
    dot followed by it. *)
Theorem FuzzyCheck_flags_a_cached_name_and_its_subdomains
    (domain : string) (w : World) :
  contains "." domain = true →
  result (Check domain w) = Returned true →
  (result (FuzzyCheck domain w) = Returned true
   ∧ lookups (trace (FuzzyCheck domain w)) = [domain])
  ∧ (∀ pre, result (FuzzyCheck (pre +:+ "." +:+ domain) w) = Returned true).
Proof.
  intros Hdot. rewrite Check_run. unfold result at 1. cbn [fst].
  intros [= Hin%bool_decide_eq_true_1]. split.
  - rewrite FuzzyCheck_run. unfold result, trace. cbn [fst snd].
    rewrite lookups_of_checks, generateVariants_head, Hdot. cbn [upto_first_member].
    rewrite (bool_decide_eq_true_2 _ Hin). split; [|done].
    f_equal. apply bool_decide_eq_true_2. by left.
  - intros pre. rewrite FuzzyCheck_run. unfold result. cbn [fst]. f_equal.
    apply bool_decide_eq_true_2, Exists_exists. exists domain. split; [|done].
    apply generateVariants_elem. split; [done|]. right. by exists pre.
Qed.

(** A cache that holds ["bad.example"]. *)
Lemma FuzzyCheck_flags_a_cached_name_and_its_subdomains_witness :
  let w := mkWorld (mkClient (Some {["bad.example"]}) 0 false None None) [] in
  contains "." "bad.example" = true
  ∧ result (Check "bad.example" w) = Returned true
  ∧ lookups (trace (FuzzyCheck "bad.example" w)) = ["bad.example"]
  ∧ result (FuzzyCheck "login.bad.example" w) = Returned true.
Proof.
  intros w.
  destruct (FuzzyCheck_flags_a_cached_name_and_its_subdomains "bad.example" w)
    as [[_ Hone] Hsub]; [reflexivity|reflexivity|].
  split; [reflexivity|]. split; [reflexivity|]. split; [exact Hone|].
  exact (Hsub "login").
Defined.

(** ** The listing queries *)

Lemma Size_run w :
  Size w = (Returned (Z.of_nat (size (members (client w)))), w, [EvLock; EvUnlock]).
Proof. by destruct w. Qed.

Lemma Client_Domains_run visit w :
  Client_Domains visit w = (Returned visit, w, [EvLock; EvUnlock]).
Proof.
  unfold Client_Domains. rewrite locked_run.
  unfold mret, M_ret, ret, result, world_of, trace. cbn [fst snd].
  by rewrite append_each.
Qed.

(** X3. [Domains], [Size] and [Check] agree: the list that [Domains] returns
    holds each cached domain once and nothing else, its length is what
    [Size] returns, and its elements are the names for which [Check] answers
    true; neither call changes anything.  (The order is the one in which the
    map hands out its keys.) *)
Theorem Domains_Size_and_Check_agree (w : World) (visit : list string) :
  visit ≡ₚ elements (members (client w)) →
  result (Client_Domains visit w) = Returned visit
  ∧ world_of (Client_Domains visit w) = w
  ∧ world_of (Size w) = w
  ∧ NoDup visit
  ∧ result (Size w) = Returned (Z.of_nat (length visit))
  ∧ (∀ d, d ∈ visit ↔ result (Check d w) = Returned true).
Proof.
  intros Hvisit. rewrite Client_Domains_run, Size_run.
  split; [done|]. split; [done|]. split; [done|]. split; [|split].
  - rewrite Hvisit. apply NoDup_elements.
  - unfold result. cbn [fst]. by rewrite Hvisit.
  - intros d. rewrite Check_run. unfold result. cbn [fst].
    rewrite Hvisit, elem_of_elements. split.
    + intros Hin. by rewrite bool_decide_eq_true_2.
    + by intros [= Hin%bool_decide_eq_true_1].
Qed.

(** A cache of two domains, listed in the other order. *)
Lemma Domains_Size_and_Check_agree_witness :
  let w := mkWorld (mkClient (Some {["a.example"; "b.example"]}) 0 false None None) [] in
  ["b.example"; "a.example"] ≡ₚ elements (members (client w))
  ∧ result (Size w) = Returned 2.
Proof.
  intros w.
  assert (["b.example"; "a.example"] ≡ₚ elements (members (client w))) as Hvisit.
  { apply NoDup_Permutation.
    - by apply NoDup_cons_2; [set_solver|apply NoDup_singleton].
    - apply NoDup_elements.
    - intros d. rewrite elem_of_elements. unfold w, members. cbn. set_solver. }
  split; [exact Hvisit|].
  exact (proj1 (proj2 (proj2 (proj2 (proj2
    (Domains_Size_and_Check_agree w ["b.example"; "a.example"] Hvisit)))))).
Defined.

(** X4. After a successful [FullSync], [Size] is the number of distinct
    domains of the answer: the length of the answer when no domain is
    repeated in it, and never more. *)
Theorem Size_after_FullSync_counts_distinct_domains
    (w : World) (ds : list string) (now : Time) :
  let w' := world_of (FullSync (ds, None) now w) in
  result (Size w') = Returned (Z.of_nat (length (remove_dups ds)))
  ∧ (∀ n, result (Size w') = Returned n → 0 ≤ n ≤ Z.of_nat (length ds))
  ∧ (result (Size w') = Returned (Z.of_nat (length ds)) ↔ NoDup ds).
Proof.
  intros w'. rewrite Size_run. unfold result. cbn [fst].
  assert (members (client w') = list_to_set ds) as ->.
  { unfold w'. rewrite FullSync_success_run. unfold world_of at 1. cbn [fst snd].
    rewrite sendUpdate_client. unfold members, synced. cbn.
    by rewrite dMap_of_list_to_set. }
  assert (size (list_to_set (C := gset string) ds) = length (remove_dups ds)) as Hsize.
  { rewrite <- (size_list_to_set (C := gset string) (remove_dups ds))
      by apply NoDup_remove_dups.
    f_equal. apply set_eq. intros d.
    by rewrite !elem_of_list_to_set, elem_of_remove_dups. }
  rewrite Hsize.
  assert (length (remove_dups ds) ≤ length ds)%nat as Hle.
  { clear. induction ds as [|d ds IH]; cbn; [done|].
    destruct (decide_rel elem_of d ds); cbn; lia. }
  split; [done|]. split.
  - intros n [= <-]. lia.
  - split.
    + intros [= Heq]. apply Nat2Z.inj in Heq.
      clear -Heq. induction ds as [|d ds IH]; [constructor|].
      cbn in Heq. destruct (decide_rel elem_of d ds) as [Hin|Hout].
      * assert (length (remove_dups ds) ≤ length ds)%nat.
        { clear. induction ds as [|d ds IH]; cbn; [done|].
          destruct (decide_rel elem_of d ds); cbn; lia. }
        lia.
      * cbn in Heq. constructor; [done|]. apply IH. lia.
    + intros Hnodup. f_equal. f_equal.
      clear -Hnodup. induction Hnodup as [|d ds Hout _ IH]; [done|].
      cbn. destruct (decide_rel elem_of d ds) as [Hin|_]; [done|]. cbn. by rewrite IH.
Qed.

(** ** Closing a client *)

Lemma Close_run w :
  Close w =
    match updateChan (client w) with
    | None =>
        (Panicked "close of nil channel",
         mkWorld (set_domains None (client w)) (chans w),
         EvLock :: cancellation (client w) ++ [EvUnlock])
    | Some p =>
        match chans w !! p with
        | None =>
            (Panicked "invalid memory address or nil pointer dereference",
             mkWorld (set_domains None (client w)) (chans w),
             EvLock :: cancellation (client w) ++ [EvUnlock])
        | Some ch =>
            if chan_closed ch
            then (Panicked "close of closed channel",
                  mkWorld (set_domains None (client w)) (chans w),
                  EvLock :: cancellation (client w) ++ [EvUnlock])
            else (Returned None,
                  mkWorld (set_updateChan None (set_domains None (client w)))
                    (<[p := mkChan (chan_cap ch) (chan_len ch) true]> (chans w)),
                  EvLock :: cancellation (client w) ++ [EvUnlock])
        end
    end.
Proof.
  unfold Close, close_chan, cancellation. unfold_M. cbn [client chans].
  destruct (cancelFunc (client w)) as [f|]; cbn [client chans fst snd app];
    (destruct (updateChan (client w)) as [p|]; [|done]);
    cbn [client chans];
    (destruct (chans w !! p) as [ch|]; [|done]);
    by destruct (chan_closed ch).
Qed.

(** X5. [Close] on a client that has no notification channel (no call of
    [UpdateChannel] before, or a [Close] before) panics on closing the nil
    channel: by then the running session has been told to stop and the map
    has been dropped, and the mutex is released on the way out.  So [Close]
    of a client just built panics, and two calls of [Close] in a row never
    both return. *)
Theorem Close_without_notification_channel_panics :
  (∀ w, updateChan (client w) = None →
     Close w =
       (Panicked "close of nil channel",
        mkWorld (set_domains None (client w)) (chans w),
        EvLock :: cancellation (client w) ++ [EvUnlock]))
  ∧ result (Close New) = Panicked "close of nil channel"
  ∧ (∀ w, ∃ msg, result ((Close ;; Close) w) = Panicked msg).
Proof.
  assert (∀ w, updateChan (client w) = None →
     Close w =
       (Panicked "close of nil channel",
        mkWorld (set_domains None (client w)) (chans w),
        EvLock :: cancellation (client w) ++ [EvUnlock])) as Hnil.
  { intros w Hnone. by rewrite Close_run, Hnone. }
  split; [done|]. split; [done|].
  intros w.
  destruct (bind_result_cases Close (λ _, Close) w) as [(msg & -> & _)|(a & Ha & ->)];
    [by exists msg|].
  exists "close of nil channel". rewrite Hnil; [done|].
  revert Ha. rewrite Close_run. unfold result, world_of.
  destruct (updateChan (client w)) as [p|]; [|done].
  destruct (chans w !! p) as [ch|]; [|done].
  by destruct (chan_closed ch).
Qed.

(** A client in a session and without a subscriber. *)
Lemma Close_without_notification_channel_panics_witness :
  let w := mkWorld (mkClient (Some {["bad.example"]}) 5 true (Some 3%nat) None) [] in
  updateChan (client w) = None
  ∧ Close w = (Panicked "close of nil channel",
               mkWorld (mkClient None 5 true (Some 3%nat) None) [],
               [EvLock; EvCancel 3%nat; EvUnlock]).
Proof.
  split; [reflexivity|].
  destruct Close_without_notification_channel_panics as (Hnil & _).
  apply (Hnil (mkWorld (mkClient (Some {["bad.example"]}) 5 true (Some 3%nat) None) [])).
  reflexivity.
Defined.

(** X6. [Close] on a client whose notification channel is open returns nil:
    the cancellation function of the running session is called (and stays in
    place, as does [streaming]), the channel is closed and forgotten, and the
    map is nil, so that afterwards [Check] and [FuzzyCheck] answer false for
    every name and [Size] is 0. *)
Theorem Close_drops_the_cache_and_closes_the_channel
    (w : World) (p : nat) (ch : Chan) :
  updateChan (client w) = Some p →
  chans w !! p = Some ch →
  chan_closed ch = false →
  let r := Close w in
  result r = Returned None
  ∧ client (world_of r) =
      mkClient None (lastUpdated (client w)) (streaming (client w))
        (cancelFunc (client w)) None
  ∧ chans (world_of r) = <[p := mkChan (chan_cap ch) (chan_len ch) true]> (chans w)
  ∧ trace r = EvLock :: cancellation (client w) ++ [EvUnlock]
  ∧ (∀ d, result (Check d (world_of r)) = Returned false)
  ∧ (∀ d, result (FuzzyCheck d (world_of r)) = Returned false)
  ∧ result (Size (world_of r)) = Returned 0.
Proof.
  intros Hp Hch Hopen r. subst r. rewrite Close_run, Hp, Hch, Hopen.
  unfold result at 1, world_of, trace. cbn [fst snd client chans].
  split; [done|]. split; [done|]. split; [done|]. split; [done|].
  split; [|split].
  - intros d. by rewrite Check_run.
  - intros d. rewrite FuzzyCheck_run. unfold result. cbn [fst]. f_equal.
    apply bool_decide_eq_false_2. intros (v & _ & Hv)%Exists_exists.
    unfold members in Hv. cbn in Hv. set_solver.
  - by rewrite Size_run.
Qed.

(** A synced client in a session, with a subscriber that has one
    notification to read. *)
Lemma Close_drops_the_cache_and_closes_the_channel_witness :
  let w := mkWorld (mkClient (Some {["bad.example"]}) 5 true (Some 3%nat) (Some 0%nat))
             [mkChan 2 1 false] in
  result (Check "bad.example" w) = Returned true
  ∧ Close w = (Returned None, mkWorld (mkClient None 5 true (Some 3%nat) None) [mkChan 2 1 true],
               [EvLock; EvCancel 3%nat; EvUnlock])
  ∧ result (Check "bad.example" (world_of (Close w))) = Returned false.
Proof.
  intros w.
  destruct (Close_drops_the_cache_and_closes_the_channel w 0%nat (mkChan 2 1 false))
    as (_ & _ & _ & _ & Hcheck & _); [reflexivity|reflexivity|reflexivity|].
  split; [reflexivity|]. split; [reflexivity|]. apply Hcheck.
Defined.

(** ** Merging into a nil map *)

Lemma set_domains_same c : set_domains (domains c) c = c.
Proof. by destruct c. Qed.

Lemma world_eta w : mkWorld (client w) (chans w) = w.
Proof. by destruct w. Qed.

Lemma applyMod_range_nil add ds w :
  domains (client w) = None →
  applyMod_range add ds w =
    (if add && negb (bool_decide (ds = []))
     then Panicked "assignment to entry in nil map" else Returned tt, w, []).
Proof.
  intros Hnil. induction ds as [|d ds IH]; cbn [applyMod_range].
  - rewrite bool_decide_eq_true_2 by done. by rewrite andb_false_r.
  - rewrite bool_decide_eq_false_2 by done. rewrite andb_true_r.
    unfold mbind, M_bind, bind, applyMod_domain at 1. unfold_M.
    destruct add; cbn [fst snd].
    + by rewrite Hnil.
    + rewrite Hnil. cbn [fmap option_fmap option_map].
      rewrite <- Hnil at 1. rewrite set_domains_same, world_eta, IH. done.
Qed.

Lemma applyMod_nil upd w :
  domains (client w) = None →
  applyMod upd w =
    (if writes upd then Panicked "assignment to entry in nil map" else Returned tt, w, []).
Proof. intros Hnil. unfold applyMod, writes. by apply applyMod_range_nil. Qed.

Lemma applyMods_nil mods w :
  domains (client w) = None →
  applyMods mods w =
    (if existsb writes mods
     then Panicked "assignment to entry in nil map" else Returned tt, w, []).
Proof.
  intros Hnil. induction mods as [|upd mods IH]; [done|].
  cbn [applyMods existsb]. unfold mbind, M_bind, bind.
  rewrite (applyMod_nil _ _ Hnil). destruct (writes upd); [done|].
  cbn [orb]. rewrite IH. by destruct (existsb writes mods).
Qed.

(** X7. On a client whose map is nil (after [Close]), a record that adds at
    least one domain makes the merge panic with an assignment to an entry in
    a nil map: [applyLiveUpdates] and [Update] have by then written the clock
    reading to [lastUpdated], no notification is sent, and the mutex is
    released on the way out.  Records that delete, and records without
    domains, pass and leave the map nil. *)
Theorem merging_into_a_nil_map_panics_on_the_first_addition (w : World) :
  domains (client w) = None →
  (∀ upd now,
     let r := applyLiveUpdates upd now w in
     (writes upd = true →
        r = (Panicked "assignment to entry in nil map",
             mkWorld (set_lastUpdated now (client w)) (chans w), [EvLock; EvUnlock]))
     ∧ (writes upd = false →
          domains (client (world_of r)) = None
          ∧ (notifier_ok w = true → result r = Returned tt)))
  ∧ (∀ now1 recent now2,
       let r := Update now1 recent now2 w in
       (recent (Update_window now1 w)).2 = None →
       (existsb writes (recent (Update_window now1 w)).1 = true →
          result r = Panicked "assignment to entry in nil map"
          ∧ world_of r = mkWorld (set_lastUpdated now2 (client w)) (chans w)
          ∧ last (trace r) = Some EvUnlock)
       ∧ (existsb writes (recent (Update_window now1 w)).1 = false →
            domains (client (world_of r)) = None
            ∧ lastUpdated (client (world_of r)) = now2
            ∧ (notifier_ok w = true → result r = Returned None))).
Proof.
  intros Hnil. split.
  - intros upd now r. subst r. unfold applyLiveUpdates.
    rewrite locked_run, modify_client_bind.
    set (w1 := mkWorld (set_lastUpdated now (client w)) (chans w)).
    assert (domains (client w1) = None) as Hnil1 by done.
    unfold mbind, M_bind, bind. rewrite (applyMod_nil _ _ Hnil1).
    split.
    + intros ->. done.
    + intros ->. pose proof (sendUpdate_client w1) as Hc.
      pose proof (sendUpdate_returns w1) as Hr.
      unfold result, world_of, trace in *.
      destruct (sendUpdate w1) as [[res w2] t]. cbn [fst snd] in *.
      rewrite Hc. split; [done|]. intros Hok. by rewrite Hr.
  - intros now1 recent now2 r Hok. subst r. unfold Update.
    rewrite locked_run, get_client_bind, emit_bind.
    fold (Update_window now1 w). rewrite Hok. rewrite modify_client_bind.
    set (w1 := mkWorld (set_lastUpdated now2 (client w)) (chans w)).
    assert (domains (client w1) = None) as Hnil1 by done.
    set (mods := (recent (Update_window now1 w)).1).
    set (k := λ _ : (), (if (0 <? length mods)%nat then sendUpdate else mret ())
                         ≫= λ _ : (), mret (None : option error)).
    assert ((applyMods mods ≫= k) w1 =
            if existsb writes mods
            then (Panicked "assignment to entry in nil map", w1, [])
            else k tt w1) as Hbody.
    { unfold mbind at 1, M_bind at 1, bind at 1. rewrite (applyMods_nil _ _ Hnil1).
      destruct (existsb writes mods); [done|]. by destruct (k tt w1) as [[? ?] ?]. }
    change ((applyMods mods ≫= _) w1) with ((applyMods mods ≫= k) w1).
    rewrite Hbody. split.
    + intros ->. unfold result, world_of, trace. cbn [fst snd]. done.
    + intros ->. unfold result at 1 2, world_of at 1 2 3 4. cbn [fst snd].
      unfold k. destruct (0 <? length mods)%nat; [|done].
      pose proof (sendUpdate_client w1) as Hc.
      pose proof (sendUpdate_returns w1) as Hr.
      unfold mbind, M_bind, bind, result, world_of, trace in *.
      clear Hbody. unfold mret, M_ret, ret.
      destruct (sendUpdate w1) as [[[u|msg] w2] t]; cbn [fst snd] in *;
        rewrite Hc; (split; [done|]); (split; [done|]); intros Hnot; [done|].
      by specialize (Hr Hnot).
Qed.

(** A closed client and a record that adds a domain. *)
Lemma merging_into_a_nil_map_panics_on_the_first_addition_witness :
  let w := mkWorld (mkClient None 5 false None None) [] in
  domains (client w) = None
  ∧ applyLiveUpdates (mkDomainUpdate true ["bad.example"]) 9 w =
      (Panicked "assignment to entry in nil map",
       mkWorld (mkClient None 9 false None None) [], [EvLock; EvUnlock]).
Proof.
  intros w. split; [reflexivity|].
  destruct (merging_into_a_nil_map_panics_on_the_first_addition w) as [Hlive _];
    [reflexivity|].
  destruct (Hlive (mkDomainUpdate true ["bad.example"]) 9) as [Hpanic _].
  by apply Hpanic.
Defined.

(** ** A live update and the queries *)

Lemma applyLiveUpdates_allocated upd now w s :
  domains (client w) = Some s →
  client (world_of (applyLiveUpdates upd now w)) =
    set_domains (Some (merge_batch s upd)) (set_lastUpdated now (client w)).
Proof.
  intros Hs. unfold applyLiveUpdates. rewrite locked_run, modify_client_bind.
  unfold world_of at 1. cbn [fst snd].
  erewrite bind_returned; [|by apply (applyMod_allocated upd _ s)].
  unfold world_of at 1. cbn [fst snd]. by rewrite sendUpdate_client.
Qed.

(** X8. After a live update has been applied to an allocated map, [Check]
    answers for each domain of the record what the record says (true for an
    addition, false for a deletion) and for every other name what it
    answered before; the same record applied once more changes nothing. *)
Theorem live_update_decides_Check_for_its_domains
    (w : World) (s : gset string) (upd : DomainUpdate) (now : Time) :
  domains (client w) = Some s →
  let w1 := world_of (applyLiveUpdates upd now w) in
  (∀ d, result (Check d w1) =
          if bool_decide (d ∈ Domains upd) then Returned (Add upd)
          else result (Check d w))
  ∧ (∀ now', members (client (world_of (applyLiveUpdates upd now' w1))) = members (client w1)).
Proof.
  intros Hs w1.
  assert (client w1 = set_domains (Some (merge_batch s upd)) (set_lastUpdated now (client w)))
    as Hw1 by (by apply applyLiveUpdates_allocated).
  split.
  - intros d. rewrite !Check_run. unfold result. cbn [fst].
    rewrite Hw1. unfold members. rewrite Hs. cbn. unfold merge_batch.
    destruct (bool_decide_reflect (d ∈ Domains upd)) as [Hin|Hout];
      destruct (Add upd); f_equal.
    + apply bool_decide_eq_true_2. set_solver.
    + apply bool_decide_eq_false_2. set_solver.
    + apply bool_decide_ext. set_solver.
    + apply bool_decide_ext. set_solver.
  - intros now'.
    rewrite (applyLiveUpdates_allocated upd now' w1 (merge_batch s upd))
      by (by rewrite Hw1).
    rewrite Hw1. unfold members, merge_batch. cbn.
    destruct (Add upd); set_solver.
Qed.

(** A record that deletes one cached domain and one that is not cached. *)
Lemma live_update_decides_Check_for_its_domains_witness :
  let w := mkWorld (mkClient (Some {["a.example"; "b.example"]}) 5 false None None) [] in
  let w1 := world_of (applyLiveUpdates (mkDomainUpdate false ["a.example"; "c.example"]) 9 w) in
  domains (client w) = Some {["a.example"; "b.example"]}
  ∧ result (Check "a.example" w1) = Returned false
  ∧ result (Check "b.example" w1) = Returned true.
Proof.
  intros w w1.
  destruct (live_update_decides_Check_for_its_domains w {["a.example"; "b.example"]}
              (mkDomainUpdate false ["a.example"; "c.example"]) 9) as [Hcheck _];
    [reflexivity|].
  split; [reflexivity|]. split.
  - exact (Hcheck "a.example").
  - exact (Hcheck "b.example").
Defined.

(** ** Who is notified, and how often *)

Lemma notify_client w : client (notify w) = client w.
Proof. apply sendUpdate_client. Qed.

Lemma sendUpdate_run w p ch :
  updateChan (client w) = Some p → chans w !! p = Some ch → chan_closed ch = false →
  sendUpdate w =
    (Returned tt,
     mkWorld (client w)
       (if (chan_len ch <? chan_cap ch)%nat
        then <[p := mkChan (chan_cap ch) (S (chan_len ch)) false]> (chans w)
        else chans w),
     []).
Proof.
  intros Hp Hch Hopen. unfold sendUpdate, send_or_skip. unfold_M. simpl.
  rewrite Hp, Hch, Hopen.
  destruct (chan_len ch <? chan_cap ch)%nat; [done|]. by destruct w.
Qed.

Lemma notify_subscriber w ch :
  subscriber w = Some ch → chan_closed ch = false →
  subscriber (notify w) = Some (notify_chan ch).
Proof.
  unfold subscriber at 1. destruct (updateChan (client w)) as [p|] eqn:Hp; [|done].
  cbn [mbind option_bind]. intros Hch Hopen.
  unfold notify. rewrite (sendUpdate_run w p ch Hp Hch Hopen).
  unfold subscriber, world_of, notify_chan. cbn [fst snd client chans]. rewrite Hp.
  cbn [mbind option_bind].
  destruct (chan_len ch <? chan_cap ch)%nat; [|done].
  rewrite Hopen. rewrite list_lookup_insert_eq; [done|]. by eapply lookup_lt_Some.
Qed.

Lemma notify_chan_open ch : chan_closed (notify_chan ch) = chan_closed ch.
Proof. unfold notify_chan. by destruct (chan_len ch <? chan_cap ch)%nat. Qed.

Lemma notify_chan_cap ch : chan_cap (notify_chan ch) = chan_cap ch.
Proof. unfold notify_chan. by destruct (chan_len ch <? chan_cap ch)%nat. Qed.

Lemma notify_chan_iter_open n ch :
  chan_closed (Nat.iter n notify_chan ch) = chan_closed ch.
Proof. induction n as [|n IH]; [done|]. by rewrite Nat.iter_succ, notify_chan_open. Qed.

Lemma notify_chan_iter_cap n ch : chan_cap (Nat.iter n notify_chan ch) = chan_cap ch.
Proof. induction n as [|n IH]; [done|]. by rewrite Nat.iter_succ, notify_chan_cap. Qed.

Lemma notify_chan_iter_len n ch :
  (chan_len ch ≤ chan_cap ch)%nat →
  chan_len (Nat.iter n notify_chan ch) = ((chan_len ch + n) `min` chan_cap ch)%nat.
Proof.
  intros Hle. induction n as [|n IH].
  - cbn. lia.
  - rewrite Nat.iter_succ. unfold notify_chan at 1. rewrite notify_chan_iter_cap, IH.
    destruct (Nat.ltb_spec ((chan_len ch + n) `min` chan_cap ch)%nat (chan_cap ch)); cbn; lia.
Qed.

Lemma subscriber_notifier_ok w ch :
  subscriber w = Some ch → chan_closed ch = false → notifier_ok w = true.
Proof.
  unfold subscriber, notifier_ok. destruct (updateChan (client w)) as [p|]; [|done].
  cbn. by intros -> ->.
Qed.

Lemma subscriber_merged s now w : subscriber (merged s now w) = subscriber w.
Proof. done. Qed.

Lemma subscriber_synced ds now w : subscriber (synced ds now w) = subscriber w.
Proof. done. Qed.

(** X9. With a subscriber whose channel is open, [FullSync] attempts one
    notification whenever it succeeds, also when the answer is what the
    cache held; [Update] attempts one when the answer holds at least one
    record, also when the records change nothing, and none when the answer
    is empty, although [lastUpdated] moves in both cases.  An attempt adds
    one pending notification unless the buffer is full. *)
Theorem sync_notifies_once_unless_the_answer_is_empty
    (w : World) (s : gset string) (ch : Chan) :
  domains (client w) = Some s →
  subscriber w = Some ch →
  chan_closed ch = false →
  (∀ ds now, subscriber (world_of (FullSync (ds, None) now w)) = Some (notify_chan ch))
  ∧ (∀ now1 recent now2,
       (recent (Update_window now1 w)).2 = None →
       let r := Update now1 recent now2 w in
       subscriber (world_of r) =
         Some (if bool_decide ((recent (Update_window now1 w)).1 = []) then ch
               else notify_chan ch)
       ∧ lastUpdated (client (world_of r)) = now2).
Proof.
  intros Hs Hsub Hopen. split.
  - intros ds now. rewrite FullSync_success_run. unfold world_of at 1. cbn [fst snd].
    fold (notify (synced ds now w)). by apply notify_subscriber.
  - intros now1 recent now2 Hok r.
    destruct (Update_success_state now1 recent now2 w s Hok Hs) as [Hworld _].
    cbv zeta in Hworld. fold r in Hworld. rewrite Hworld.
    destruct (recent (Update_window now1 w)).1 as [|upd mods]; cbn [length Nat.ltb Nat.leb].
    + rewrite bool_decide_eq_true_2 by done. done.
    + rewrite bool_decide_eq_false_2 by done.
      fold (notify (merged (merge_batches s (upd :: mods)) now2 w)).
      rewrite notify_client. split; [|done]. by apply notify_subscriber.
Qed.

(** A subscriber with one notification to read and room for one more. *)
Lemma sync_notifies_once_unless_the_answer_is_empty_witness :
  let w := mkWorld (mkClient (Some {["a.example"]}) 5 false None (Some 0%nat))
             [mkChan 2 1 false] in
  domains (client w) = Some {["a.example"]}
  ∧ subscriber w = Some (mkChan 2 1 false)
  ∧ subscriber (world_of (FullSync (["a.example"], None) 9 w)) = Some (mkChan 2 2 false).
Proof.
  intros w.
  destruct (sync_notifies_once_unless_the_answer_is_empty w {["a.example"]} (mkChan 2 1 false))
    as [Hfull _]; [reflexivity|reflexivity|reflexivity|].
  split; [reflexivity|]. split; [reflexivity|].
  exact (Hfull ["a.example"] 9).
Defined.

(** ** The records of a live session *)

Lemma applyLiveUpdates_run upd now w s :
  domains (client w) = Some s →
  notifier_ok w = true →
  applyLiveUpdates upd now w =
    (Returned tt, notify (merged (merge_batch s upd) now w), [EvLock; EvUnlock]).
Proof.
  intros Hs Hok. unfold applyLiveUpdates. rewrite locked_run, modify_client_bind.
  assert (applyMod upd (mkWorld (set_lastUpdated now (client w)) (chans w)) =
          (Returned tt, merged (merge_batch s upd) now w, [])) as Hmerge
    by (by rewrite (applyMod_allocated upd _ s)).
  rewrite (bind_returned _ _ _ _ _ _ Hmerge).
  unfold result at 1, world_of at 1, trace at 1. cbn [fst snd].
  rewrite sendUpdate_trace, sendUpdate_returns by done. done.
Qed.

Lemma notify_notifier_ok w : notifier_ok w = true → notifier_ok (notify w) = true.
Proof. apply sendUpdate_notifier_ok. Qed.

(** ** The life of a session *)

Lemma listenForUpdates_run cancel feed w :
  streaming (client w) = false →
  listenForUpdates cancel feed w =
    (result (feed (in_session cancel w)),
     mkWorld (set_cancelFunc None
                (set_streaming false (client (world_of (feed (in_session cancel w))))))
       (chans (world_of (feed (in_session cancel w)))),
     [EvLock; EvUnlock; EvTransport CallFeed] ++ trace (feed (in_session cancel w))
       ++ EvLock :: cancellation (client (world_of (feed (in_session cancel w))))
       ++ [EvUnlock]).
Proof.
  intros Hoff. unfold listenForUpdates.
  unfold mbind at 1, M_bind at 1, bind at 1. rewrite (checkStreaming_run _ _ Hoff).
  unfold deferring. rewrite emit_bind.
  unfold result, world_of, trace.
  destruct (feed (in_session cancel w)) as [[res w1] t]. cbn [fst snd].
  rewrite endStreaming_run. cbn [app]. by rewrite <- ?app_assoc.
Qed.

(** X11. A session on a client that is not streaming opens the feed with the
    session registered, and however the feed ends (an error, nil or a
    panic) the registration is taken back on the way out: [streaming] is
    false, [cancelFunc] is nil and the cancellation function then in place
    has been called under the mutex.  What [listenForUpdates] returns is what
    the feed returned, and a session started afterwards opens the feed
    again. *)
Theorem a_session_that_ends_takes_its_registration_back
    (w : World) (cancel : CancelFunc) (feed : M (option error)) :
  streaming (client w) = false →
  let f := feed (in_session cancel w) in
  let r := listenForUpdates cancel feed w in
  result r = result f
  ∧ streaming (client (world_of r)) = false
  ∧ cancelFunc (client (world_of r)) = None
  ∧ trace r =
      [EvLock; EvUnlock; EvTransport CallFeed] ++ trace f
        ++ EvLock :: cancellation (client (world_of f)) ++ [EvUnlock]
  ∧ (∀ cancel' feed',
       EvTransport CallFeed ∈ trace (listenForUpdates cancel' feed' (world_of r))).
Proof.
  intros Hoff f r. subst f r. rewrite (listenForUpdates_run _ _ _ Hoff).
  unfold result at 1, world_of at 1 2 4, trace at 1. cbn [fst snd client].
  split; [done|]. split; [done|]. split; [done|]. split; [done|].
  intros cancel' feed'. rewrite listenForUpdates_run by done.
  unfold trace at 1. cbn [snd]. set_solver.
Qed.

(** A feed that fails at once. *)
Lemma a_session_that_ends_takes_its_registration_back_witness :
  let r := listenForUpdates 4%nat (mret (Some "failed to WebSocket dial")) New in
  streaming (client New) = false
  ∧ result r = Returned (Some "failed to WebSocket dial")
  ∧ trace r = [EvLock; EvUnlock; EvTransport CallFeed; EvLock; EvCancel 4%nat; EvUnlock]
  ∧ streaming (client (world_of r)) = false.
Proof.
  intros r.
  destruct (a_session_that_ends_takes_its_registration_back New 4%nat
              (mret (Some "failed to WebSocket dial")))
    as (Hres & Hoff & _ & Htrace & _); [reflexivity|].
  split; [reflexivity|]. split; [exact Hres|]. split; [exact Htrace|exact Hoff].
Defined.

(** ** A session and the goroutine that applies its records *)

Lemma sent_cons s rest :
  sent (s :: rest) = match s with FeedSends upd => upd :: sent rest | _ => sent rest end.
Proof. by destruct s. Qed.

Lemma applied_at_cons s rest :
  applied_at (s :: rest) =
    match s with Applies now => now :: applied_at rest | _ => applied_at rest end.
Proof. by destruct s. Qed.

Lemma returned_cons s rest :
  returned (s :: rest) =
    match s with
    | FeedReturns err => Some (default err (returned rest))
    | _ => returned rest
    end.
Proof.
  destruct s; try done. unfold returned. cbn [omap list_omap].
  rewrite last_cons. by destruct (last _).
Qed.

(** Once [ListenForUpdates] has returned and the goroutine has ended,
    nothing more happens. *)
Lemma ListenForUpdates_loop_finished schedule err ch w :
  ListenForUpdates_loop schedule (mkRelaying ch (ListenerReturned err) false) w =
    (Returned (match schedule with [] => Exited err | _ => Impossible end), w, []).
Proof. by destruct schedule as [|[]]. Qed.

Lemma endStreaming_notifier_ok w :
  notifier_ok (world_of (endStreaming w)) = notifier_ok w.
Proof. by rewrite endStreaming_run. Qed.

Lemma last_cons_default {A} (x y : A) l :
  default y (last (x :: l)) = default x (last l).
Proof. rewrite last_cons. by destruct (last l). Qed.

Lemma ListenForUpdates_loop_run schedule b lst ap w s :
  domains (client w) = Some s →
  notifier_ok w = true →
  (length (pending b) ≤ room b)%nat →
  (shut b = true → lst ≠ ListenerInFeed) →
  let r := ListenForUpdates_loop schedule (mkRelaying (Some b) lst ap) w in
  let n := length (applied_at schedule) in
  let all := pending b ++ sent schedule in
  result r = Returned Impossible
  ∨ (result r =
       Returned (standing (match returned schedule with
                           | Some e => Some e
                           | None => match lst with
                                     | ListenerReturned e => Some e
                                     | ListenerInFeed => None
                                     end
                           end))
     ∧ (n ≤ length all ≤ n + room b)%nat
     ∧ domains (client (world_of r)) = Some (merge_batches s (take n all))
     ∧ lastUpdated (client (world_of r)) =
         default (lastUpdated (client w)) (last (applied_at schedule))
     ∧ streaming (client (world_of r)) =
         match returned schedule with Some _ => false | None => streaming (client w) end
     ∧ cancelFunc (client (world_of r)) =
         match returned schedule with Some _ => None | None => cancelFunc (client w) end
     ∧ updateChan (client (world_of r)) = updateChan (client w)
     ∧ (∀ ch, subscriber w = Some ch → chan_closed ch = false →
          subscriber (world_of r) = Some (Nat.iter n notify_chan ch))
     ∧ (SeesClosed ∈ schedule → n = length all)).
Proof.
  revert b lst ap w s.
  induction schedule as [|step rest IH]; intros b lst ap w s Hs Hok Hroom Hshut; cbv zeta.
  { right. cbn. rewrite app_nil_r.
    split; [by destruct lst|]. split; [lia|]. split; [done|]. split; [done|].
    split; [done|]. split; [done|]. split; [done|]. split; [done|].
    intros Hin. by apply elem_of_nil in Hin. }
  rewrite sent_cons, applied_at_cons, returned_cons.
  destruct step as [upd|err|now| |]; cbn [ListenForUpdates_loop listening relayed applying].
  - destruct lst as [|e]; [|by left].
    unfold chan_send. destruct (Nat.ltb_spec (length (pending b)) (room b)) as [Hlt|]; [|by left].
    destruct (IH (mkBuffered (pending b ++ [upd]) (room b) (shut b)) ListenerInFeed ap w s)
      as [Himp|(Hres & Hn & Hdom & Hlast & Hstr & Hcan & Hupd & Hsub & Hclosed)];
      try done.
    { cbn. rewrite length_app. cbn. lia. }
    { by left. }
    right. cbn [pending room] in *. rewrite <- app_assoc in *. cbn [app] in *.
    split; [done|]. split; [done|]. split; [done|]. split; [done|].
    split; [done|]. split; [done|]. split; [done|]. split; [done|].
    intros Hin. apply Hclosed. by apply elem_of_cons in Hin as [[=]|].
  - destruct lst as [|e]; [|by left].
    rewrite (bind_returned _ _ _ _ _ _ (endStreaming_run w)).
    set (w1 := mkWorld (set_cancelFunc None (set_streaming false (client w))) (chans w)).
    cbn [chan_close fmap option_fmap option_map].
    destruct (IH (mkBuffered (pending b) (room b) true) (ListenerReturned err) ap w1 s)
      as [Himp|(Hres & Hn & Hdom & Hlast & Hstr & Hcan & Hupd & Hsub & Hclosed)];
      try done.
    { by left. }
    right. unfold result, world_of in *. cbn [fst snd pending room] in *.
    split; [rewrite Hres; by destruct (returned rest)|]. split; [done|]. split; [done|].
    split; [done|].
    split; [rewrite Hstr; by destruct (returned rest)|].
    split; [rewrite Hcan; by destruct (returned rest)|].
    split; [done|]. split; [done|].
    intros Hin. apply Hclosed. by apply elem_of_cons in Hin as [[=]|].
  - destruct ap; [|by left].
    unfold chan_recv. destruct (pending b) as [|upd p'] eqn:Hp; [by destruct (shut b); left|].
    rewrite (bind_returned _ _ _ _ _ _ (applyLiveUpdates_run _ _ _ s Hs Hok)).
    set (w1 := notify (merged (merge_batch s upd) now w)).
    assert (client w1 = set_domains (Some (merge_batch s upd)) (set_lastUpdated now (client w)))
      as Hc1 by apply notify_client.
    assert (notifier_ok w1 = true) as Hok1 by (by apply notify_notifier_ok).
    destruct (IH (mkBuffered p' (room b) (shut b)) lst true w1 (merge_batch s upd))
      as [Himp|(Hres & Hn & Hdom & Hlast & Hstr & Hcan & Hupd & Hsub & Hclosed)];
      try done.
    { by rewrite Hc1. }
    { cbn in *. lia. }
    { by left. }
    right. unfold result, world_of in *. cbn [fst snd pending room length app] in *.
    split; [done|]. split; [lia|]. split; [done|].
    split; [rewrite Hlast, Hc1; cbn; by rewrite last_cons_default|].
    split; [by rewrite Hstr, Hc1|]. split; [by rewrite Hcan, Hc1|].
    split; [by rewrite Hupd, Hc1|].
    split.
    + intros ch Hch Hopen. rewrite Nat.iter_succ_r.
      apply Hsub; [|by rewrite notify_chan_open].
      by apply notify_subscriber.
    + intros Hin. f_equal. apply Hclosed. by apply elem_of_cons in Hin as [[=]|].
  - destruct ap; [|by left].
    unfold chan_recv. destruct (pending b) as [|upd p'] eqn:Hp; [|by left].
    destruct (shut b) eqn:Hb; [|by left].
    destruct lst as [|e]; [by destruct Hshut|].
    rewrite ListenForUpdates_loop_finished.
    destruct rest as [|step rest]; [|by left].
    right. cbn. split; [done|]. split; [lia|]. done.
  - destruct ap; [|by left].
    destruct (IH b lst false w s)
      as [Himp|(Hres & Hn & Hdom & Hlast & Hstr & Hcan & Hupd & Hsub & Hclosed)];
      try done.
    { left. by destruct b. }
    right. destruct b as [p rm sh]. cbn [pending room shut] in *.
    split; [done|]. split; [done|]. split; [done|]. split; [done|].
    split; [done|]. split; [done|]. split; [done|]. split; [done|].
    intros Hin. apply Hclosed. by apply elem_of_cons in Hin as [[=]|].
Qed.

Lemma ListenForUpdates_run cancel schedule w :
  streaming (client w) = false →
  let r := ListenForUpdates_loop schedule
             (mkRelaying (Some (mkBuffered [] 8 false)) ListenerInFeed true)
             (in_session cancel w) in
  result (ListenForUpdates cancel schedule w) = result r
  ∧ world_of (ListenForUpdates cancel schedule w) = world_of r
  ∧ trace (ListenForUpdates cancel schedule w) =
      [EvLock; EvUnlock; EvTransport CallFeed] ++ trace r.
Proof.
  intros Hoff. unfold ListenForUpdates.
  rewrite (bind_returned _ _ _ _ _ _ (checkStreaming_run cancel w Hoff)).
  by rewrite emit_bind.
Qed.

(** A session in which no record arrives is a call of [listenForUpdates]
    whose feed returns at once. *)
Lemma ListenForUpdates_without_records cancel err w :
  let r := listenForUpdates cancel (mret err) w in
  ListenForUpdates cancel [FeedReturns err] w =
    (match result r with
     | Returned e => Returned (Exited e)
     | Panicked msg => Panicked msg
     end, world_of r, trace r).
Proof.
  cbv zeta. destruct (streaming (client w)) eqn:Hw.
  - unfold ListenForUpdates, listenForUpdates.
    by rewrite !(bind_returned _ _ _ _ _ _ (checkStreaming_busy cancel w Hw)).
  - rewrite (listenForUpdates_run _ _ _ Hw). unfold ListenForUpdates.
    rewrite (bind_returned _ _ _ _ _ _ (checkStreaming_run cancel w Hw)), emit_bind.
    cbn [ListenForUpdates_loop listening].
    by rewrite (bind_returned _ _ _ _ _ _ (endStreaming_run (in_session cancel w))).
Qed.



(** X10. Every record that the goroutine applies attempts one notification,
    and an attempt on a full buffer is dropped: at every point of a session
    in which [n] records have been applied so far, the subscriber's channel,
    still open, holds the notifications it held before plus [n], capped at
    its capacity. *)
Theorem pending_notifications_are_capped_at_the_capacity
    (w : World) (s : gset string) (ch : Chan) (cancel : CancelFunc)
    (schedule : list relay_step) :
  streaming (client w) = false →
  domains (client w) = Some s →
  subscriber w = Some ch →
  chan_closed ch = false →
  (chan_len ch ≤ chan_cap ch)%nat →
  let r := ListenForUpdates cancel schedule w in
  result r ≠ Returned Impossible →
  subscriber (world_of r) =
    Some (mkChan (chan_cap ch)
            ((chan_len ch + length (applied_at schedule)) `min` chan_cap ch) false).
Proof.
  intros Hoff Hs Hsub Hopen Hle r Hrun. subst r.
  destruct (ListenForUpdates_run cancel schedule w Hoff) as (Hr & Hw & _).
  rewrite Hr in *. rewrite Hw.
  destruct (ListenForUpdates_loop_run schedule (mkBuffered [] 8 false) ListenerInFeed true
              (in_session cancel w) s)
    as [Himp|(_ & _ & _ & _ & _ & _ & _ & Hsub' & _)]; try done.
  { exact (subscriber_notifier_ok _ _ Hsub Hopen). }
  { cbn. lia. }
  rewrite (Hsub' ch Hsub Hopen). f_equal.
  pose proof (notify_chan_iter_len (length (applied_at schedule)) ch Hle) as Hlen.
  pose proof (notify_chan_iter_cap (length (applied_at schedule)) ch) as Hcap.
  pose proof (notify_chan_iter_open (length (applied_at schedule)) ch) as Hclosed.
  destruct (Nat.iter (length (applied_at schedule)) notify_chan ch) as [c l b]. cbn in *.
  rewrite Hlen, Hcap, Hclosed, Hopen. done.
Qed.

(** Three records for a subscriber that reads nothing. *)
Lemma pending_notifications_are_capped_at_the_capacity_witness :
  let w := mkWorld (mkClient (Some ∅) 0 false None (Some 0%nat)) [mkChan 2 0 false] in
  let schedule := [FeedSends (mkDomainUpdate true ["a.example"]); Applies 7;
                   FeedSends (mkDomainUpdate true ["b.example"]);
                   FeedSends (mkDomainUpdate true ["c.example"]);
                   Applies 8; Applies 9; FeedReturns None; SeesClosed] in
  subscriber w = Some (mkChan 2 0 false)
  ∧ subscriber (world_of (ListenForUpdates 4%nat schedule w)) = Some (mkChan 2 2 false).
Proof.
  intros w schedule. split; [reflexivity|].
  apply (pending_notifications_are_capped_at_the_capacity w ∅ (mkChan 2 0 false) 4%nat schedule).
  all: try reflexivity.
  all: try (cbn; lia).
  done.
Defined.

(** ** Loading, once more *)

(** X13. Loading a snapshot with [ReadCacheFrom] writes the map and
    [lastUpdated] and nothing else: no notification is sent, and the
    channels, [streaming], [cancelFunc] and [updateChan] are as before.  It
    never panics; when reading or parsing fails it returns that error
    without having taken the mutex and without any change, and when it
    succeeds the mutex was taken once, after the parsing.  [UnmarshalJSON]
    called directly never takes the mutex. *)
Theorem loading_changes_only_the_cache_and_never_notifies
    (json_Unmarshal : string → save * option error)
    (read : string * option error) (data : string) (w : World) :
  let r := ReadCacheFrom json_Unmarshal read w in
  chans (world_of r) = chans w
  ∧ streaming (client (world_of r)) = streaming (client w)
  ∧ cancelFunc (client (world_of r)) = cancelFunc (client w)
  ∧ updateChan (client (world_of r)) = updateChan (client w)
  ∧ (∃ e, result r = Returned e
        ∧ e = match read.2 with
              | Some err => Some err
              | None => (json_Unmarshal read.1).2
              end)
  ∧ (∀ err, result r = Returned (Some err) → world_of r = w ∧ trace r = [])
  ∧ (result r = Returned None → trace r = [EvLock; EvUnlock])
  ∧ trace (UnmarshalJSON json_Unmarshal data w) = [].
Proof.
  intros r. subst r. destruct read as [bytes [err|]].
  - unfold ReadCacheFrom. cbn [fst snd].
    unfold mret, M_ret, ret, result, world_of, trace. cbn [fst snd].
    split; [done|]. split; [done|]. split; [done|]. split; [done|].
    split; [by exists (Some err)|]. split; [done|]. split; [done|].
    rewrite UnmarshalJSON_run. by destruct (json_Unmarshal data).2.
  - rewrite ReadCacheFrom_run, UnmarshalJSON_run. cbn [fst snd].
    split; [by destruct (json_Unmarshal bytes).2|].
    split; [by destruct (json_Unmarshal bytes).2|].
    split; [by destruct (json_Unmarshal bytes).2|].
    split; [by destruct (json_Unmarshal bytes).2|].
    split; [destruct (json_Unmarshal bytes).2 as [e|]; [by exists (Some e)|by exists None]|].
    split; [by destruct (json_Unmarshal bytes).2|].
    split; [by destruct (json_Unmarshal bytes).2|].
    by destruct (json_Unmarshal data).2.
Qed.

(** ** Saving *)

Section Saving.

Variable json_Marshal : save → string * option error.
Context {St : Type}.

Lemma write_snapshot_run (dst : Writer St) visit s w :
  write_snapshot json_Marshal dst visit s w =
    let b := json_Marshal (mkSave (lastUpdated (client w)) visit) in
    (Returned match b.2 with
              | Some err => (Some err, s)
              | None => ((Write dst b.1 s).1.2, (Write dst b.1 s).2)
              end, w, [EvLock; EvUnlock]).
Proof.
  unfold write_snapshot. unfold mbind, M_bind, bind. rewrite MarshalJSON_run.
  cbv zeta. by destruct (json_Marshal _).2.
Qed.

Lemma WriteCacheInto_run (dst : Writer St) visit s w :
  WriteCacheInto json_Marshal dst visit s w =
    match rewind_error dst s with
    | Some err => (Returned (Some err, rewound dst s), w, [])
    | None => write_snapshot json_Marshal dst visit (rewound dst s) w
    end.
Proof.
  unfold WriteCacheInto, rewind_error, rewound.
  destruct (Seek dst) as [seek|]; [|done].
  by destruct (seek 0 0 s).1.2.
Qed.

End Saving.

(** X14. [WriteCacheInto] rewinds a writer that can seek, then takes the
    snapshot under the mutex, then writes it with one call of [Write], and
    returns the first error met: after a failed [Seek] the snapshot is not
    taken and nothing is written, after a failed [MarshalJSON] nothing is
    written, and otherwise the result is that of [Write].  The client and
    its channels are never changed. *)
Theorem WriteCacheInto_returns_the_first_error
    (json_Marshal : save → string * option error) (St : Type) (dst : Writer St)
    (visit : list string) (s : St) (w : World) :
  let r := WriteCacheInto json_Marshal dst visit s w in
  let b := json_Marshal (mkSave (lastUpdated (client w)) visit) in
  world_of r = w
  ∧ (∀ err, rewind_error dst s = Some err →
       r = (Returned (Some err, rewound dst s), w, []))
  ∧ (∀ err, rewind_error dst s = None → b.2 = Some err →
       r = (Returned (Some err, rewound dst s), w, [EvLock; EvUnlock]))
  ∧ (rewind_error dst s = None → b.2 = None →
       r = (Returned ((Write dst b.1 (rewound dst s)).1.2, (Write dst b.1 (rewound dst s)).2),
            w, [EvLock; EvUnlock])).
Proof.
  intros r b. subst r. rewrite WriteCacheInto_run.
  destruct (rewind_error dst s) as [e|].
  - repeat split; try done. by intros err [= ->].
  - rewrite write_snapshot_run. cbv zeta. fold b.
    repeat split; try done.
    + intros err _ ->. done.
    + intros _ ->. done.
Qed.

(** A file whose [Write] fails on a full disk. *)
Lemma WriteCacheInto_returns_the_first_error_witness :
  let disk_full : Writer unit :=
    mkWriter (λ _ s, ((0, Some "no space left on device"), s)) (Some (λ _ _ s, ((0, None), s))) in
  let w := mkWorld (mkClient (Some {["bad.example"; "worse.example"]}) Example.saved_at
                      false None None) [] in
  rewind_error disk_full tt = None
  ∧ WriteCacheInto Example.json_Marshal disk_full ["bad.example"; "worse.example"] tt w =
      (Returned (Some "no space left on device", tt), w, [EvLock; EvUnlock]).
Proof.
  intros disk_full w. split; [reflexivity|].
  destruct (WriteCacheInto_returns_the_first_error Example.json_Marshal unit disk_full
              ["bad.example"; "worse.example"] tt w) as (_ & _ & _ & Hwrite).
  apply Hwrite; reflexivity.
Defined.

(** ** Saving into a file *)

Lemma length_append (s1 s2 : string) :
  String.length (s1 +:+ s2) = (String.length s1 + String.length s2)%nat.
Proof. induction s1 as [|c s1 IH]; [done|]. rewrite append_cons_l. cbn. by rewrite IH. Qed.

Lemma skip_nil (n : nat) : GoFile.skip n EmptyString = EmptyString.
Proof. by destruct n. Qed.

Lemma overwrite_skip (old new : string) :
  GoFile.overwrite old new = new +:+ GoFile.skip (String.length new) old.
Proof.
  revert old. induction new as [|c new IH]; intros old; [done|].
  rewrite append_cons_l. cbn [GoFile.overwrite String.length]. rewrite IH.
  destruct old; [|done]. by rewrite !skip_nil.
Qed.

Lemma skip_all (n : nat) (s : string) :
  (String.length s ≤ n)%nat → GoFile.skip n s = EmptyString.
Proof.
  revert s. induction n as [|n IH]; intros [|c s]; cbn; try done; try lia.
  intros H. apply IH. lia.
Qed.

Lemma length_skip (n : nat) (s : string) :
  String.length (GoFile.skip n s) = (String.length s - n)%nat.
Proof.
  revert s. induction n as [|n IH]; intros [|c s]; cbn; try done; lia.
Qed.

Lemma append_nil_r (s : string) : s +:+ EmptyString = s.
Proof. induction s as [|c s IH]; [done|]. by rewrite append_cons_l, IH. Qed.

Lemma File_Seek_start f :
  GoFile.File_Seek 0 0 f = ((0, None), GoFile.mkFile (GoFile.contents f) 0).
Proof. done. Qed.

Lemma File_Write_start b old :
  GoFile.File_Write b (GoFile.mkFile old 0) =
    ((Z.of_nat (String.length b), None),
     GoFile.mkFile (b +:+ GoFile.skip (String.length b) old) (String.length b)).
Proof.
  destruct b as [|c b]; [done|].
  unfold GoFile.File_Write. cbn [GoFile.offset GoFile.contents GoFile.write_at].
  by rewrite overwrite_skip.
Qed.

(** X15. [WriteCacheInto] on a file rewinds it and writes the snapshot over
    the bytes that are there, and never truncates: what the file held
    beyond the length of the snapshot stays behind it.  So the file holds
    the snapshot exactly when it was not longer before, and a snapshot
    shorter than the one before leaves the file holding something else.  On
    a writer that cannot seek (a [bytes.Buffer]) each snapshot is appended
    to what was written before. *)
Theorem saving_into_a_file_overwrites_without_truncating
    (json_Marshal : save → string * option error)
    (visit : list string) (w : World) (b : string) :
  json_Marshal (mkSave (lastUpdated (client w)) visit) = (b, None) →
  (∀ f,
     result (WriteCacheInto json_Marshal GoFile.file visit f w) =
       Returned (None,
                 GoFile.mkFile (b +:+ GoFile.skip (String.length b) (GoFile.contents f))
                   (String.length b))
     ∧ ((String.length (GoFile.contents f) ≤ String.length b)%nat ↔
        b +:+ GoFile.skip (String.length b) (GoFile.contents f) = b))
  ∧ (∀ s, result (WriteCacheInto json_Marshal GoFile.buffer visit s w) =
            Returned (None, s +:+ b)).
Proof.
  intros Hb. split.
  - intros f. rewrite WriteCacheInto_run. cbn [rewind_error rewound GoFile.file Seek].
    rewrite File_Seek_start. cbn [fst snd]. rewrite write_snapshot_run. cbv zeta.
    rewrite Hb. cbn [fst snd GoFile.file Write]. rewrite File_Write_start.
    split; [done|]. split.
    + intros Hle. by rewrite skip_all, append_nil_r.
    + intros Heq. apply (f_equal String.length) in Heq.
      rewrite length_append, length_skip in Heq. lia.
  - intros s. rewrite WriteCacheInto_run. cbn [rewind_error rewound GoFile.buffer Seek].
    rewrite write_snapshot_run. cbv zeta. rewrite Hb. done.
Qed.

(** The snapshot of the examples, written over a longer file. *)
Lemma saving_into_a_file_overwrites_without_truncating_witness :
  let w := mkWorld (mkClient (Some {["bad.example"; "worse.example"]}) Example.saved_at
                      false None None) [] in
  let visit := ["bad.example"; "worse.example"] in
  let old := Example.text +:+ "]}" in
  Example.json_Marshal (mkSave (lastUpdated (client w)) visit) = (Example.text, None)
  ∧ result (WriteCacheInto Example.json_Marshal GoFile.file visit (GoFile.mkFile old 7) w) =
      Returned (None, GoFile.mkFile (Example.text +:+ "]}") 81).
Proof.
  intros w visit old.
  destruct (saving_into_a_file_overwrites_without_truncating Example.json_Marshal visit w
              Example.text) as [Hfile _]; [reflexivity|].
  split; [reflexivity|].
  destruct (Hfile (GoFile.mkFile old 7)) as [-> _]. reflexivity.
Defined.

(** ** Saving and loading through a file *)

Section SaveAndLoad.

Variable json_Marshal : save → string * option error.
Variable json_Unmarshal : string → save * option error.

Hypothesis json_round_trip : ∀ sf data,
  Forall (λ d, utf8_valid d = true) (SaveDomains sf) →
  json_Marshal sf = (data, None) →
  json_Unmarshal data = (sf, None).

(** X16. A snapshot that [WriteCacheInto] has written to a file that held
    no more bytes than the snapshot has (a new file, say) loads back with
    [ReadCacheFrom]: the loading client ends with the membership and the
    [lastUpdated] of the client that was saved, whatever it held.
    ([encoding/json] is taken to give back a value of type [save] with valid
    UTF-8 strings that it has marshalled.) *)
Theorem a_snapshot_written_to_a_file_loads_back
    (w target : World) (visit : list string) (f f' : GoFile.File) :
  visit ≡ₚ elements (members (client w)) →
  (∀ d, d ∈ members (client w) → utf8_valid d = true) →
  result (WriteCacheInto json_Marshal GoFile.file visit f w) = Returned (None, f') →
  (String.length (GoFile.contents f) ≤ GoFile.offset f')%nat →
  let r := ReadCacheFrom json_Unmarshal (GoFile.contents f', None) target in
  result r = Returned None
  ∧ members (client (world_of r)) = members (client w)
  ∧ lastUpdated (client (world_of r)) = lastUpdated (client w).
Proof.
  intros Hvisit Hvalid Hsaved Hshort r. subst r.
  rewrite WriteCacheInto_run in Hsaved.
  cbn [rewind_error rewound GoFile.file Seek] in Hsaved.
  rewrite File_Seek_start in Hsaved. cbn [fst snd] in Hsaved.
  rewrite write_snapshot_run in Hsaved. cbv zeta in Hsaved.
  unfold result in Hsaved. cbn [fst] in Hsaved.
  destruct (json_Marshal (mkSave (lastUpdated (client w)) visit)) as [b [err|]] eqn:Hb;
    cbn [fst snd] in Hsaved; [done|].
  cbn [GoFile.file Write] in Hsaved. rewrite File_Write_start in Hsaved.
  cbn [fst snd] in Hsaved. injection Hsaved as <-. cbn [GoFile.contents GoFile.offset] in *.
  rewrite skip_all, append_nil_r by done.
  apply json_round_trip in Hb as Hloaded.
  - rewrite ReadCacheFrom_run, Hloaded. cbn [fst snd SaveDomains LastUpdated].
    unfold result, world_of. cbn [fst snd client]. split; [done|]. split; [|done].
    unfold members. cbn. rewrite dMap_of_list_to_set. apply set_eq. intros d.
    rewrite elem_of_list_to_set, Hvisit. apply elem_of_elements.
  - cbn. apply Forall_forall. intros d Hd. apply Hvalid.
    apply elem_of_elements. by rewrite <- Hvisit.
Qed.

End SaveAndLoad.

(** The snapshot of the examples, written to a new file and loaded into a
    client that was synced later and with another domain. *)
Lemma a_snapshot_written_to_a_file_loads_back_witness :
  let w := mkWorld (mkClient (Some {["bad.example"; "worse.example"]}) Example.saved_at
                      false None None) [] in
  let target := mkWorld (mkClient (Some {["other.example"]}) Example.in_2025
                           false None None) [] in
  let visit := ["bad.example"; "worse.example"] in
  result (WriteCacheInto Example.json_Marshal GoFile.file visit (GoFile.mkFile "" 0) w) =
    Returned (None, GoFile.mkFile Example.text 81)
  ∧ members (client (world_of
      (ReadCacheFrom Example.json_Unmarshal (Example.text, None) target))) =
    {["bad.example"; "worse.example"]}.
Proof.
  intros w target visit.
  assert (result (WriteCacheInto Example.json_Marshal GoFile.file visit (GoFile.mkFile "" 0) w) =
          Returned (None, GoFile.mkFile Example.text 81)) as Hsaved by reflexivity.
  split; [done|].
  assert (visit ≡ₚ elements (members (client w))) as Hvisit.
  { apply NoDup_Permutation.
    - by apply NoDup_cons_2; [set_solver|apply NoDup_singleton].
    - apply NoDup_elements.
    - intros d. rewrite elem_of_elements. unfold w, members. cbn. set_solver. }
  assert (∀ d, d ∈ members (client w) → utf8_valid d = true) as Hvalid.
  { intros d Hd. unfold w, members in Hd. cbn in Hd.
    apply elem_of_union in Hd as [Hd|Hd]; apply elem_of_singleton in Hd; by subst d. }
  destruct (a_snapshot_written_to_a_file_loads_back Example.json_Marshal
              Example.json_Unmarshal Example_json_round_trip w target visit
              (GoFile.mkFile "" 0) (GoFile.mkFile Example.text 81) Hvisit Hvalid Hsaved)
    as (_ & Hmembers & _); [cbn; lia|].
  exact Hmembers.
Defined.

(** ** Saving on every change *)

Lemma UpdateChannel_run w :
  notifier_ok w = true →
  UpdateChannel w = (Returned (length (chans w)), subscribed w, []).
Proof.
  unfold notifier_ok, subscribed, retired, UpdateChannel, close_chan, make_chan.
  unfold_M. cbn [client chans].
  destruct (updateChan (client w)) as [old|]; cbn [client chans fst snd]; [|done].
  destruct (chans w !! old) as [ch|]; [|done].
  destruct (chan_closed ch); [done|]. intros _. cbn [client chans fst snd].
  by rewrite length_insert.
Qed.

Lemma length_retired w : length (retired w) = length (chans w).
Proof.
  unfold retired. destruct (updateChan (client w)) as [old|]; [|done].
  destruct (chans w !! old); [|done]. by rewrite length_insert.
Qed.

Lemma subscribed_channel w :
  chans (subscribed w) !! length (chans w) = Some (mkChan 2 0 false).
Proof.
  unfold subscribed. cbn [chans].
  rewrite lookup_app_r by (rewrite length_retired; lia).
  by rewrite length_retired, Nat.sub_diag.
Qed.

Lemma recv_notification_run p w ch :
  chans w !! p = Some ch →
  recv_notification p w =
    if (0 <? chan_len ch)%nat
    then (Returned (Some true),
          mkWorld (client w)
            (<[p := mkChan (chan_cap ch) (pred (chan_len ch)) (chan_closed ch)]> (chans w)),
          [])
    else (Returned (if chan_closed ch then Some false else None), w, []).
Proof.
  intros Hch. unfold recv_notification. unfold_M. cbn [client chans]. rewrite Hch.
  destruct (0 <? chan_len ch)%nat; [done|]. by destruct w.
Qed.

(** X17. [SaveOnChange] subscribes with [UpdateChannel] and so takes the
    place of the subscriber before it; it ends with nil, without writing,
    when the context is done and when its channel has been closed and holds
    nothing more to read, which is what [Close] and the next call of
    [UpdateChannel] (a second [SaveOnChange], say) do to it.  As long as
    nothing has been sent it waits. *)
Theorem SaveOnChange_ends_when_its_channel_is_taken_over
    (json_Marshal : save → string * option error) (St : Type) (dst : Writer St)
    (s : St) (w : World) (visit : list string) (rest : list save_step) :
  notifier_ok w = true →
  result (SaveOnChange json_Marshal dst
            (SaveMeanwhile (UpdateChannel ≫= λ _, mret tt) :: SaveReceive visit :: rest) s w) =
    Returned (Exited None, s)
  ∧ result (SaveOnChange json_Marshal dst
              (SaveMeanwhile (Close ≫= λ _, mret tt) :: SaveReceive visit :: rest) s w) =
      Returned (Exited None, s)
  ∧ result (SaveOnChange json_Marshal dst (SaveDone :: rest) s w) = Returned (Exited None, s)
  ∧ result (SaveOnChange json_Marshal dst (SaveReceive visit :: rest) s w) =
      Returned (Impossible, s)
  ∧ (∀ old, updateChan (client w) = Some old →
       ∃ ch, chans (world_of (SaveOnChange json_Marshal dst [] s w)) !! old = Some ch
             ∧ chan_closed ch = true).
Proof.
  intros Hok. unfold SaveOnChange.
  pose proof (UpdateChannel_run w Hok) as Hsub.
  pose proof (subscribed_channel w) as Hnew.
  set (p := length (chans w)) in *.
  assert (notifier_ok (subscribed w) = true) as Hok1.
  { unfold notifier_ok. cbn [client subscribed set_updateChan updateChan].
    fold p. by rewrite Hnew. }
  split; [|split; [|split; [|split]]].
  - rewrite (bind_returned _ _ _ _ _ _ Hsub). unfold result at 1. cbn [fst].
    cbn [SaveOnChange_loop].
    assert ((UpdateChannel ≫= λ _ : nat, mret ()) (subscribed w) =
            (Returned tt, subscribed (subscribed w), [])) as Hagain.
    { unfold mbind, M_bind, bind. by rewrite (UpdateChannel_run _ Hok1). }
    rewrite (bind_returned _ _ _ _ _ _ Hagain). unfold result at 1. cbn [fst].
    assert (chans (subscribed (subscribed w)) !! p = Some (mkChan 2 0 true)) as Hclosed.
    { unfold subscribed at 1. cbn [chans]. unfold retired.
      cbn [client subscribed set_updateChan updateChan]. fold p. rewrite Hnew.
      rewrite lookup_app_l.
      - rewrite list_lookup_insert_eq; [done|]. by eapply lookup_lt_Some.
      - rewrite length_insert. by eapply lookup_lt_Some. }
    unfold mbind, M_bind, bind. by rewrite (recv_notification_run _ _ _ Hclosed).
  - rewrite (bind_returned _ _ _ _ _ _ Hsub). unfold result at 1. cbn [fst].
    cbn [SaveOnChange_loop].
    assert (updateChan (client (subscribed w)) = Some p) as Hp by done.
    pose proof (Close_run (subscribed w)) as Hclose. rewrite Hp, Hnew in Hclose.
    cbn [chan_closed chan_cap chan_len] in Hclose.
    assert ((Close ≫= λ _ : option error, mret ()) (subscribed w) =
            (Returned tt,
             mkWorld (set_updateChan None (set_domains None (client (subscribed w))))
               (<[p := mkChan 2 0 true]> (chans (subscribed w))),
             EvLock :: cancellation (client (subscribed w)) ++ [EvUnlock])) as Hmean.
    { unfold mbind, M_bind, bind. rewrite Hclose. unfold mret, M_ret, ret.
      by rewrite app_nil_r. }
    rewrite (bind_returned _ _ _ _ _ _ Hmean). unfold result at 1. cbn [fst].
    unfold mbind, M_bind, bind.
    erewrite recv_notification_run.
    2:{ cbn [chans]. apply list_lookup_insert_eq. by eapply lookup_lt_Some. }
    done.
  - by rewrite (bind_returned _ _ _ _ _ _ Hsub).
  - rewrite (bind_returned _ _ _ _ _ _ Hsub). unfold result at 1. cbn [fst].
    cbn [SaveOnChange_loop]. unfold mbind, M_bind, bind.
    by rewrite (recv_notification_run _ _ _ Hnew).
  - intros old Hold. rewrite (bind_returned _ _ _ _ _ _ Hsub).
    unfold world_of at 1. cbn [fst snd SaveOnChange_loop].
    unfold notifier_ok in Hok. rewrite Hold in Hok.
    destruct (chans w !! old) as [ch|] eqn:Hch; [|done].
    exists (mkChan (chan_cap ch) (chan_len ch) true). split; [|done].
    unfold mret, M_ret, ret, world_of, subscribed, retired. cbn [fst snd chans].
    rewrite Hold, Hch. rewrite lookup_app_l.
    + apply list_lookup_insert_eq. by eapply lookup_lt_Some.
    + rewrite length_insert. by eapply lookup_lt_Some.
Qed.

(** A client with a subscriber, and a second [SaveOnChange] that takes over
    from the first. *)
Lemma SaveOnChange_ends_when_its_channel_is_taken_over_witness :
  let w := mkWorld (mkClient (Some {["bad.example"]}) 5 false None (Some 0%nat))
             [mkChan 2 0 false] in
  notifier_ok w = true
  ∧ result (SaveOnChange Example.json_Marshal GoFile.buffer
              [SaveMeanwhile (UpdateChannel ≫= λ _, mret tt); SaveReceive ["bad.example"]]
              "" w) = Returned (Exited None, "").
Proof.
  intros w. split; [reflexivity|].
  apply (SaveOnChange_ends_when_its_channel_is_taken_over Example.json_Marshal string
           GoFile.buffer "" w ["bad.example"] []).
  reflexivity.
Defined.

Lemma FullSync_subscribed ds now w p ch :
  updateChan (client w) = Some p → chans w !! p = Some ch → chan_closed ch = false →
  FullSync (ds, None) now w =
    (Returned None,
     mkWorld (client (synced ds now w))
       (if (chan_len ch <? chan_cap ch)%nat
        then <[p := mkChan (chan_cap ch) (S (chan_len ch)) false]> (chans w)
        else chans w),
     [EvTransport CallAll; EvLock; EvUnlock]).
Proof.
  intros Hp Hch Hopen. rewrite FullSync_success_run.
  by rewrite (sendUpdate_run (synced ds now w) p ch Hp Hch Hopen).
Qed.

(** X18. A successful [FullSync] wakes [SaveOnChange], which then writes one
    snapshot, that of the state after the sync: [lastUpdated] is the clock
    reading of the sync and the domains are those of the answer, each once,
    in the order in which [MarshalJSON] ranges over the map.  When the write
    succeeds [SaveOnChange] goes back to waiting, with nothing more to
    receive, and when it fails [SaveOnChange] returns the error of the
    write; the client is as the sync left it. *)
Theorem SaveOnChange_writes_the_snapshot_after_a_sync
    (json_Marshal : save → string * option error) (St : Type) (dst : Writer St)
    (s : St) (w : World) (ds : list string) (now : Time) (visit visit' : list string)
    (rest : list save_step) :
  notifier_ok w = true →
  rewind_error dst s = None →
  visit ≡ₚ elements (dMap_of ds) →
  (json_Marshal (mkSave now visit)).2 = None →
  let sync := FullSync (ds, None) now ≫= λ _, mret tt in
  let written := Write dst (json_Marshal (mkSave now visit)).1 (rewound dst s) in
  let run := SaveOnChange json_Marshal dst [SaveMeanwhile sync; SaveReceive visit] s w in
  (NoDup visit ∧ ∀ d, d ∈ visit ↔ d ∈ ds)
  ∧ (visit ≡ₚ elements (members (client (world_of run)))
     ∧ lastUpdated (client (world_of run)) = now)
  ∧ (written.1.2 = None →
     result run = Returned (Waiting, written.2)
     ∧ result (SaveOnChange json_Marshal dst
                 (SaveMeanwhile sync :: SaveReceive visit :: SaveReceive visit' :: rest) s w) =
         Returned (Impossible, written.2))
  ∧ (∀ err, written.1.2 = Some err →
       result (SaveOnChange json_Marshal dst
                 (SaveMeanwhile sync :: SaveReceive visit :: rest) s w) =
         Returned (Exited (Some err), written.2)).
Proof.
  intros Hok Hseek Hvisit Hmarshal sync written run. subst run. unfold SaveOnChange.
  pose proof (UpdateChannel_run w Hok) as Hsub.
  pose proof (subscribed_channel w) as Hnew.
  set (p := length (chans w)) in *.
  set (w1 := subscribed w) in *.
  assert (updateChan (client w1) = Some p) as Hp by done.
  set (w2 := mkWorld (client (synced ds now w1)) (<[p := mkChan 2 1 false]> (chans w1))).
  assert (sync w1 = (Returned tt, w2, [EvTransport CallAll; EvLock; EvUnlock])) as Hsync.
  { unfold sync, mbind, M_bind, bind.
    by rewrite (FullSync_subscribed ds now w1 p _ Hp Hnew eq_refl). }
  assert (chans w2 !! p = Some (mkChan 2 1 false)) as Hch2.
  { unfold w2. cbn [chans]. apply list_lookup_insert_eq. by eapply lookup_lt_Some. }
  set (w3 := mkWorld (client w2) (<[p := mkChan 2 0 false]> (chans w2))).
  assert (recv_notification p w2 = (Returned (Some true), w3, [])) as Hrecv
    by (by rewrite (recv_notification_run _ _ _ Hch2)).
  assert (WriteCacheInto json_Marshal dst visit s w3 =
          (Returned (written.1.2, written.2), w3, [EvLock; EvUnlock])) as Hwrite.
  { rewrite WriteCacheInto_run, Hseek, write_snapshot_run. cbv zeta.
    change (lastUpdated (client w3)) with now. by rewrite Hmarshal. }
  assert (chans w3 !! p = Some (mkChan 2 0 false)) as Hch3.
  { unfold w3, w2. cbn [chans]. apply list_lookup_insert_eq. rewrite length_insert.
    by eapply lookup_lt_Some. }
  assert (∀ tail,
    result ((UpdateChannel ≫= λ ch, SaveOnChange_loop json_Marshal dst ch
               (SaveMeanwhile sync :: SaveReceive visit :: tail) s) w) =
    match written.1.2 with
    | Some err => Returned (Exited (Some err), written.2)
    | None => result (SaveOnChange_loop json_Marshal dst p tail written.2 w3)
    end) as Hrun.
  { intros tail. rewrite (bind_returned _ _ _ _ _ _ Hsub). unfold result at 1. cbn [fst].
    cbn [SaveOnChange_loop]. rewrite (bind_returned _ _ _ _ _ _ Hsync).
    unfold result at 1. cbn [fst]. rewrite (bind_returned _ _ _ _ _ _ Hrecv).
    unfold result at 1. cbn [fst]. rewrite (bind_returned _ _ _ _ _ _ Hwrite).
    unfold result at 1. cbn [fst snd]. by destruct written.1.2. }
  assert (world_of ((UpdateChannel ≫= λ ch, SaveOnChange_loop json_Marshal dst ch
                       [SaveMeanwhile sync; SaveReceive visit] s) w) = w3) as Hworld.
  { rewrite (bind_returned _ _ _ _ _ _ Hsub). unfold world_of at 1. cbn [fst snd].
    cbn [SaveOnChange_loop]. rewrite (bind_returned _ _ _ _ _ _ Hsync).
    unfold world_of at 1. cbn [fst snd]. rewrite (bind_returned _ _ _ _ _ _ Hrecv).
    unfold world_of at 1. cbn [fst snd]. rewrite (bind_returned _ _ _ _ _ _ Hwrite).
    unfold world_of at 1. cbn [fst snd]. by destruct written.1.2. }
  split; [|split; [|split]].
  - split; [rewrite Hvisit; apply NoDup_elements|].
    intros d. rewrite Hvisit, elem_of_elements, dMap_of_list_to_set. apply elem_of_list_to_set.
  - by rewrite Hworld.
  - intros Hwritten. rewrite !Hrun, Hwritten. split; [done|].
    cbn [SaveOnChange_loop]. unfold mbind, M_bind, bind.
    by rewrite (recv_notification_run _ _ _ Hch3).
  - intros err Hwritten. by rewrite Hrun, Hwritten.
Qed.

(** A buffer that takes the snapshot of the examples. *)
Lemma SaveOnChange_writes_the_snapshot_after_a_sync_witness :
  let ds := ["worse.example"; "bad.example"; "worse.example"] in
  let visit := ["bad.example"; "worse.example"] in
  let sync := FullSync (ds, None) Example.saved_at ≫= λ _, mret tt in
  notifier_ok New = true
  ∧ result (SaveOnChange Example.json_Marshal GoFile.buffer
              [SaveMeanwhile sync; SaveReceive visit] "" New) =
      Returned (Waiting, Example.text).
Proof.
  intros ds visit sync. split; [reflexivity|].
  destruct (SaveOnChange_writes_the_snapshot_after_a_sync Example.json_Marshal string
              GoFile.buffer "" New ds Example.saved_at visit [] [])
    as (_ & _ & Hwrite & _); [reflexivity|reflexivity| |reflexivity|].
  { unfold ds, visit. rewrite dMap_of_list_to_set.
    apply NoDup_Permutation.
    - apply NoDup_cons. split; [set_solver|apply NoDup_singleton].
    - apply NoDup_elements.
    - intros d. rewrite elem_of_elements. set_solver. }
  destruct Hwrite as [Hone _]; [reflexivity|]. exact Hone.
Defined.

(** ** The orchestrator, once more *)

(** X19. A first [FullSync] that fails ends [AutoSync] with its error,
    whatever the intervals and whatever the goroutine has done in the
    meantime; the cache, [lastUpdated] and the notification channel are as
    before.  If the goroutine has not moved, the client is unchanged; if it
    has opened the feed, [AutoSync] returns all the same and leaves the
    session registered and the feed open.  When the first [FullSync]
    succeeds and one of the two intervals is not positive, [AutoSync] does
    not run its loop: the [select] reads the channel of a ticker that was
    not made, and [AutoSync] panics with the cache synced, also when the
    context is cancelled already. *)
Theorem AutoSync_needs_two_positive_intervals
    (realtime : bool) (recentInterval fullSyncInterval : Duration)
    (before during schedule : list step) (ds : list string) (now : Time) (w : World) :
  (∀ e, let r := AutoSync realtime recentInterval fullSyncInterval before (ds, Some e)
                   during now schedule w in
        (result r = Returned (Exited (Some e)) ∨ result r = Returned Impossible)
        ∧ cache (world_of r) = cache w)
  ∧ (∀ e, AutoSync realtime recentInterval fullSyncInterval [] (ds, Some e) [] now schedule w =
            (Returned (Exited (Some e)), w, [EvTransport CallAll]))
  ∧ (∀ e cancel,
       streaming (client w) = false →
       AutoSync true recentInterval fullSyncInterval [] (ds, Some e) [GoListen cancel] now
         schedule w =
         (Returned (Exited (Some e)), in_session cancel w,
          [EvTransport CallAll; EvLock; EvUnlock; EvTransport CallFeed]))
  ∧ (notifier_ok w = true →
     recentInterval ≤ 0 ∨ fullSyncInterval ≤ 0 →
     let r := AutoSync realtime recentInterval fullSyncInterval before (ds, None) during now
                schedule w in
     result r = Returned Impossible
     ∨ (result r = Panicked "invalid memory address or nil pointer dereference"
        ∧ domains (client (world_of r)) = Some (list_to_set ds)
        ∧ lastUpdated (client (world_of r)) = now))
  ∧ (notifier_ok w = true →
     recentInterval ≤ 0 ∨ fullSyncInterval ≤ 0 →
     ∀ rest,
       let r := AutoSync realtime recentInterval fullSyncInterval [] (ds, None) [] now
                  (SelectDone :: rest) w in
       result r = Panicked "invalid memory address or nil pointer dereference"
       ∧ trace r = [EvTransport CallAll; EvLock; EvUnlock]).
Proof.
  split; [|split; [|split; [|split]]].
  - intros e r. subst r. unfold AutoSync.
    match goal with
    | |- context [after_moves ?mv ?st ?k ?w0] =>
        destruct (after_moves_cases mv st k w0) as [(-> & -> & _)|(st1 & _ & -> & -> & _)]
    end.
    { split; [by right|]. apply feeder_moves_preserves_cache. }
    rewrite emit_bind_result, emit_bind_world.
    match goal with
    | |- context [after_moves ?mv ?st ?k ?w0] =>
        destruct (after_moves_cases mv st k w0) as [(-> & -> & _)|(st2 & _ & -> & -> & _)]
    end.
    { split; [by right|]. by rewrite !feeder_moves_preserves_cache. }
    split; [by left|].
    match goal with
    | |- cache (world_of (_ ?w2)) = _ => change (cache w2 = cache w)
    end.
    by rewrite !feeder_moves_preserves_cache.
  - intros e. by destruct realtime.
  - intros e cancel Hoff. unfold AutoSync, after_moves.
    rewrite (bind_returned _ _ w (Some _) w []) by done. cbn [app].
    rewrite emit_bind.
    by rewrite (bind_returned _ _ _ _ _ _
                  (feeder_moves_listen cancel
                     (mkSession None (Some (mkBuffered [] 2 false)) FeederStarting) w
                     eq_refl Hoff)).
  - intros Hok Hinterval r. subst r. unfold AutoSync.
    assert ((0 <? recentInterval) && (0 <? fullSyncInterval) = false) as ->.
    { apply andb_false_iff. destruct Hinterval; [left|right]; by apply Z.ltb_ge. }
    match goal with
    | |- context [after_moves ?mv ?st ?k ?w0] =>
        destruct (after_moves_cases mv st k w0) as [(-> & _)|(st1 & _ & -> & -> & _)];
          [by left|]
    end.
    set (w1 := world_of (feeder_moves before _ w)).
    assert (cache w1 = cache w) as Hc1 by apply feeder_moves_preserves_cache.
    rewrite emit_bind_result, emit_bind_world.
    match goal with
    | |- context [after_moves ?mv ?st ?k ?w0] =>
        destruct (after_moves_cases mv st k w0) as [(-> & _)|(st2 & _ & -> & -> & _)];
          [by left|]
    end.
    set (w2 := world_of (feeder_moves during st1 w1)).
    assert (cache w2 = cache w1) as Hc2 by apply feeder_moves_preserves_cache.
    assert (notifier_ok w2 = true) as Hok2.
    { by rewrite (notifier_ok_cache w1 w2), (notifier_ok_cache w w1). }
    pose proof (FullSync_answer_success_run ds now w2) as Hrun.
    rewrite sendUpdate_returns in Hrun by done.
    set (w3 := world_of (sendUpdate (synced ds now w2))) in *.
    assert (client w3 = client (synced ds now w2)) as Hc3 by apply sendUpdate_client.
    rewrite (bind_returned_result _ _ _ _ _ _ Hrun), (bind_returned_world _ _ _ _ _ _ Hrun).
    match goal with
    | |- context [after_moves ?mv ?st ?k ?w0] =>
        destruct (after_moves_cases mv st k w0) as [(-> & _)|(st3 & _ & -> & -> & _)];
          [by left|]
    end.
    right. split; [done|].
    pose proof (feeder_moves_preserves_cache (leading_moves schedule) st2 w3) as Hc4.
    set (w4 := world_of (feeder_moves (leading_moves schedule) st2 w3)) in *.
    change (domains (client w4) = Some (list_to_set ds) ∧ lastUpdated (client w4) = now).
    unfold cache in Hc4. injection Hc4 as -> -> _ _.
    rewrite Hc3. cbn. by rewrite dMap_of_list_to_set.
  - intros Hok Hinterval rest r. subst r. unfold AutoSync, after_moves.
    assert ((0 <? recentInterval) && (0 <? fullSyncInterval) = false) as ->.
    { apply andb_false_iff. destruct Hinterval; [left|right]; by apply Z.ltb_ge. }
    cbn [feeder_moves leading_moves is_move].
    rewrite (bind_returned _ _ w (Some _) w []) by done. cbn [app].
    rewrite emit_bind.
    rewrite (bind_returned _ _ w (Some _) w []) by done. cbn [app].
    pose proof (FullSync_answer_success_run ds now w) as Hrun.
    rewrite sendUpdate_returns, sendUpdate_trace in Hrun by done. cbn [app] in Hrun.
    rewrite (bind_returned _ _ _ _ _ _ Hrun).
    rewrite (bind_returned _ _ _ (Some _) _ []) by done. by cbn.
Qed.

(** A recent interval of zero, and a feed opened while the first [FullSync]
    is under way. *)
Lemma AutoSync_needs_two_positive_intervals_witness :
  notifier_ok New = true
  ∧ (0 ≤ 0 ∨ Minute ≤ 0)
  ∧ result (AutoSync true 0 Minute [] (["bad.example"], None) [GoListen 1%nat]
              Example.in_2025 [SelectDone] New) =
      Panicked "invalid memory address or nil pointer dereference"
  ∧ streaming (client New) = false
  ∧ world_of (AutoSync true 0 Minute [] ([], Some "connection refused") [GoListen 1%nat]
                Example.in_2025 [SelectDone] New) = in_session 1%nat New.
Proof.
  split; [reflexivity|]. split; [left; lia|].
  destruct (AutoSync_needs_two_positive_intervals true 0 Minute [] [GoListen 1%nat] [SelectDone]
              ["bad.example"] Example.in_2025 New) as (_ & _ & _ & Hpanic & _).
  destruct (AutoSync_needs_two_positive_intervals true 0 Minute [] [GoListen 1%nat] [SelectDone]
              [] Example.in_2025 New) as (_ & _ & Hleft & _).
  split.
  - destruct Hpanic as [Himp|[Hres _]]; [reflexivity|left; lia| |exact Hres].
    by vm_compute in Himp.
  - split; [reflexivity|].
    exact (f_equal world_of (Hleft "connection refused" 1%nat eq_refl)).
Defined.

(** ** Building the [RawClient] *)

Section RawClientOptions.

Variable canonical : string → string.

Lemma Header_Get_fixHeaders header identity :
  Raw.Header_Get canonical "X-Identity" (Raw.fixHeaders canonical header identity) = identity.
Proof.
  unfold Raw.Header_Get, Raw.fixHeaders, Raw.Header_Set, Raw.Header.
  by rewrite lookup_insert_eq.
Qed.

Lemma fixHeaders_twice header identity :
  Raw.fixHeaders canonical (Some (Raw.fixHeaders canonical header identity)) identity =
    Raw.fixHeaders canonical header identity.
Proof. unfold Raw.fixHeaders, Raw.Header_Set, Raw.Header. apply insert_insert_eq. Qed.

(** The options of the package keep the header allocated and leave the
    endpoint and the identity alone. *)
Lemma provided_options_run options client :
  Forall (Raw.provided canonical) options →
  Raw.header client ≠ None →
  ∃ client',
    Raw.apply_options options client = Returned client'
    ∧ Raw.header client' ≠ None
    ∧ Raw.domain client' = Raw.domain client
    ∧ Raw.identity client' = Raw.identity client.
Proof.
  intros Hprovided. revert client.
  induction Hprovided as [|option options Hoption _ IH]; intros client Hheader.
  - by exists client.
  - cbn [Raw.apply_options].
    destruct Hoption as [header|key value|header|duration]; cbn.
    + destruct (IH (Raw.set_header
                      (Some (Raw.fixHeaders canonical header (Raw.identity client))) client))
        as (client' & ? & ? & ? & ?); [done|]. by exists client'.
    + unfold Raw.WithHeader. destruct (Raw.header client) as [h|] eqn:Hh; [|done].
      destruct (IH (Raw.set_header (Some (Raw.Header_Set canonical key value h)) client))
        as (client' & ? & ? & ? & ?); [done|]. by exists client'.
    + destruct (IH (Raw.set_header (Raw.Header_Del canonical header <$> Raw.header client)
                      client))
        as (client' & ? & ? & ? & ?); [|by exists client'].
      cbn. by destruct (Raw.header client).
    + destruct (IH (Raw.set_feedTimeout duration client))
        as (client' & ? & ? & ? & ?); [done|]. by exists client'.
Qed.

Lemma apply_options_app before options client :
  Raw.apply_options (before ++ options) client =
    match Raw.apply_options before client with
    | Returned client' => Raw.apply_options options client'
    | Panicked msg => Panicked msg
    end.
Proof.
  revert client. induction before as [|option before IH]; intros client; cbn; [done|].
  destruct (option client); [apply IH|done].
Qed.

End RawClientOptions.

(** X20. Whatever options are given, functions of the caller's own
    included, a [RawClient] that [NewRawClient] returns has an allocated
    header whose ["X-Identity"] is the identity of the client.  With the
    options of the package ([WithHeaders], [WithHeader], [WithoutHeader],
    [WithFeedTimeout]), in any number and order, [NewRawClient] does not
    panic, and the endpoint and the identity are the ones given: no option
    can set, replace or remove the identity header. *)
Theorem NewRawClient_always_sends_the_identity
    (canonical : string → string) (domain identity : string) (options : list Raw.Option) :
  (∀ client, Raw.NewRawClient canonical domain identity options = Returned client →
     ∃ h, Raw.header client = Some h
          ∧ Raw.Header_Get canonical "X-Identity" h = Raw.identity client)
  ∧ (Forall (Raw.provided canonical) options →
     ∃ client h,
       Raw.NewRawClient canonical domain identity options = Returned client
       ∧ Raw.domain client = domain
       ∧ Raw.identity client = identity
       ∧ Raw.header client = Some h
       ∧ Raw.Header_Get canonical "X-Identity" h = identity).
Proof.
  split.
  - intros client. unfold Raw.NewRawClient.
    destruct (Raw.apply_options options _) as [c|msg]; [|done].
    intros [= <-]. eexists. split; [done|]. cbn. apply Header_Get_fixHeaders.
  - intros Hprovided. unfold Raw.NewRawClient.
    destruct (provided_options_run canonical options
                (Raw.mkRawClient domain identity
                   (Some (Raw.Header_Set canonical "User-Agent" Raw.userAgent ∅))
                   (Second * 5)) Hprovided) as (c & -> & _ & Hdomain & Hidentity); [done|].
    eexists _, _. split; [done|]. cbn in *. rewrite Hdomain, Hidentity.
    split; [done|]. split; [done|]. split; [done|]. apply Header_Get_fixHeaders.
Qed.

(** Three options, the last of which tries to set the identity header. *)
Lemma NewRawClient_always_sends_the_identity_witness :
  let canonical := λ key : string, key in
  let options := [Raw.WithoutHeader canonical "X-Identity";
                  Raw.WithFeedTimeout Minute;
                  Raw.WithHeader canonical "X-Identity" "somebody else"] in
  Forall (Raw.provided canonical) options
  ∧ ∃ client h,
      Raw.NewRawClient canonical "https://example.com" "Foo Bot" options = Returned client
      ∧ Raw.header client = Some h
      ∧ Raw.Header_Get canonical "X-Identity" h = "Foo Bot".
Proof.
  intros canonical options.
  assert (Forall (Raw.provided canonical) options) as Hprovided
    by (repeat constructor).
  split; [exact Hprovided|].
  destruct (NewRawClient_always_sends_the_identity canonical "https://example.com"
              "Foo Bot" options) as [_ Hrun].
  destruct (Hrun Hprovided) as (client & h & Hnew & _ & _ & Hheader & Hget).
  by exists client, h.
Defined.

(** X21. [WithHeaders] replaces what the options before it did to the
    header, and the default ["User-Agent"] with it: when it is the last
    option, the header of the client is the given header (a new one for nil)
    with ["X-Identity"] set, and nothing else. *)
Theorem WithHeaders_discards_the_header_built_so_far
    (canonical : string → string) (domain identity : string)
    (before : list Raw.Option) (header : option Raw.Header) :
  Forall (Raw.provided canonical) before →
  ∃ client,
    Raw.NewRawClient canonical domain identity (before ++ [Raw.WithHeaders canonical header]) =
      Returned client
    ∧ Raw.header client = Some (Raw.fixHeaders canonical header identity)
    ∧ (header = None →
       Raw.header client = Some {[canonical "X-Identity" := [identity]]}).
Proof.
  intros Hprovided. unfold Raw.NewRawClient.
  set (client0 := Raw.mkRawClient domain identity _ _).
  destruct (provided_options_run canonical before client0 Hprovided)
    as (c & Hrun & _ & Hdomain & Hidentity); [done|].
  rewrite apply_options_app, Hrun. cbn. eexists. split; [done|].
  cbn in Hidentity. rewrite Hidentity, fixHeaders_twice. split; [done|].
  intros ->. unfold Raw.fixHeaders, Raw.Header_Set, Raw.Header. by rewrite insert_empty.
Qed.

(** A header option followed by [WithHeaders] of a nil header. *)
Lemma WithHeaders_discards_the_header_built_so_far_witness :
  let canonical := λ key : string, key in
  Forall (Raw.provided canonical) [Raw.WithHeader canonical "Accept" "application/json"]
  ∧ ∃ client,
      Raw.NewRawClient canonical "https://example.com" "Foo Bot"
        [Raw.WithHeader canonical "Accept" "application/json"; Raw.WithHeaders canonical None] =
        Returned client
      ∧ Raw.header client = Some {["X-Identity" := ["Foo Bot"]]}.
Proof.
  intros canonical.
  assert (Forall (Raw.provided canonical)
            [Raw.WithHeader canonical "Accept" "application/json"]) as Hprovided
    by (repeat constructor).
  split; [exact Hprovided|].
  destruct (WithHeaders_discards_the_header_built_so_far canonical "https://example.com"
              "Foo Bot" [Raw.WithHeader canonical "Accept" "application/json"] None Hprovided)
    as (client & Hnew & _ & Hnil).
  exists client. split; [exact Hnew|]. by apply Hnil.
Defined.

(** ** Decimal numbers *)

Lemma digit_pretty_N_char (d : N) :
  (d < 10)%N → GoStrconv.digit (pretty_N_char d) = Some (Z.of_N d).
Proof.
  intros Hd.
  assert (d = 0 ∨ d = 1 ∨ d = 2 ∨ d = 3 ∨ d = 4 ∨ d = 5 ∨ d = 6 ∨ d = 7 ∨ d = 8 ∨ d = 9)%N
    as Hcases by lia.
  repeat (destruct Hcases as [->|Hcases]; [done|]). by subst d.
Qed.

Lemma digit_not_a_sign (c : ascii) (d : Z) :
  GoStrconv.digit c = Some d → Ascii.eqb c "+" || Ascii.eqb c "-" = false.
Proof.
  destruct c as [b0 b1 b2 b3 b4 b5 b6 b7].
  by destruct b0, b1, b2, b3, b4, b5, b6, b7.
Qed.

Lemma ParseUint_loop_app (s1 s2 : string) (n : Z) :
  GoStrconv.ParseUint_loop (s1 +:+ s2) n =
    match GoStrconv.ParseUint_loop s1 n with
    | GoStrconv.Value v => GoStrconv.ParseUint_loop s2 v
    | other => other
    end.
Proof.
  revert n. induction s1 as [|c s1 IH]; intros n; [done|].
  rewrite append_cons_l. cbn [GoStrconv.ParseUint_loop].
  destruct (GoStrconv.digit c) as [d|]; [|done].
  destruct (2 ^ 64 - 1 <? n * 10 + d); [done|]. apply IH.
Qed.

Lemma pretty_N_go_append (x : N) (s : string) :
  pretty_N_go x s = pretty_N_go x EmptyString +:+ s.
Proof.
  revert s. induction (N.lt_wf_0 x) as [x _ IH]; intros s.
  assert (x = 0 ∨ 0 < x)%N as [->|Hpos] by lia; [done|].
  rewrite !(pretty_N_go_step x) by done.
  rewrite (IH (x `div` 10)%N) by (by apply N.div_lt).
  rewrite (IH (x `div` 10)%N ltac:(by apply N.div_lt) (String _ EmptyString)).
  clear. induction (pretty_N_go (x `div` 10) "") as [|c p IHp]; [done|].
  rewrite !append_cons_l. by rewrite IHp.
Qed.

Lemma ParseUint_loop_pretty (x : N) :
  (Z.of_N x ≤ 2 ^ 64 - 1) →
  GoStrconv.ParseUint_loop (pretty_N_go x EmptyString) 0 = GoStrconv.Value (Z.of_N x).
Proof.
  induction (N.lt_wf_0 x) as [x _ IH]; intros Hfit.
  assert (x = 0 ∨ 0 < x)%N as [->|Hpos] by lia; [done|].
  rewrite pretty_N_go_step by done. rewrite pretty_N_go_append, ParseUint_loop_app.
  pose proof (N.Div0.div_mod x 10) as Hdm.
  pose proof (N.mod_lt x 10 ltac:(done)) as Hmod.
  assert (x `div` 10 < x)%N as Hless by (by apply N.div_lt).
  rewrite IH; [|done|lia].
  cbn [GoStrconv.ParseUint_loop]. rewrite digit_pretty_N_char by done.
  replace (Z.of_N (x `div` 10) * 10 + Z.of_N (x `mod` 10)) with (Z.of_N x)
    by (rewrite Hdm at 1; lia).
  by destruct (Z.ltb_spec (2 ^ 64 - 1) (Z.of_N x)); [lia|].
Qed.

Lemma pretty_N_go_head (x : N) (s : string) :
  (0 < x)%N →
  ∃ c rest d, pretty_N_go x s = String c rest ∧ GoStrconv.digit c = Some d.
Proof.
  revert s. induction (N.lt_wf_0 x) as [x _ IH]; intros s Hpos.
  rewrite pretty_N_go_step by done.
  destruct (N.eq_0_gt_0_cases (x `div` 10)) as [->|Hmore].
  - rewrite pretty_N_go_0. eexists _, _, _. split; [done|].
    apply digit_pretty_N_char. by apply N.mod_lt.
  - apply IH; [by apply N.div_lt|done].
Qed.

Lemma Atoi_Itoa NumError (n : Z) :
  - 2 ^ 63 ≤ n < 2 ^ 63 → GoStrconv.Atoi NumError (GoStrconv.Itoa n) = (n, None).
Proof.
  intros Hn. unfold GoStrconv.Itoa, pretty, pretty_Z.
  destruct n as [|p|p]; [done| |].
  - unfold pretty, pretty_positive, pretty, pretty_N.
    rewrite decide_False by done.
    destruct (pretty_N_go_head (N.pos p) EmptyString ltac:(done)) as (c & rest & d & Hs & Hc).
    pose proof (ParseUint_loop_pretty (N.pos p) ltac:(lia)) as Hparse.
    rewrite Hs in *. unfold GoStrconv.Atoi.
    rewrite (digit_not_a_sign _ _ Hc), Hparse.
    assert (c ≠ "-"%char) as Hminus by (intros ->; done).
    destruct (Z.leb_spec (2 ^ 63) (Z.of_N (N.pos p))); [lia|].
    destruct c as [[] [] [] [] [] [] [] []]; try done.
  - unfold pretty, pretty_positive, pretty, pretty_N.
    rewrite decide_False by done.
    destruct (pretty_N_go_head (N.pos p) EmptyString ltac:(done)) as (c & rest & d & Hs & Hc).
    pose proof (ParseUint_loop_pretty (N.pos p) ltac:(lia)) as Hparse.
    rewrite Hs in *. rewrite append_cons_l, append_nil_l. unfold GoStrconv.Atoi.
    cbn [Ascii.eqb Bool.eqb orb andb negb]. rewrite Hparse.
    destruct (Z.ltb_spec (2 ^ 63) (Z.of_N (N.pos p))); [lia|]. done.
Qed.

Lemma Atoi_trailing_byte NumError (n : Z) (c : ascii) (rest : string) :
  - 2 ^ 63 ≤ n < 2 ^ 63 →
  GoStrconv.digit c = None →
  GoStrconv.Atoi NumError (GoStrconv.Itoa n +:+ String c rest) =
    (0, Some (NumError (GoStrconv.Itoa n +:+ String c rest) "invalid syntax")).
Proof.
  intros Hn Hc.
  assert (∀ x, Z.of_N x ≤ 2 ^ 64 - 1 →
            GoStrconv.ParseUint_loop (pretty_N_go x EmptyString +:+ String c rest) 0 =
              GoStrconv.Syntax) as Hsyntax.
  { intros x Hx. rewrite ParseUint_loop_app, ParseUint_loop_pretty by done.
    cbn [GoStrconv.ParseUint_loop]. by rewrite Hc. }
  unfold GoStrconv.Itoa, pretty, pretty_Z.
  destruct n as [|p|p].
  - rewrite append_cons_l, append_nil_l. unfold GoStrconv.Atoi.
    cbn [Ascii.eqb Bool.eqb orb andb negb GoStrconv.ParseUint_loop GoStrconv.digit].
    change (GoStrconv.digit "0") with (Some 0). cbn [Z.mul Z.add]. cbv iota beta.
    change (2 ^ 64 - 1 <? 0) with false. cbv iota. by rewrite Hc.
  - unfold pretty, pretty_positive, pretty, pretty_N.
    rewrite decide_False by done.
    destruct (pretty_N_go_head (N.pos p) EmptyString ltac:(done)) as (c0 & r0 & d & Hs & Hc0).
    specialize (Hsyntax (N.pos p) ltac:(lia)).
    rewrite Hs in *. rewrite append_cons_l in *. unfold GoStrconv.Atoi.
    rewrite (digit_not_a_sign _ _ Hc0).
    match goal with
    | |- context [GoStrconv.ParseUint_loop ?s 0] =>
        replace (GoStrconv.ParseUint_loop s 0) with GoStrconv.Syntax
          by (symmetry; exact Hsyntax)
    end.
    destruct c0 as [[] [] [] [] [] [] [] []]; try done.
  - unfold pretty, pretty_positive, pretty, pretty_N.
    rewrite decide_False by done.
    destruct (pretty_N_go_head (N.pos p) EmptyString ltac:(done)) as (c0 & r0 & d & Hs & Hc0).
    specialize (Hsyntax (N.pos p) ltac:(lia)).
    rewrite Hs in *. rewrite !append_cons_l, append_nil_l in *. unfold GoStrconv.Atoi.
    cbn [Ascii.eqb Bool.eqb orb andb negb].
    match goal with
    | |- context [GoStrconv.ParseUint_loop ?s 0] =>
        replace (GoStrconv.ParseUint_loop s 0) with GoStrconv.Syntax
          by (symmetry; exact Hsyntax)
    end.
    done.
Qed.

(** ** The requests of the [RawClient] *)

(** X22. [RawClient.Size] on an answer with status 200 reads the body as a
    decimal number: a body that is the decimal text of an [int] gives that
    number without an error; the same text followed by a byte that is not a
    digit (a line feed, say) gives the size 0 and the syntax error of
    [strconv.Atoi]; and an error in reading the body is returned as it
    is. *)
Theorem Size_reads_the_body_as_a_decimal_number
    (NewRequest : string → option error)
    (Do : string → option Raw.Header → Raw.Response + error)
    (NumError : string → string → error)
    (c : Raw.RawClient) (resp : Raw.Response) (n : Z) :
  Raw.doReq NewRequest Do c endpointSize = inl resp →
  Raw.StatusCode resp = 200 →
  - 2 ^ 63 ≤ n < 2 ^ 63 →
  (Raw.Body resp = (GoStrconv.Itoa n, None) →
     Raw.Size NewRequest Do NumError c = (n, None))
  ∧ (∀ ch rest, GoStrconv.digit ch = None →
       Raw.Body resp = (GoStrconv.Itoa n +:+ String ch rest, None) →
       Raw.Size NewRequest Do NumError c =
         (0, Some (NumError (GoStrconv.Itoa n +:+ String ch rest) "invalid syntax")))
  ∧ (∀ err, (Raw.Body resp).2 = Some err →
       Raw.Size NewRequest Do NumError c = (0, Some err)).
Proof.
  intros Hreq Hstatus Hn. unfold Raw.Size. rewrite Hreq, Hstatus. cbn [Z.eqb negb Pos.eqb].
  split; [|split].
  - intros ->. cbn [fst snd]. by apply Atoi_Itoa.
  - intros ch rest Hch ->. cbn [fst snd]. by apply Atoi_trailing_byte.
  - by intros err ->.
Qed.

(** A server that answers every request with 200 and the text 1234. *)
Lemma Size_reads_the_body_as_a_decimal_number_witness :
  let Do := λ (_ : string) (_ : option Raw.Header),
              inl (Raw.mkResponse 200 ("1234", None)) : Raw.Response + error in
  let c := Raw.mkRawClient "https://example.com" "Foo Bot" None (Second * 5) in
  Raw.StatusCode (Raw.mkResponse 200 ("1234", None)) = 200
  ∧ - 2 ^ 63 ≤ 1234 < 2 ^ 63
  ∧ Raw.Size (λ _, None) Do (λ _ _, "strconv.Atoi") c = (1234, None).
Proof.
  intros Do c. split; [reflexivity|]. split; [lia|].
  destruct (Size_reads_the_body_as_a_decimal_number (λ _, None) Do (λ _ _, "strconv.Atoi")
              c (Raw.mkResponse 200 ("1234", None)) 1234) as [Hsize _];
    [reflexivity|reflexivity|lia|].
  by apply Hsize.
Defined.

(** X23. A request that is answered with a status other than 200 fails with
    the message [unexpected status code: recieved "<status>" on "<url>"],
    where the URL is the endpoint of the client followed by the path of the
    operation, without the domain asked about or the number of seconds; for
    [Size] the path in the message is that of [All], ["/v2/all/"], not
    ["/v2/dbsize/"].  The body is not looked at, and the value returned is
    the zero value. *)
Theorem a_status_other_than_200_is_reported_with_the_path
    (NewRequest : string → option error)
    (Do : string → option Raw.Header → Raw.Response + error)
    (Decode_domains : string * option error → list string * option error)
    (Decode_mods : string * option error → list DomainUpdate * option error)
    (NumError : string → string → error)
    (c : Raw.RawClient) (resp : Raw.Response) (name : string) (seconds : Z) :
  Raw.StatusCode resp ≠ 200 →
  let message := λ path,
    "unexpected status code: recieved "
    +:+ GoFmt.quoted (GoStrconv.Itoa (Raw.StatusCode resp))
    +:+ " on " +:+ GoFmt.quoted (Raw.domain c +:+ path) in
  (Raw.doReq NewRequest Do c ("/v2/check/" +:+ name) = inl resp →
     Raw.Check NewRequest Do c name = (false, Some (message "/v2/check/")))
  ∧ (Raw.doReq NewRequest Do c "/v2/all/" = inl resp →
       Raw.All NewRequest Do Decode_domains c = ([], Some (message "/v2/all/")))
  ∧ (Raw.doReq NewRequest Do c ("/v2/recent/" +:+ GoStrconv.Itoa seconds) = inl resp →
       Raw.Recent NewRequest Do Decode_mods c seconds = ([], Some (message "/v2/recent/")))
  ∧ (Raw.doReq NewRequest Do c "/v2/dbsize/" = inl resp →
       Raw.Size NewRequest Do NumError c = (0, Some (message "/v2/all/"))).
Proof.
  intros Hstatus message. apply Z.eqb_neq in Hstatus.
  unfold Raw.Check, Raw.All, Raw.Recent, Raw.Size,
    endpointCheck, endpointAll, endpointRecent, endpointSize.
  repeat split; intros ->; by rewrite Hstatus.
Qed.

(** A server that answers every request with 503. *)
Lemma a_status_other_than_200_is_reported_with_the_path_witness :
  let Do := λ (_ : string) (_ : option Raw.Header),
              inl (Raw.mkResponse 503 ("", None)) : Raw.Response + error in
  let c := Raw.mkRawClient "https://example.com" "Foo Bot" None (Second * 5) in
  Raw.StatusCode (Raw.mkResponse 503 ("", None)) ≠ 200
  ∧ Raw.Size (λ _, None) Do (λ _ _, "strconv.Atoi") c =
      (0, Some ("unexpected status code: recieved " +:+ GoFmt.quoted "503" +:+ " on "
                +:+ GoFmt.quoted "https://example.com/v2/all/")).
Proof.
  intros Do c. split; [done|].
  destruct (a_status_other_than_200_is_reported_with_the_path (λ _, None) Do
              (λ _, ([], None)) (λ _, ([], None)) (λ _ _, "strconv.Atoi") c
              (Raw.mkResponse 503 ("", None)) "bad.example" 60) as (_ & _ & _ & Hsize);
    [done|].
  by apply Hsize.
Defined.

(** ** The message of a validation error *)

Lemma Join_foldr (e : string) (es : list string) (sep : string) :
  Join (e :: es) sep = e +:+ foldr (λ y acc, sep +:+ y +:+ acc) EmptyString es.
Proof.
  revert e. induction es as [|y es IH]; intros e.
  - cbn. by rewrite append_nil_r.
  - rewrite Join_cons by done. by rewrite IH.
Qed.

Lemma append_assoc (s1 s2 s3 : string) : (s1 +:+ s2) +:+ s3 = s1 +:+ s2 +:+ s3.
Proof. induction s1 as [|c s1 IH]; [done|]. by rewrite !append_cons_l, IH. Qed.

Lemma Error_locations_later (i2 : nat) (locs : list string) (msg : string) :
  (1 ≤ i2)%nat →
  Error_locations i2 locs msg =
    msg +:+ foldr (λ y acc, "," +:+ y +:+ acc) EmptyString
              ((λ l, " " +:+ GoFmt.quoted l) <$> locs).
Proof.
  revert i2 msg. induction locs as [|l locs IH]; intros i2 msg Hi2.
  - cbn. by rewrite append_nil_r.
  - cbn [Error_locations fmap list_fmap foldr]. destruct (Nat.leb_spec 1 i2); [|lia].
    rewrite IH by lia. by rewrite !append_assoc.
Qed.

Lemma Error_locations_first (locs : list string) (msg : string) :
  Error_locations 0 locs msg = msg +:+ Join ((λ l, " " +:+ GoFmt.quoted l) <$> locs) ",".
Proof.
  destruct locs as [|l locs]; [cbn; by rewrite append_nil_r|].
  cbn [fmap list_fmap]. rewrite Join_foldr. cbn [Error_locations Nat.leb].
  rewrite Error_locations_later by lia. by rewrite !append_assoc.
Qed.

Lemma Error_details_later (i : nat) (details : list detail) (msg : string) :
  (0 < i)%nat →
  Error_details i details msg =
    msg +:+ foldr (λ y acc, ", " +:+ y +:+ acc) EmptyString (detail_text <$> details).
Proof.
  revert i msg. induction details as [|d details IH]; intros i msg Hi.
  - cbn. by rewrite append_nil_r.
  - cbn [Error_details fmap list_fmap foldr]. destruct (Nat.ltb_spec 0 i); [|lia].
    rewrite Error_locations_first, IH by lia. unfold detail_text.
    by rewrite !append_assoc.
Qed.

(** X24. The message of a [validationError] is ["validation error"] alone
    when there is no detail, and otherwise ["validation error: "] followed
    by the details separated by [", "], each one as
    [Type "<type>" Message "<msg>" Locations:] followed by its locations,
    each between quotes after a space, separated by commas. *)
Theorem validationError_message_lists_the_details (Detail : list detail) :
  validationError_Error Detail =
    match Detail with
    | [] => "validation error"
    | _ => "validation error: " +:+ Join (detail_text <$> Detail) ", "
    end.
Proof.
  unfold validationError_Error. destruct Detail as [|d details]; [done|].
  cbn [fmap list_fmap]. rewrite Join_foldr. cbn [length Nat.ltb Nat.leb Error_details].
  rewrite Error_locations_first, Error_details_later by lia. unfold detail_text.
  by rewrite !append_assoc.
Qed.

(** ** What [AutoSync] leaves behind *)

Lemma sendUpdate_preserves_client {X} (f : Client → X) :
  preserves (λ w, f (client w)) sendUpdate.
Proof. intros w. by rewrite sendUpdate_client. Qed.

Lemma applyMods_preserves_streaming mods :
  preserves (λ w, streaming (client w)) (applyMods mods).
Proof.
  intros w. pose proof (applyMods_preserves streaming mods ltac:(done) w) as H.
  by injection H.
Qed.

Lemma applyMod_preserves_streaming upd :
  preserves (λ w, streaming (client w)) (applyMod upd).
Proof.
  intros w. pose proof (applyMod_preserves streaming upd ltac:(done) w) as H.
  by injection H.
Qed.

Lemma locked_preserves {A X} (f : World → X) (body : M A) :
  preserves f body → preserves f (locked body).
Proof. intros Hbody w. rewrite locked_run. apply Hbody. Qed.

Lemma emit_preserves {X} (f : World → X) e : preserves f (emit e).
Proof. by intros w. Qed.

Lemma mret_preserves {A X} (f : World → X) (a : A) : preserves f (mret a).
Proof. by intros w. Qed.

Lemma modify_client_preserves {X} (f : Client → X) (g : Client → Client) :
  (∀ c, f (g c) = f c) → preserves (λ w, f (client w)) (modify_client g).
Proof. intros Hg w. apply Hg. Qed.

Lemma Update_preserves_streaming now1 recent now2 :
  preserves (λ w, streaming (client w)) (Update now1 recent now2).
Proof.
  intros w. unfold Update. rewrite locked_run, get_client_bind, emit_bind.
  unfold world_of at 1 2. cbn [fst snd].
  destruct (recent _).2 as [err|]; [done|].
  rewrite modify_client_bind.
  set (w0 := mkWorld (set_lastUpdated now2 (client w)) (chans w)).
  change (streaming (client w)) with (streaming (client w0)).
  revert w0. apply (preserves_bind (λ w, streaming (client w)));
    [apply applyMods_preserves_streaming|].
  intros _. apply (preserves_bind (λ w, streaming (client w))); [|by intros _ w0].
  destruct (0 <? length _)%nat; [apply (sendUpdate_preserves_client streaming)|by intros w0].
Qed.

Lemma FullSync_preserves_streaming all now :
  preserves (λ w, streaming (client w)) (FullSync all now).
Proof.
  intros w. destruct all as [ds [err|]]; [done|].
  rewrite FullSync_success_run. unfold world_of at 1. cbn [fst snd].
  by rewrite sendUpdate_client.
Qed.

Lemma applyLiveUpdates_preserves_streaming upd now :
  preserves (λ w, streaming (client w)) (applyLiveUpdates upd now).
Proof.
  unfold applyLiveUpdates. apply locked_preserves.
  apply (preserves_bind (λ w, streaming (client w)));
    [by apply (modify_client_preserves streaming)|].
  intros _. apply (preserves_bind (λ w, streaming (client w)));
    [apply applyMod_preserves_streaming|].
  intros _. apply (sendUpdate_preserves_client streaming).
Qed.

Lemma keeps_session_bind {A B} (m : M A) (k : A → M B) :
  keeps_session m → (∀ a, keeps_session (k a)) → keeps_session (m ≫= k).
Proof.
  intros Hm Hk w. specialize (Hm w).
  unfold mbind, M_bind, bind, world_of, trace in *.
  destruct (m w) as [[[a|msg] w1] t1]; cbn [fst snd] in *; [|done].
  specialize (Hk a w1). unfold world_of, trace in Hk.
  destruct (k a w1) as [[r w2] t2]; cbn [fst snd] in *.
  intros [Hon|Hin]; [auto|].
  apply elem_of_app in Hin as [Hin|Hin]; auto.
Qed.

(** A computation that leaves [streaming] alone and does not call [Feed]. *)
Lemma keeps_session_quiet {A} (m : M A) :
  preserves (λ w, streaming (client w)) m →
  (∀ w, EvTransport CallFeed ∉ trace (m w)) →
  keeps_session m.
Proof. intros Hm Ht w [Hon|Hin]; [by rewrite Hm|by apply Ht in Hin]. Qed.

Lemma keeps_session_mret {A} (a : A) : keeps_session (mret a).
Proof. apply keeps_session_quiet; [done|]. intros w. apply not_elem_of_nil. Qed.

Lemma keeps_session_panic {A} msg : keeps_session (@panic A msg).
Proof. apply keeps_session_quiet; [done|]. intros w. apply not_elem_of_nil. Qed.

Lemma keeps_session_emit_CallAll : keeps_session (emit (EvTransport CallAll)).
Proof.
  apply keeps_session_quiet; [done|]. intros w Hin.
  by apply list_elem_of_singleton in Hin.
Qed.

Lemma applyLiveUpdates_trace upd now w :
  trace (applyLiveUpdates upd now w) = [EvLock; EvUnlock].
Proof.
  unfold applyLiveUpdates. rewrite locked_run. unfold trace at 1. cbn [snd].
  rewrite (silent_bind (modify_client (set_lastUpdated now))); [done| |].
  - apply modify_client_silent.
  - intros _. apply silent_bind; [apply applyMod_silent|]. intros _. apply sendUpdate_silent.
Qed.

Lemma keeps_session_applyLiveUpdates upd now : keeps_session (applyLiveUpdates upd now).
Proof.
  apply keeps_session_quiet; [apply applyLiveUpdates_preserves_streaming|].
  intros w. rewrite applyLiveUpdates_trace. set_solver.
Qed.

Lemma keeps_session_Update now1 recent now2 : keeps_session (Update now1 recent now2).
Proof.
  apply keeps_session_quiet; [apply Update_preserves_streaming|].
  intros w. rewrite Update_trace. set_solver.
Qed.

Lemma keeps_session_FullSync all now : keeps_session (FullSync all now).
Proof.
  apply keeps_session_quiet; [apply FullSync_preserves_streaming|].
  intros w. rewrite FullSync_trace. destruct all.2; set_solver.
Qed.

Lemma keeps_session_FullSync_answer all now : keeps_session (FullSync_answer all now).
Proof.
  intros w Hw. pose proof (keeps_session_FullSync all now w) as Hfull.
  rewrite FullSync_split, emit_bind in Hfull. apply Hfull.
  destruct Hw as [Hon|Hin]; [by left|]. right. unfold trace at 1. cbn [snd]. set_solver.
Qed.

(** The goroutine entering [listenForUpdates], followed by [k1] when it is
    refused and by the call of [Feed] and [k2] otherwise. *)
Lemma keeps_session_listen {B} cancel (k1 : error → M B) (k2 : M B) :
  (∀ e, keeps_session (k1 e)) →
  keeps_session k2 →
  keeps_session (checkStreaming cancel ≫= λ err : option error,
                 match err with
                 | Some e => k1 e
                 | None => emit (EvTransport CallFeed) ;; k2
                 end).
Proof.
  intros Hk1 Hk2 w _. destruct (streaming (client w)) eqn:Hw.
  - rewrite (bind_returned_world _ _ _ _ _ _ (checkStreaming_busy cancel w Hw)).
    apply Hk1. by left.
  - rewrite (bind_returned_world _ _ _ _ _ _ (checkStreaming_run cancel w Hw)).
    rewrite emit_bind_world. apply Hk2. by left.
Qed.

Lemma AutoSync_loop_keeps_session schedule st :
  forallb feed_goes_on schedule = true → keeps_session (AutoSync_loop schedule st).
Proof.
  revert st. induction schedule as [|s rest IH]; intros st Hon;
    [apply keeps_session_mret|].
  cbn [forallb] in Hon. apply andb_true_iff in Hon as [Hs Hrest].
  destruct s as [cancel|upd|err| |now|now1 recent now2|all now| |];
    cbn [AutoSync_loop]; try done.
  - destruct (feed st); try apply keeps_session_mret.
    apply keeps_session_listen; intros; by apply IH.
  - destruct (feed st); try apply keeps_session_mret.
    destruct (chan_send (modChan st) upd); [by apply IH|apply keeps_session_mret].
  - destruct (feed st); try apply keeps_session_mret.
    destruct (chan_send (stream st) err); [by apply IH|apply keeps_session_mret].
  - destruct (chan_recv (modChan st)) as [[[upd|] ch]|]; try apply keeps_session_mret.
    apply keeps_session_bind; [apply keeps_session_applyLiveUpdates|]. intros _. by apply IH.
  - apply keeps_session_bind; [apply keeps_session_Update|].
    intros [e|]; [apply keeps_session_mret|by apply IH].
  - apply keeps_session_bind; [apply keeps_session_FullSync|].
    intros [e|]; [apply keeps_session_mret|by apply IH].
  - destruct (chan_recv (stream st)) as [[[[e|]|] ch]|];
      try apply keeps_session_mret; by apply IH.
  - apply keeps_session_mret.
Qed.

Lemma feeder_moves_keeps_session moves st :
  forallb feed_goes_on moves = true → keeps_session (feeder_moves moves st).
Proof.
  revert st. induction moves as [|s rest IH]; intros st Hon;
    [apply keeps_session_mret|].
  cbn [forallb] in Hon. apply andb_true_iff in Hon as [Hs Hrest].
  destruct s as [cancel|upd|err| |now|now1 recent now2|all now| |];
    cbn [feeder_moves]; try done; try apply keeps_session_mret.
  - destruct (feed st); try apply keeps_session_mret.
    apply keeps_session_listen; intros; by apply IH.
  - destruct (feed st); try apply keeps_session_mret.
    destruct (chan_send (modChan st) upd); [by apply IH|apply keeps_session_mret].
  - destruct (feed st); try apply keeps_session_mret.
    destruct (chan_send (stream st) err); [by apply IH|apply keeps_session_mret].
Qed.

Lemma after_moves_keeps_session moves st k :
  forallb feed_goes_on moves = true →
  (∀ st', keeps_session (k st')) →
  keeps_session (after_moves moves st k).
Proof.
  intros Hon Hk. apply keeps_session_bind; [by apply feeder_moves_keeps_session|].
  intros [st'|]; [apply Hk|apply keeps_session_mret].
Qed.

Lemma leading_moves_feed_goes_on schedule :
  forallb feed_goes_on schedule = true → forallb feed_goes_on (leading_moves schedule) = true.
Proof.
  induction schedule as [|s rest IH]; [done|]. cbn [forallb leading_moves].
  intros [Hs Hrest]%andb_true_iff. destruct (is_move s); [|done].
  cbn [forallb]. by rewrite Hs, IH.
Qed.

Lemma AutoSync_keeps_session realtime recentInterval fullSyncInterval before all during now
    schedule :
  forallb feed_goes_on (before ++ during ++ schedule) = true →
  keeps_session (AutoSync realtime recentInterval fullSyncInterval before all during now schedule).
Proof.
  rewrite !forallb_app. intros [Hb [Hd Hs]%andb_true_iff]%andb_true_iff.
  unfold AutoSync. apply after_moves_keeps_session; [done|]. intros st1.
  apply keeps_session_bind; [apply keeps_session_emit_CallAll|]. intros _.
  apply after_moves_keeps_session; [done|]. intros st2.
  apply keeps_session_bind; [apply keeps_session_FullSync_answer|].
  intros [e|]; [apply keeps_session_mret|].
  destruct ((0 <? recentInterval) && (0 <? fullSyncInterval)).
  - by apply AutoSync_loop_keeps_session.
  - apply after_moves_keeps_session; [by apply leading_moves_feed_goes_on|].
    intros _. apply keeps_session_panic.
Qed.

(** X25. [AutoSync] does not end the live session that its goroutine has
    started.  Once the goroutine has called [Feed], be it before, during or
    after the first [FullSync], the client stays marked as streaming for as
    long as [Feed] has not returned, whatever else happens: so it is when
    [AutoSync] returns (with the error of a [FullSync] or of an [Update], or
    on cancellation) and when it panics, and a call of [ListenForUpdates] at
    that point is refused with "already listening for updates". *)
Theorem AutoSync_leaves_the_session_registered
    (realtime : bool) (recentInterval fullSyncInterval : Duration)
    (before during schedule : list step) (all : list string * option error) (now : Time)
    (w : World) :
  forallb feed_goes_on (before ++ during ++ schedule) = true →
  let r := AutoSync realtime recentInterval fullSyncInterval before all during now schedule w in
  EvTransport CallFeed ∈ trace r →
  streaming (client (world_of r)) = true
  ∧ (∀ cancel' schedule',
       ListenForUpdates cancel' schedule' (world_of r) =
         (Returned (Exited (Some errAlreadyListening)), world_of r, [EvLock; EvUnlock])).
Proof.
  intros Hgoes r Hfeed.
  assert (streaming (client (world_of r)) = true) as Hon.
  { apply AutoSync_keeps_session; [done|]. by right. }
  split; [done|].
  intros cancel' schedule'. unfold ListenForUpdates.
  by rewrite (bind_returned _ _ _ _ _ _ (checkStreaming_busy cancel' _ Hon)).
Qed.

Ltac feed_opened :=
  match goal with
  | |- _ ∈ ?t =>
      let t' := eval vm_compute in t in
      replace t with t' by (vm_compute; reflexivity); set_solver
  end.

(** A first [FullSync] that fails after the goroutine has opened the feed,
    and an [Update] that fails while the feed is running. *)
Lemma AutoSync_leaves_the_session_registered_witness :
  let timeout := λ _ : Z, ([], Some "context deadline exceeded") in
  let r := AutoSync true Second Minute [] ([], Some "connection refused") [GoListen 1%nat]
             Example.in_2025 [] New in
  let r' := AutoSync true Second Minute [] (["a.example"], None) [] Example.in_2025
              [GoListen 1%nat;
               SelectRecent (Example.in_2025 + Second) timeout (Example.in_2025 + Second)] New in
  result r = Returned (Exited (Some "connection refused"))
  ∧ result (ListenForUpdates 2%nat [] (world_of r)) = Returned (Exited (Some errAlreadyListening))
  ∧ result r' = Returned (Exited (Some "context deadline exceeded"))
  ∧ streaming (client (world_of r')) = true.
Proof.
  intros timeout r r'. split; [by vm_compute|].
  destruct (AutoSync_leaves_the_session_registered true Second Minute [] [GoListen 1%nat] []
              ([], Some "connection refused") Example.in_2025 New) as [_ Hbusy];
    [reflexivity|feed_opened|].
  destruct (AutoSync_leaves_the_session_registered true Second Minute [] []
              [GoListen 1%nat;
               SelectRecent (Example.in_2025 + Second) timeout (Example.in_2025 + Second)]
              (["a.example"], None) Example.in_2025 New) as [Hon _];
    [reflexivity|feed_opened|].
  split; [exact (f_equal result (Hbusy 2%nat []))|]. split; [by vm_compute|exact Hon].
Defined.

(** ** Windows that overlap *)

Lemma merge_batches_snoc s mods upd :
  merge_batches s (mods ++ [upd]) = merge_batch (merge_batches s mods) upd.
Proof. unfold merge_batches. by rewrite foldl_app. Qed.

Lemma verdict_snoc mods upd d :
  verdict (mods ++ [upd]) d =
    if bool_decide (d ∈ Domains upd) then Some (Add upd) else verdict mods d.
Proof. unfold verdict. by rewrite foldl_app. Qed.

Lemma elem_of_merge_batches s mods d :
  d ∈ merge_batches s mods ↔
  match verdict mods d with
  | Some add => add = true
  | None => d ∈ s
  end.
Proof.
  induction mods as [|upd mods IH] using rev_ind; [done|].
  rewrite merge_batches_snoc, verdict_snoc. unfold merge_batch.
  destruct (bool_decide_reflect (d ∈ Domains upd)) as [Hin|Hout];
    destruct (Add upd); set_solver.
Qed.

Lemma merge_batches_app s mods1 mods2 :
  merge_batches s (mods1 ++ mods2) = merge_batches (merge_batches s mods1) mods2.
Proof. unfold merge_batches. by rewrite foldl_app. Qed.

Lemma merge_batches_again s mods :
  merge_batches (merge_batches s mods) mods = merge_batches s mods.
Proof.
  apply set_eq. intros d. rewrite !elem_of_merge_batches.
  destruct (verdict mods d) eqn:Hverdict; [done|].
  by rewrite elem_of_merge_batches, Hverdict.
Qed.

Lemma Update_success_domains now1 recent now2 w s :
  (recent (Update_window now1 w)).2 = None →
  domains (client w) = Some s →
  domains (client (world_of (Update now1 recent now2 w))) =
    Some (merge_batches s (recent (Update_window now1 w)).1).
Proof.
  intros Hok Hs.
  destruct (Update_success_state now1 recent now2 w s Hok Hs) as [-> _].
  destruct (0 <? length _)%nat; [|done]. by rewrite sendUpdate_client.
Qed.

(** X26. In the merge the last record that names a domain decides: after
    the records of an answer the domain is cached if that record adds, not
    cached if it deletes, and as before if no record names it.  So records
    that have been applied can be applied again without any effect: an
    answer that starts with the last records of the answer before it (the
    window of [Update] reaches one minute behind [lastUpdated]) leaves the
    map that its new records alone would leave. *)
Theorem records_applied_again_change_nothing
    (w : World) (s : gset string) (before again after : list DomainUpdate) :
  domains (client w) = Some s →
  let w1 := world_of (applyMods (before ++ again) w) in
  (∀ d, d ∈ members (client w1) ↔
        match verdict (before ++ again) d with
        | Some add => add = true
        | None => d ∈ s
        end)
  ∧ applyMods (again ++ after) w1 = applyMods after w1
  ∧ (∀ now1 now2 recent recent',
       recent (Update_window now1 w1) = (again ++ after, None) →
       recent' (Update_window now1 w1) = (after, None) →
       domains (client (world_of (Update now1 recent now2 w1))) =
         domains (client (world_of (Update now1 recent' now2 w1)))).
Proof.
  intros Hs w1.
  assert (w1 = mkWorld (set_domains (Some (merge_batches s (before ++ again))) (client w))
                 (chans w)) as Hw1.
  { unfold w1. by rewrite (applyMods_allocated _ _ s Hs). }
  assert (merge_batches (merge_batches s (before ++ again)) (again ++ after) =
          merge_batches (merge_batches s (before ++ again)) after) as Hsame.
  { rewrite (merge_batches_app _ again after), (merge_batches_app s before again).
    by rewrite merge_batches_again. }
  split; [|split].
  - intros d. rewrite Hw1. unfold members. cbn. apply elem_of_merge_batches.
  - rewrite !(applyMods_allocated _ w1 (merge_batches s (before ++ again)))
      by (by rewrite Hw1).
    by rewrite Hsame.
  - intros now1 now2 recent recent' Hrecent Hrecent'.
    assert (domains (client w1) = Some (merge_batches s (before ++ again))) as Hs1
      by (by rewrite Hw1).
    rewrite (Update_success_domains now1 recent now2 w1 _ ltac:(by rewrite Hrecent) Hs1).
    rewrite (Update_success_domains now1 recent' now2 w1 _ ltac:(by rewrite Hrecent') Hs1).
    rewrite Hrecent, Hrecent'. cbn [fst]. by rewrite Hsame.
Qed.

(** An answer that adds two domains and deletes one of them, and a second
    answer that repeats the deletion and adds a third domain. *)
Lemma records_applied_again_change_nothing_witness :
  let w := mkWorld (mkClient (Some {["a.example"]}) 5 false None None) [] in
  let before := [mkDomainUpdate true ["b.example"; "c.example"]] in
  let again := [mkDomainUpdate false ["b.example"]] in
  let after := [mkDomainUpdate true ["d.example"]] in
  domains (client w) = Some {["a.example"]}
  ∧ applyMods (again ++ after) (world_of (applyMods (before ++ again) w)) =
      applyMods after (world_of (applyMods (before ++ again) w)).
Proof.
  intros w before again after. split; [reflexivity|].
  destruct (records_applied_again_change_nothing w {["a.example"]} before again after)
    as (_ & Hsame & _); [reflexivity|].
  exact Hsame.
Defined.

(** ** How many lookups *)

Lemma dots_contains s : contains "." s = false → dots s = 0%nat.
Proof.
  induction s as [|c s IH]; [done|]. cbn.
  destruct (Ascii.eqb c "."); [done|]. apply IH.
Qed.

Lemma length_generateVariants domain : length (generateVariants domain) = dots domain.
Proof.
  induction domain as [|c rest IH]; [done|].
  rewrite generateVariants_step. cbn [dots].
  destruct (Ascii.eqb c "."); [cbn; by rewrite IH|].
  destruct (contains "." rest) eqn:Hdot.
  - rewrite <- IH, (generateVariants_head rest), Hdot. done.
  - by rewrite dots_contains.
Qed.

Lemma length_upto_first_member (s : gset string) (vs : list string) :
  (length (upto_first_member s vs) ≤ length vs)%nat.
Proof.
  induction vs as [|v vs IH]; [done|]. cbn.
  destruct (bool_decide (v ∈ s)); cbn; lia.
Qed.

Lemma dot_suffix_length v domain :
  dot_suffix v domain → (String.length v ≤ String.length domain)%nat.
Proof.
  intros [->|[pre ->]]; [done|]. rewrite !length_append. lia.
Qed.

Lemma NoDup_generateVariants domain : NoDup (generateVariants domain).
Proof.
  induction domain as [|c rest IH]; [constructor|].
  assert (∀ vs : list string, (∀ v, v ∈ vs → v ∈ generateVariants rest) →
                String c rest ∉ vs) as Hlonger.
  { intros vs Hvs Hin. apply Hvs, generateVariants_elem in Hin as [_ Hsuffix].
    apply dot_suffix_length in Hsuffix. cbn in Hsuffix. lia. }
  rewrite generateVariants_step.
  destruct (Ascii.eqb c "."); [constructor; [by apply Hlonger|done]|].
  destruct (contains "." rest); [|constructor].
  constructor.
  - apply Hlonger. intros v Hv. destruct (generateVariants rest); [done|]. by right.
  - destruct (generateVariants rest) as [|v vs]; [constructor|].
    by apply NoDup_cons in IH as [_ IH].
Qed.

(** X27. A name has as many variants as it has dots, all different, so
    [FuzzyCheck] calls [Check] at most once for each dot of its input.  It
    takes the mutex for each lookup and releases it after: the lookups of
    one call are not made under one hold of the mutex. *)
Theorem FuzzyCheck_looks_up_at_most_once_per_dot (domain : string) (w : World) :
  length (generateVariants domain) = dots domain
  ∧ NoDup (generateVariants domain)
  ∧ (length (lookups (trace (FuzzyCheck domain w))) ≤ dots domain)%nat
  ∧ trace (FuzzyCheck domain w) =
      lookups (trace (FuzzyCheck domain w)) ≫= λ v, [EvLock; EvLookup v; EvUnlock].
Proof.
  split; [apply length_generateVariants|]. split; [apply NoDup_generateVariants|].
  rewrite FuzzyCheck_run. unfold trace. cbn [snd]. rewrite lookups_of_checks.
  split; [|done].
  rewrite <- length_generateVariants. apply length_upto_first_member.
Qed.

(** ** A channel that its subscriber has closed *)

Lemma sendUpdate_closed w p ch :
  updateChan (client w) = Some p → chans w !! p = Some ch → chan_closed ch = true →
  sendUpdate w = (Panicked "send on closed channel", w, []).
Proof.
  intros Hp Hch Hclosed. unfold sendUpdate, send_or_skip. unfold_M. cbn [client chans].
  rewrite Hp, Hch, Hclosed. by destruct w.
Qed.

(** X28. When the subscriber has closed the channel that [UpdateChannel]
    gave it, every later attempt to notify panics with a send on a closed
    channel, after the cache has been changed and with the mutex released
    on the way out: a successful [FullSync], a live update, and an [Update]
    whose answer holds a record (an [Update] with an empty answer still
    returns nil).  [UpdateChannel] and [Close] then panic on closing the
    channel a second time, [UpdateChannel] without any change. *)
Theorem a_channel_closed_by_its_subscriber_makes_the_next_sync_panic
    (w : World) (s : gset string) (p : nat) (ch : Chan) :
  domains (client w) = Some s →
  updateChan (client w) = Some p →
  chans w !! p = Some ch →
  chan_closed ch = true →
  (∀ ds now,
     FullSync (ds, None) now w =
       (Panicked "send on closed channel", synced ds now w,
        [EvTransport CallAll; EvLock; EvUnlock]))
  ∧ (∀ upd now,
       applyLiveUpdates upd now w =
         (Panicked "send on closed channel", merged (merge_batch s upd) now w,
          [EvLock; EvUnlock]))
  ∧ (∀ now1 recent now2,
       (recent (Update_window now1 w)).2 = None →
       result (Update now1 recent now2 w) =
         if bool_decide ((recent (Update_window now1 w)).1 = [])
         then Returned None else Panicked "send on closed channel")
  ∧ UpdateChannel w = (Panicked "close of closed channel", w, [])
  ∧ result (Close w) = Panicked "close of closed channel".
Proof.
  intros Hs Hp Hch Hclosed. split; [|split; [|split; [|split]]].
  - intros ds now. rewrite FullSync_success_run.
    by rewrite (sendUpdate_closed (synced ds now w) p ch).
  - intros upd now. unfold applyLiveUpdates. rewrite locked_run, modify_client_bind.
    assert (applyMod upd (mkWorld (set_lastUpdated now (client w)) (chans w)) =
            (Returned tt, merged (merge_batch s upd) now w, [])) as Hmerge
      by (by rewrite (applyMod_allocated upd _ s)).
    rewrite (bind_returned _ _ _ _ _ _ Hmerge).
    by rewrite (sendUpdate_closed (merged (merge_batch s upd) now w) p ch).
  - intros now1 recent now2 Hok.
    destruct (Update_success_state now1 recent now2 w s Hok Hs) as [_ ->].
    destruct (recent (Update_window now1 w)).1 as [|upd mods]; [done|].
    cbn [length Nat.ltb Nat.leb]. rewrite bool_decide_eq_false_2 by done.
    by rewrite (sendUpdate_closed _ p ch).
  - unfold UpdateChannel, close_chan. unfold_M. cbn [client chans].
    rewrite Hp. cbn [fst snd chans]. rewrite Hch, Hclosed. by destruct w.
  - by rewrite Close_run, Hp, Hch, Hclosed.
Qed.

(** A subscriber that closed its channel after reading its notifications. *)
Lemma a_channel_closed_by_its_subscriber_makes_the_next_sync_panic_witness :
  let w := mkWorld (mkClient (Some {["a.example"]}) 5 false None (Some 0%nat))
             [mkChan 2 0 true] in
  domains (client w) = Some {["a.example"]}
  ∧ result (FullSync (["b.example"], None) 9 w) = Panicked "send on closed channel"
  ∧ result (Check "b.example" (world_of (FullSync (["b.example"], None) 9 w))) =
      Returned true.
Proof.
  intros w.
  destruct (a_channel_closed_by_its_subscriber_makes_the_next_sync_panic w {["a.example"]}
              0%nat (mkChan 2 0 true)) as [Hfull _];
    [reflexivity|reflexivity|reflexivity|reflexivity|].
  split; [reflexivity|]. rewrite (Hfull ["b.example"] 9). split; reflexivity.
Defined.

(** ** The answer of the lookup endpoint *)

(** X29. [RawClient.Check] answers true, without an error, exactly when the
    request went through, the status is 200, the body was read without an
    error and the body is the four bytes [true]; with status 200 and any
    other body (the same word in capitals, or followed by a line feed) it
    answers false without an error.  With an error the answer is false. *)
Theorem RawClient_Check_is_true_only_for_the_body_true
    (NewRequest : string → option error)
    (Do : string → option Raw.Header → Raw.Response + error)
    (c : Raw.RawClient) (name : string) :
  (Raw.Check NewRequest Do c name = (true, None) ↔
     ∃ resp, Raw.doReq NewRequest Do c ("/v2/check/" +:+ name) = inl resp
             ∧ Raw.StatusCode resp = 200
             ∧ Raw.Body resp = ("true", None))
  ∧ (∀ resp body,
       Raw.doReq NewRequest Do c ("/v2/check/" +:+ name) = inl resp →
       Raw.StatusCode resp = 200 →
       Raw.Body resp = (body, None) →
       body ≠ "true" →
       Raw.Check NewRequest Do c name = (false, None))
  ∧ ((Raw.Check NewRequest Do c name).2 ≠ None →
     (Raw.Check NewRequest Do c name).1 = false)
  ∧ (∀ err, NewRequest (Raw.domain c +:+ "/v2/check/" +:+ name) = Some err →
       Raw.Check NewRequest Do c name = (false, Some err)).
Proof.
  unfold Raw.Check, endpointCheck. split; [|split; [|split]].
  - split.
    + destruct (Raw.doReq NewRequest Do c ("/v2/check/" +:+ name)) as [resp|err]; [|done].
      destruct (Z.eqb_spec (Raw.StatusCode resp) 200) as [Hstatus|]; [|done].
      destruct (Raw.Body resp) as [body [err|]] eqn:Hbody; cbn [fst snd]; [done|].
      destruct (String.eqb_spec body "true") as [->|]; [|done].
      intros _. by exists resp.
    + intros (resp & -> & -> & ->). done.
  - intros resp body -> -> -> Hbody. cbn.
    by destruct (String.eqb_spec body "true").
  - destruct (Raw.doReq NewRequest Do c ("/v2/check/" +:+ name)) as [resp|err]; [|done].
    destruct (Raw.StatusCode resp =? 200); [|done].
    destruct (Raw.Body resp) as [body [err|]]; cbn [fst snd]; [done|].
    by destruct (String.eqb body "true").
  - intros err Hreq. unfold Raw.doReq. by rewrite Hreq.
Qed.

(** A server that ends its answer with a line feed. *)
Lemma RawClient_Check_is_true_only_for_the_body_true_witness :
  let NewRequest := λ _ : string, @None error in
  let Do := λ (_ : string) (_ : option Raw.Header),
              @inl Raw.Response error (Raw.mkResponse 200 ("true" +:+ String (ascii_of_nat 10) "", None)) in
  let c := Raw.mkRawClient "https://phish.example" "me" None 5 in
  Raw.Check NewRequest Do c "a.example" = (false, None).
Proof.
  intros NewRequest Do c.
  destruct (RawClient_Check_is_true_only_for_the_body_true NewRequest Do c "a.example")
    as (_ & Hother & _).
  apply (Hother (Raw.mkResponse 200 ("true" +:+ String (ascii_of_nat 10) "", None))
           ("true" +:+ String (ascii_of_nat 10) "")); [reflexivity|reflexivity|reflexivity|].
  intros Heq. discriminate Heq.
Defined.
